(** * onmount: the lifecycle synchronisation engine of [src/index.js]

    A shallow embedding of the behavior registry, of the per-behavior
    enter/exit bookkeeping and of the polling loops, together with the
    properties the specification states about them.

    Conventions of the embedding.
    - A DOM element is identified by a number; object identity ([===]) is
      equality of these numbers.
    - The property [el[be.key]] of an element lives in one finite map
      [props], indexed by the element and the behavior key.  The key string
      ['__onmount:' + bid] is represented by the number [bid] it is built
      from, and the id string ['c' + cid] by the number [cid].
    - The array [be.loaded] of a behavior lives in the store under the key
      of the behavior: every constructed behavior has a key of its own.
    - The enter and exit callbacks are functions on the store.  They are
      handed the store as it is at the moment of the call and return the
      store they leave behind, so a callback that polls again, or that
      changes the tree, is an ordinary inhabitant of the callback type.
      Callbacks do not register behaviors: the registry is not part of the
      store.
    - [selectors] is a plain object used as a map from selector strings.
      Its own properties are kept in a finite map; a string that names no
      own property is looked up in [Object_prototype], the properties every
      object literal inherits (['constructor'], ['toString'], ...).
    - A call of the engine ends with a [Completion]: it returns, or it
      raises the [TypeError] of a call on [undefined].  The engine raises in
      three places: [register] and [onmount.poll] on an inherited property
      of [selectors], and the observer callback on a node that is not an
      element and so has no method [matches].
    - [log] is ghost state: the sequence of callback invocations made by the
      engine, recorded when the callback returns.
    - Counters are natural numbers.  Callbacks return: exceptions raised by
      a callback are not represented, and selector strings are valid
      selectors, so that [querySelectorAll] and [matches] return. *)

From stdpp Require Import gmap strings list fin_maps sorting.

Abbreviation Node := nat (only parsing).

(** ** The tree (platform objects) *)

(** The document as far as the engine looks at it: [document.documentElement],
    the [parentElement] link of every element, the elements in document
    order, and [el.matches(selector)]. *)
Record DOM := mkDOM {
  documentElement : Node;
  parentElement : gmap Node Node;
  nodes : list Node;
  matches : Node -> string -> bool
}.

(** [isAttached (el)]: the [while (el)] loop that ascends [parentElement].
    The loop is run for at most one more step than there are parent links;
    [isAttached_reaches] below shows this bound never cuts an ascent that
    arrives at the root. *)
Fixpoint isAttached_loop (d : DOM) (fuel : nat) (el : option Node) : bool :=
  match fuel, el with
  | S fuel', Some e =>
      if decide (e = documentElement d) then true
      else isAttached_loop d fuel' (parentElement d !! e)
  | _, _ => false
  end.

Definition isAttached (d : DOM) (el : Node) : bool :=
  isAttached_loop d (S (size (parentElement d))) (Some el).

(** [query (selector)], that is [document.querySelectorAll (selector)]: the
    elements of the document that match, in document order.  An element
    belongs to the document when its ancestors lead to the root element. *)
Definition query (d : DOM) (selector : string) : list Node :=
  List.filter (fun el => isAttached d el && matches d el selector) (nodes d).

(** [has (list, el)]: [Array.from(list).indexOf(el) > -1]. *)
Definition has (l : list Node) (el : Node) : bool :=
  bool_decide (el ∈ l).

(** ** State tags, callbacks and the store *)

(** The object [{ id: 'c' + cid, selector: this.selector }]. *)
Record Tag := mkTag { tag_id : nat; tag_selector : string }.

(** What the engine looks at in a callback's result: [!== false]. *)
Inductive Ret := RetFalse | RetOther.

(** How a call of the engine ends: it returns, or it raises. *)
Inductive Completion := Normal | TypeError.

Inductive Event :=
| EvInit (key : nat) (el : Node) (options : Tag) (r : Ret)
| EvExit (key : nat) (el : Node) (state : option Tag) (r : Ret).

#[global] Instance Tag_eq_dec : EqDecision Tag.
Proof. solve_decision. Defined.
#[global] Instance Ret_eq_dec : EqDecision Ret.
Proof. solve_decision. Defined.
#[global] Instance Completion_eq_dec : EqDecision Completion.
Proof. solve_decision. Defined.
#[global] Instance Event_eq_dec : EqDecision Event.
Proof. solve_decision. Defined.

Record Store := mkStore {
  document : DOM;
  props : gmap (Node * nat) Tag;
  loaded : gmap nat (list (option Node));
  cid : nat;
  log : list Event
}.

Definition InitFn := Node -> Tag -> Store -> Store * Ret.
Definition ExitFn := Node -> option Tag -> Store -> Store * Ret.

Record Behavior := mkBehavior {
  be_id : nat;
  init : InitFn;
  exit : option ExitFn;
  selector : string;
  key : nat;
  detectMutate : bool
}.

(** *** Store accessors and updates *)

Definition loaded_of (k : nat) (s : Store) : list (option Node) :=
  default [] (loaded s !! k).

(** [be.loaded[i]]; a hole, a tombstone and an index past the end all read
    as [undefined]. *)
Definition loaded_at (k i : nat) (s : Store) : option Node :=
  default None (loaded_of k s !! i).

(** [el[key]]. *)
Definition prop (el : Node) (k : nat) (s : Store) : option Tag :=
  props s !! (el, k).

Definition set_document (d : DOM) (s : Store) : Store :=
  mkStore d (props s) (loaded s) (cid s) (log s).

Definition set_loaded (k : nat) (l : list (option Node)) (s : Store) : Store :=
  mkStore (document s) (props s) (<[k := l]> (loaded s)) (cid s) (log s).

Definition set_prop (el : Node) (k : nat) (t : Tag) (s : Store) : Store :=
  mkStore (document s) (<[(el, k) := t]> (props s)) (loaded s) (cid s) (log s).

Definition delete_prop (el : Node) (k : nat) (s : Store) : Store :=
  mkStore (document s) (delete (el, k) (props s)) (loaded s) (cid s) (log s).

Definition incr_cid (s : Store) : Store :=
  mkStore (document s) (props s) (loaded s) (S (cid s)) (log s).

Definition record (e : Event) (s : Store) : Store :=
  mkStore (document s) (props s) (loaded s) (cid s) (log s ++ [e]).

(** [arr[i] = v] on a JavaScript array: in range it overwrites, past the end
    it extends the array with holes. *)
Definition array_set {A} (l : list (option A)) (i : nat) (v : option A)
  : list (option A) :=
  if decide (i < length l) then <[i := v]> l
  else l ++ replicate (i - length l) None ++ [v].

(** [arr.indexOf (el)]; [None] stands for [-1]. *)
Fixpoint indexOf (l : list (option Node)) (el : Node) : option nat :=
  match l with
  | [] => None
  | x :: l' => if decide (x = Some el) then Some 0 else S <$> indexOf l' el
  end.

(** [this.loaded[i] = undefined].  For [i = -1] the assignment creates the
    property ["-1"], which neither [length], nor indexed reads, nor
    [indexOf] see: the array is unchanged. *)
Definition tombstone (k : nat) (i : option nat) (s : Store) : Store :=
  match i with
  | Some i => set_loaded k (array_set (loaded_of k s) i None) s
  | None => s
  end.

(** [this.loaded.push (el)]. *)
Definition push_loaded (k : nat) (el : Node) (s : Store) : Store :=
  set_loaded k (loaded_of k s ++ [Some el]) s.

(** ** Iteration *)

(** [each (list, fn)] over an array that does not change under the loop. *)
Fixpoint each_from {A} (i : nat) (l : list A) (fn : A -> nat -> Store -> Store)
  (s : Store) : Store :=
  match l with
  | [] => s
  | x :: l' => each_from (S i) l' fn (fn x i s)
  end.

Definition each {A} (l : list A) (fn : A -> nat -> Store -> Store) : Store -> Store :=
  each_from 0 l fn.

(** [eachOf (list, fn)]: [each] on a query result. *)
Definition eachOf (l : list Node) (fn : Node -> Store -> Store) : Store -> Store :=
  each l (fun el _ => fn el).

(** [each (list, fn)] with a function that can raise: the exception leaves
    the loop, and the elements after it are not visited. *)
Fixpoint each_try_from {A} (i : nat) (l : list A)
  (fn : A -> nat -> Store -> Store * Completion) (s : Store) : Store * Completion :=
  match l with
  | [] => (s, Normal)
  | x :: l' =>
      match fn x i s with
      | (s1, Normal) => each_try_from (S i) l' fn s1
      | (s1, TypeError) => (s1, TypeError)
      end
  end.

Definition each_try {A} (l : list A)
  (fn : A -> nat -> Store -> Store * Completion) : Store -> Store * Completion :=
  each_try_from 0 l fn.

(** [each (be.loaded, fn)]: [len] is read once, [list[i]] is read from the
    array as it is when the loop arrives at [i]. *)
Fixpoint each_loaded_loop (k : nat) (fn : option Node -> nat -> Store -> Store)
  (i n : nat) (s : Store) : Store :=
  match n with
  | 0 => s
  | S n' => each_loaded_loop k fn (S i) n' (fn (loaded_at k i s) i s)
  end.

Definition each_loaded (k : nat) (fn : option Node -> nat -> Store -> Store)
  (s : Store) : Store :=
  each_loaded_loop k fn 0 (length (loaded_of k s)) s.

(** ** Behavior *)

(** [Behavior.prototype.visitEnter]. *)
Definition visitEnter (be : Behavior) (el : Node) (s : Store) : Store :=
  match prop el (key be) s with
  | Some _ => s
  | None =>
      let options := mkTag (cid s) (selector be) in
      let '(s1, r) := init be el options s in
      let s2 := record (EvInit (key be) el options r) s1 in
      match r with
      | RetFalse => s2
      | RetOther => incr_cid (push_loaded (key be) el (set_prop el (key be) options s2))
      end
  end.

(** [Behavior.prototype.doExit]; [i = None] is the call without an index. *)
Definition doExit (be : Behavior) (el : Node) (i : option nat) (s : Store) : Store :=
  let i := match i with
           | Some i => Some i
           | None => indexOf (loaded_of (key be) s) el
           end in
  let s1 := tombstone (key be) i s in
  match exit be with
  | None => s1
  | Some f =>
      let state := prop el (key be) s1 in
      let '(s2, r) := f el state s1 in
      let s3 := record (EvExit (key be) el state r) s2 in
      match r with
      | RetFalse => s3
      | RetOther => delete_prop el (key be) s3
      end
  end.

(** [Behavior.prototype.visitExit]. *)
Definition visitExit (be : Behavior) (el : option Node) (i : nat)
  (list : list Node) (s : Store) : Store :=
  match el with
  | None => s
  | Some el =>
      if detectMutate be then
        if negb (has list el) then doExit be el (Some i) s else s
      else
        if negb (isAttached (document s) el) then doExit be el (Some i) s else s
  end.

(** The closure installed by [Behavior.prototype.register]. *)
Definition poll_closure (be : Behavior) (s : Store) : Store :=
  let list := query (document s) (selector be) in
  let s1 := each_loaded (key be) (fun element i => visitExit be element i list) s in
  eachOf list (fun element => visitEnter be element) s1.

(** ** Registry *)

(** [behaviors], [handlers], [selectors] and the counter [bid].  A poll
    closure is represented by the behavior it closes over. *)
Record Registry := mkRegistry {
  behaviors : list Behavior;
  handlers : list Behavior;
  selectors : gmap string (list Behavior);
  bid : nat
}.

(** [onmount.reset]; the counters are left alone. *)
Definition reset (R : Registry) : Registry :=
  mkRegistry [] [] ∅ (bid R).

(** What an object literal such as [selectors = {}] inherits (platform
    objects): the functions of [Object.prototype] with their [length], and
    [Object.prototype] itself behind [__proto__]. *)
Inductive Inherited :=
| IFunction (length : nat)
| IObject.

Definition Object_prototype : gmap string Inherited :=
  list_to_map
    [("constructor", IFunction 1); ("hasOwnProperty", IFunction 1);
     ("isPrototypeOf", IFunction 1); ("propertyIsEnumerable", IFunction 1);
     ("toLocaleString", IFunction 0); ("toString", IFunction 0);
     ("valueOf", IFunction 0);
     ("__defineGetter__", IFunction 2); ("__defineSetter__", IFunction 2);
     ("__lookupGetter__", IFunction 1); ("__lookupSetter__", IFunction 1);
     ("__proto__", IObject)].

(** What [selectors[selector]] reads: an own property, which is an array of
    poll closures, or else an inherited property, or else [undefined]. *)
Inductive Functions :=
| FArray (fs : list Behavior)
| FInherited (p : Inherited).

Definition selectors_at (R : Registry) (sel : string) : option Functions :=
  match selectors R !! sel with
  | Some fs => Some (FArray fs)
  | None => FInherited <$> Object_prototype !! sel
  end.

(** [register (selector, fn)].  An inherited property is truthy, so no
    array is created for it, and it has no method [push]: the call raises
    before anything is stored. *)
Definition register (sel : string) (fn : Behavior) (R : Registry)
  : Registry * Completion :=
  match selectors_at R sel with
  | Some (FInherited _) => (R, TypeError)
  | _ =>
      (mkRegistry (behaviors R) (handlers R ++ [fn])
         (<[sel := default [] (selectors R !! sel) ++ [fn]]> (selectors R)) (bid R),
       Normal)
  end.

(** The options object of a registration. *)
Record RegOptions := mkRegOptions { opt_detectMutate : bool }.

(** [new Behavior (selector, init, exit, options)]: the id is taken from
    [bid] before the increment, the key after it. *)
Definition new_Behavior (sel : string) (i : InitFn) (e : option ExitFn)
  (options : option RegOptions) (b : nat) : Behavior * nat :=
  (mkBehavior b i e sel (S b)
     (match options with Some o => opt_detectMutate o | None => false end),
   S b).

(** [onmount.poll (selector)]: a missing or empty selector is falsy and
    selects [handlers].  On an inherited function [each] reads its [length]
    and then calls [list[0]], which is [undefined]: with one parameter or
    more the call raises at once, with none the loop is empty.  On
    [Object.prototype] the [for ... in] loop of [each] finds no enumerable
    property. *)
Definition poll (R : Registry) (sel : option string) (s : Store)
  : Store * Completion :=
  let functions :=
    match sel with
    | Some str =>
        if decide (str = "") then FArray (handlers R)
        else default (FArray []) (selectors_at R str)
    | None => FArray (handlers R)
    end in
  match functions with
  | FArray fs => (each fs (fun fn _ => poll_closure fn) s, Normal)
  | FInherited (IFunction (S _)) => (s, TypeError)
  | FInherited _ => (s, Normal)
  end.

(** [onmount.teardown]. *)
Definition teardown (R : Registry) (s : Store) : Store :=
  each (behaviors R) (fun be _ =>
    each_loaded (key be) (fun el i =>
      match el with
      | Some el => doExit be el (Some i)
      | None => fun s => s
      end)) s.

(** A node of a mutation record: an element, or a node of another kind
    (a text node, a comment), which has no method [matches]. *)
Inductive AnyNode :=
| ElementNode (el : Node)
| OtherNode.

#[global] Instance AnyNode_eq_dec : EqDecision AnyNode.
Proof. solve_decision. Defined.

(** A mutation record as the observer callback reads it. *)
Record MutationRecord := mkMutation {
  addedNodes : list AnyNode;
  removedNodes : list AnyNode
}.

(** The callback handed to [new MutationObserver] in [onmount.observe]:
    for each behavior, for each mutation, the added nodes and then the
    removed ones.  [on_added] and [on_removed] are the two innermost
    function bodies; [el.matches (...)] raises on a node that is not an
    element, and the exception leaves all three loops. *)
Definition on_added (be : Behavior) (el : AnyNode) (s : Store)
  : Store * Completion :=
  match el with
  | ElementNode el =>
      (if matches (document s) el (selector be) then visitEnter be el s else s,
       Normal)
  | OtherNode => (s, TypeError)
  end.

Definition on_removed (be : Behavior) (el : AnyNode) (s : Store)
  : Store * Completion :=
  match el with
  | ElementNode el =>
      (if matches (document s) el (selector be) then doExit be el None s else s,
       Normal)
  | OtherNode => (s, TypeError)
  end.

Definition on_mutation (be : Behavior) (mutation : MutationRecord) (s : Store)
  : Store * Completion :=
  match each_try (addedNodes mutation) (fun el _ => on_added be el) s with
  | (s1, Normal) => each_try (removedNodes mutation) (fun el _ => on_removed be el) s1
  | (s1, TypeError) => (s1, TypeError)
  end.

Definition observer_callback (R : Registry) (mutations : list MutationRecord)
  (s : Store) : Store * Completion :=
  each_try (behaviors R) (fun be _ =>
    each_try mutations (fun mutation _ => on_mutation be mutation)) s.

(** Every node the record reports is an element. *)
Definition elements_only (mutation : MutationRecord) : Prop :=
  (OtherNode ∉ addedNodes mutation) ∧ (OtherNode ∉ removedNodes mutation).

(** The third and fourth arguments of [onmount]: an object in the place of
    [exit] is taken for the options. *)
Inductive Arg3 :=
| ArgExit (f : ExitFn)
| ArgOptions (o : RegOptions).

(** The call shapes of [onmount (selector, init, exit, options)]. *)
Inductive Call :=
| CallAll
| CallSelector (sel : string)
| CallBehavior (sel : string) (i : InitFn) (third : option Arg3)
    (fourth : option RegOptions).

(** The result is the registry and the store the call leaves behind, and
    how it ended.  A registration pushes the behavior to [behaviors] before
    [be.register ()] can raise. *)
Definition onmount (c : Call) (R : Registry) (s : Store)
  : Registry * Store * Completion :=
  match c with
  | CallAll => (R, (poll R None s).1, (poll R None s).2)
  | CallSelector sel => (R, (poll R (Some sel) s).1, (poll R (Some sel) s).2)
  | CallBehavior sel i third fourth =>
      let '(e, options) :=
        match third with
        | Some (ArgOptions o) => (None, Some o)
        | Some (ArgExit f) => (Some f, fourth)
        | None => (None, fourth)
        end in
      let '(be, b) := new_Behavior sel i e options (bid R) in
      let R1 := mkRegistry (behaviors R ++ [be]) (handlers R) (selectors R) b in
      ((register sel be R1).1, s, (register sel be R1).2)
  end.

(** ** The attachment check against the tree *)

(** [ascend d k el]: the element found [k] parent links above [el]. *)
Fixpoint ascend (d : DOM) (k : nat) (el : Node) : option Node :=
  match k with
  | 0 => Some el
  | S k' => parentElement d !! el ≫= ascend d k'
  end.

(** Ascending the parent links of [el] arrives at the root element. *)
Definition reaches_root (d : DOM) (el : Node) : Prop :=
  ∃ k, ascend d k el = Some (documentElement d).

(** The elements passed in the first [k] steps of an ascent. *)
Fixpoint path (d : DOM) (k : nat) (el : Node) : list Node :=
  match k with
  | 0 => []
  | S k' => el :: match parentElement d !! el with
                  | Some p => path d k' p
                  | None => []
                  end
  end.

(** The exit eligibility of the specification: under [detectMutate] the
    element is absent from the queried list [L], otherwise its ancestors do
    not lead to the root element. *)
Definition exit_eligible (be : Behavior) (L : list Node) (d : DOM) (el : Node) : Prop :=
  if detectMutate be then el ∉ L else ¬ reaches_root d el.

(** ** Callbacks that stay out of the engine *)

(** A callback is tame when all it does to the store is to change the tree:
    it leaves the state tags, the [loaded] arrays, the counter and the log
    alone, so it does not call back into the engine.  What it returns may
    depend on everything it is given. *)
Definition tame_init (f : InitFn) : Prop :=
  ∀ el o s, ∃ d, (f el o s).1 = set_document d s.
Definition tame_exit (f : ExitFn) : Prop :=
  ∀ el st s, ∃ d, (f el st s).1 = set_document d s.

Definition tame (be : Behavior) : Prop :=
  tame_init (init be) ∧ ∀ f, exit be = Some f → tame_exit f.

(** A callback is quiet when it hands back the store it was given: it is
    tame and leaves the tree alone as well. *)
Definition quiet_init (f : InitFn) : Prop := ∀ el o s, (f el o s).1 = s.
Definition quiet_exit (f : ExitFn) : Prop := ∀ el st s, (f el st s).1 = s.

Definition quiet (be : Behavior) : Prop :=
  quiet_init (init be) ∧ ∀ f, exit be = Some f → quiet_exit f.

(** ** Reading the log *)

Definition event_key (e : Event) : nat :=
  match e with EvInit k _ _ _ | EvExit k _ _ _ => k end.

(** The invocations made on behalf of the behavior with key [k]. *)
Definition events_of (k : nat) (l : list Event) : list Event :=
  List.filter (fun e => bool_decide (event_key e = k)) l.

Definition is_init_of (k : nat) (el : Node) (e : Event) : bool :=
  match e with
  | EvInit k' el' _ _ => bool_decide (k' = k ∧ el' = el)
  | EvExit _ _ _ _ => false
  end.

Definition is_exit_of (k : nat) (el : Node) (e : Event) : bool :=
  match e with
  | EvInit _ _ _ _ => false
  | EvExit k' el' _ _ => bool_decide (k' = k ∧ el' = el)
  end.

(** How often the enter (exit) action of the behavior with key [k] was
    invoked on [el]. *)
Definition init_calls (k : nat) (el : Node) (l : list Event) : nat :=
  length (List.filter (is_init_of k el) l).

Definition exit_calls (k : nat) (el : Node) (l : list Event) : nat :=
  length (List.filter (is_exit_of k el) l).

(** The exit invocations of a log, in order: behavior key and element. *)
Definition exit_trace (l : list Event) : list (nat * Node) :=
  omap (fun e => match e with
                 | EvExit k el _ _ => Some (k, el)
                 | EvInit _ _ _ _ => None
                 end) l.

(** The correlation ids handed to the enter actions, in order of
    invocation: of all invocations, and of those that did not return
    [false]. *)
Definition init_ids (l : list Event) : list nat :=
  omap (fun e => match e with
                 | EvInit _ _ o _ => Some (tag_id o)
                 | EvExit _ _ _ _ => None
                 end) l.

Definition entered_ids (l : list Event) : list nat :=
  omap (fun e => match e with
                 | EvInit _ _ o RetOther => Some (tag_id o)
                 | _ => None
                 end) l.

(** ** Registries as registration builds them *)

(** The poll closures in [handlers] belong to behaviors of [behaviors],
    [selectors] indexes [handlers] by selector string, no two behaviors
    share a key, and the keys are at most [bid]. *)
Record registry_wf (R : Registry) : Prop := mk_registry_wf {
  wf_handlers : ∀ be, be ∈ handlers R → be ∈ behaviors R;
  wf_selectors : ∀ sel,
    default [] (selectors R !! sel) =
    List.filter (fun be => bool_decide (selector be = sel)) (handlers R);
  wf_keys : NoDup (key <$> behaviors R);
  wf_bid : ∀ be, be ∈ behaviors R → key be ≤ bid R
}.

(** A selector string under which a registration goes through. *)
Definition registrable (sel : string) : bool :=
  bool_decide (Object_prototype !! sel = None).

(** The registry of a run, exactly: [handlers] holds the poll closures of
    the behaviors whose registration went through, in order; [selectors]
    has an own property for a string when a closure is registered under it,
    and it holds these closures, in order; the keys grow along
    [behaviors]; the key of a behavior is built from the number after the
    one in its id. *)
Record registry_exact (R : Registry) : Prop := mk_registry_exact {
  ex_handlers :
    handlers R = List.filter (fun be => registrable (selector be)) (behaviors R);
  ex_selectors : ∀ sel,
    selectors R !! sel =
    match List.filter (fun be => bool_decide (selector be = sel)) (handlers R) with
    | [] => None
    | fs => Some fs
    end;
  ex_sorted : StronglySorted lt (key <$> behaviors R);
  ex_keys : ∀ be, be ∈ behaviors R → key be = S (be_id be) ∧ key be ≤ bid R
}.

(** ** Live entries *)

(** The elements of a [loaded] array that are not tombstones, with their
    positions, counted from [i]. *)
Fixpoint live_from (i : nat) (l : list (option Node)) : list (Node * nat) :=
  match l with
  | [] => []
  | Some el :: l' => (el, i) :: live_from (S i) l'
  | None :: l' => live_from (S i) l'
  end.

Definition live_of (s : Store) (be : Behavior) : list (Behavior * (Node * nat)) :=
  pair be <$> live_from 0 (loaded_of (key be) s).

(** The live entries of all behaviors, in registration order. *)
Definition live_entries (R : Registry) (s : Store) : list (Behavior * (Node * nat)) :=
  concat (live_of s <$> behaviors R).

Definition exit_entry (s : Store) (e : Behavior * (Node * nat)) : Store :=
  doExit e.1 e.2.1 (Some e.2.2) s.

(** ** Runs of the engine *)

(** What happens to the engine from outside: a call of [onmount], of
    [onmount.teardown] or of [onmount.reset], a batch of mutations
    delivered to the observer callback, and a change of the tree. *)
Inductive Action :=
| ACall (c : Call)
| ATeardown
| AReset
| AObserved (ms : list MutationRecord)
| ATree (d : DOM).

(** The state an action leaves behind; that of a call that raises is the
    state at the exception. *)
Definition step (w : Registry * Store) (a : Action) : Registry * Store :=
  match a with
  | ACall c => (onmount c w.1 w.2).1
  | ATeardown => (w.1, teardown w.1 w.2)
  | AReset => (reset w.1, w.2)
  | AObserved ms => (w.1, (observer_callback w.1 ms w.2).1)
  | ATree d => (w.1, set_document d w.2)
  end.

Definition run (l : list Action) (w : Registry * Store) : Registry * Store :=
  foldl step w l.

(** The state of the module once loaded: empty registry, counters at 0. *)
Definition initial (d : DOM) : Registry * Store :=
  (mkRegistry [] [] ∅ 0, mkStore d ∅ ∅ 0 []).

(** The callbacks handed over by a call or an action are tame. *)
Definition tame_call (c : Call) : Prop :=
  match c with
  | CallBehavior _ i third _ =>
      tame_init i ∧
      match third with Some (ArgExit f) => tame_exit f | _ => True end
  | _ => True
  end.

Definition tame_action (a : Action) : Prop :=
  match a with ACall c => tame_call c | _ => True end.

(** ** The correlation ids of a store *)

(** What the counter [cid] guarantees as long as no callback re-enters the
    engine: the ids of the enter invocations that did not return [false]
    are below [cid] and strictly increasing, the ids of all enter
    invocations are at most [cid] and do not decrease, and the state tags
    carry ids below [cid], no two tags the same. *)
Record ids_ok (s : Store) : Prop := mk_ids_ok {
  ok_entered_lt : Forall (fun i => i < cid s) (entered_ids (log s));
  ok_init_le : Forall (fun i => i ≤ cid s) (init_ids (log s));
  ok_entered_sorted : StronglySorted lt (entered_ids (log s));
  ok_init_sorted : StronglySorted le (init_ids (log s));
  ok_tag_lt : ∀ p t, props s !! p = Some t → tag_id t < cid s;
  ok_tag_inj : ∀ p1 p2 t1 t2,
    props s !! p1 = Some t1 → props s !! p2 = Some t2 →
    tag_id t1 = tag_id t2 → p1 = p2
}.

(** The registry is well formed, its callbacks are tame and the ids of
    the store are in order. *)
Definition world_ok (w : Registry * Store) : Prop :=
  registry_wf w.1 ∧ (∀ b, b ∈ behaviors w.1 → tame b) ∧ ids_ok w.2.

(** ** One element under one behavior *)

(** What the store says about the element [n] under the behavior with key
    [k]: the tree, the state tag of [n], and how often the enter and the
    exit action were invoked on [n]. *)
Definition view (k : nat) (n : Node) (s : Store) : DOM * option Tag * nat * nat :=
  (document s, prop n k s, init_calls k n (log s), exit_calls k n (log s)).

(** Slot [j] of the [loaded] array under key [k] holds [n]. *)
Definition live (k : nat) (n : Node) (j : nat) (s : Store) : Prop :=
  loaded_of k s !! j = Some (Some n).

(** ** Invariants of the loops *)

(** The tree is [d] and [el] carries no tag of [be]. *)
Definition untouched (be : Behavior) (el : Node) (d : DOM) (s : Store) : Prop :=
  document s = d ∧ prop el (key be) s = None.

(** The exit action of [be] was called on [el] with no state. *)
Definition exited (be : Behavior) (el : Node) (s : Store) : Prop :=
  ∃ r, EvExit (key be) el None r ∈ log s.

(** Nothing of the behavior with key [k] differs from [s0]: its [loaded]
    array, its tags, the invocations of its actions. *)
Definition framed (k : nat) (s0 s : Store) : Prop :=
  loaded_of k s = loaded_of k s0 ∧
  (∀ el, prop el k s = prop el k s0) ∧
  events_of k (log s) = events_of k (log s0).

(** ** A small document for the examples *)

Module Sample.
(** Elements [1], [2] and [3] below the root [0]; [1] and [2] carry the
    class [x], [3] the class [y]. *)
Definition has_class (el : Node) (sel : string) : bool :=
  bool_decide (sel = ".x" ∧ (el = 1 ∨ el = 2) ∨ sel = ".y" ∧ el = 3).

Definition tree : DOM :=
  mkDOM 0 {[1 := 0; 2 := 0; 3 := 0]} [0; 1; 2; 3] has_class.

(** The same elements after [1] was removed from its parent. *)
Definition tree_without_1 : DOM :=
  mkDOM 0 {[2 := 0; 3 := 0]} [0; 1; 2; 3] has_class.

(** The same tree after the class [x] was taken off [1]. *)
Definition tree_1_unclassed : DOM :=
  mkDOM 0 {[1 := 0; 2 := 0; 3 := 0]} [0; 1; 2; 3]
    (fun el sel => bool_decide (sel = ".x" ∧ el = 2 ∨ sel = ".y" ∧ el = 3)).

Definition store0 : Store := mkStore tree ∅ ∅ 0 [].
Definition registry0 : Registry := mkRegistry [] [] ∅ 0.

Definition enter : InitFn := fun _ _ s => (s, RetOther).
Definition enter_veto : InitFn := fun _ _ s => (s, RetFalse).
Definition leave : ExitFn := fun _ _ s => (s, RetOther).

(** [onmount ('.x', enter)], [onmount ('.x', enter, leave)] and
    [onmount ('.x', enter, leave, { detectMutate: true })]. *)
Definition reg_x_noexit : Registry :=
  (onmount (CallBehavior ".x" enter None None) registry0 store0).1.1.
Definition reg_x : Registry :=
  (onmount (CallBehavior ".x" enter (Some (ArgExit leave)) None) registry0 store0).1.1.
Definition reg_x_mutate : Registry :=
  (onmount (CallBehavior ".x" enter (Some (ArgExit leave))
     (Some (mkRegOptions true))) registry0 store0).1.1.

Definition be_x : Behavior := mkBehavior 0 enter (Some leave) ".x" 1 false.

(** The behavior of [reg_x_mutate]. *)
Definition be_x_mutate : Behavior := mkBehavior 0 enter (Some leave) ".x" 1 true.

(** [onmount ('.x', enter_veto)], then [onmount ()]. *)
Definition veto_run : list Action :=
  [ACall (CallBehavior ".x" enter_veto None None); ACall CallAll].

(** [onmount ('.x', enter, leave)], then [onmount ()]. *)
Definition plain_run : list Action :=
  [ACall (CallBehavior ".x" enter (Some (ArgExit leave)) None); ACall CallAll].

(** The same, then [1] is removed from the tree and [onmount ()] runs
    again. *)
Definition exit_run : list Action :=
  plain_run ++ [ATree tree_without_1; ACall CallAll].

(** A component that mounts its children: [onmount ('.y', enter, leave)]
    is registered first, and the enter action of ['.x'] calls
    [onmount ('.y')]. *)
Definition reg_y : Registry :=
  (onmount (CallBehavior ".y" enter (Some (ArgExit leave)) None) registry0 store0).1.1.
Definition enter_nested : InitFn :=
  fun _ _ s => ((onmount (CallSelector ".y") reg_y s).1.2, RetOther).
Definition reg_nested : Registry :=
  (onmount (CallBehavior ".x" enter_nested None None) reg_y store0).1.1.

(** [onmount ('.x', enter, leave)] and then [onmount ('.y', enter, leave)]. *)
Definition reg_xy : Registry :=
  (onmount (CallBehavior ".y" enter (Some (ArgExit leave)) None) reg_x store0).1.1.
Definition be_y : Behavior := mkBehavior 1 enter (Some leave) ".y" 2 false.

(** The behavior of [onmount ('.x', enter_veto)]. *)
Definition be_veto : Behavior := mkBehavior 0 enter_veto None ".x" 1 false.

(** An enter action that polls its own selector the first time it is
    called: [var polled = false] and
    [function () { if (!polled) { polled = true; onmount ('.x') } }].
    The poll it makes runs the behavior with [polled] set, where the action
    does nothing more than [enter]: that behavior is the one of
    [reg_x_noexit], with the same id, key and selector. *)
Definition enter_repoll : InitFn :=
  fun _ _ s => ((onmount (CallSelector ".x") reg_x_noexit s).1.2, RetOther).
Definition reg_repoll : Registry :=
  (onmount (CallBehavior ".x" enter_repoll None None) registry0 store0).1.1.
End Sample.

(** ** Further invariants of the store *)

(** No state tag and no [loaded] array lives under a key above [bid]: the
    keys handed out so far are all there is. *)
Definition keys_bounded (R : Registry) (s : Store) : Prop :=
  (∀ el k t, props s !! (el, k) = Some t → k ≤ bid R) ∧
  (∀ k l, loaded s !! k = Some l → k ≤ bid R).

(** An element holds at most one slot of a [loaded] array, and an element
    that holds a slot carries the state tag of that key. *)
Definition live_once (s : Store) : Prop :=
  (∀ k n i j, live k n i s → live k n j s → i = j) ∧
  (∀ k n j, live k n j s → is_Some (prop n k s)).

(** Every state tag is the token of an enter invocation that did not return
    [false], and every state handed to an exit action is the token of such
    an invocation made earlier on the same element under the same key. *)
Definition tokens_traced (s : Store) : Prop :=
  (∀ el k t, prop el k s = Some t → EvInit k el t RetOther ∈ log s) ∧
  (∀ l1 l2 k el t r, log s = l1 ++ EvExit k el (Some t) r :: l2 →
     EvInit k el t RetOther ∈ l1).

(** Every element that holds a slot of [loaded] under the key of [be] is
    one the exit pass of a poll over the tree of [s] leaves alone. *)
Definition settled (be : Behavior) (s s' : Store) : Prop :=
  document s' = document s ∧
  ∀ j el, live (key be) el j s' →
    ¬ exit_eligible be (query (document s) (selector be)) (document s) el.

(** ** Observation *)

(** The [MutationObserver] objects as far as [onmount] deals with them.  An
    object is identified by the number of objects created before it;
    [connected] lists the objects that are observing the document,
    [observer] is the property [onmount.observer]. *)
Record Observers := mkObservers {
  connected : list nat;
  observer : option nat;
  created : nat
}.

(** [onmount.observe]; the first argument says whether
    [onmount.MutationObserver] is defined.  The result is [true], or
    [false] for [undefined]. *)
Definition observe (MutationObserver : bool) (R : Registry) (o : Observers)
  (s : Store) : Observers * Store * bool :=
  if MutationObserver then
    let obs := created o in
    (mkObservers (connected o ++ [obs]) (Some obs) (S (created o)),
     (onmount CallAll R s).1.2, true)
  else (o, s, false).

(** [onmount.unobserve]: [disconnect] takes the object out of the
    observing ones. *)
Definition unobserve (o : Observers) : Observers :=
  match observer o with
  | None => o
  | Some obs =>
      mkObservers (List.filter (fun x => negb (x =? obs)) (connected o)) None
        (created o)
  end.

(** A batch of mutation records is handed to the callback of every
    observing object; an exception of one callback does not keep the
    platform from calling the next. *)
Definition deliver (R : Registry) (ms : list MutationRecord) (o : Observers)
  (s : Store) : Store :=
  each (connected o) (fun _ _ s' => (observer_callback R ms s').1) s.

Inductive ObserverOp :=
| OObserve
| OUnobserve
| ODeliver (ms : list MutationRecord).

Definition observer_step (R : Registry) (w : Observers * Store) (op : ObserverOp)
  : Observers * Store :=
  match op with
  | OObserve => (observe true R w.1 w.2).1
  | OUnobserve => (unobserve w.1, w.2)
  | ODeliver ms => (w.1, deliver R ms w.1 w.2)
  end.

(** The objects that observe were all created, none is listed twice, and
    the one in [onmount.observer] observes. *)
Definition observers_wf (o : Observers) : Prop :=
  Forall (fun x => x < created o) (connected o) ∧
  NoDup (connected o) ∧
  ∀ obs, observer o = Some obs → obs ∈ connected o.

(** ** The life of an element in the log *)

(** Whether [el] is entered for the behavior with key [k] after the
    invocations of a log: an enter invocation that does not return [false]
    enters it, an exit invocation that does not return [false] ends that. *)
Definition entered_step (k : nat) (el : Node) (b : bool) (e : Event) : bool :=
  match e with
  | EvInit k' el' _ RetOther => if decide ((k', el') = (k, el)) then true else b
  | EvExit k' el' _ RetOther => if decide ((k', el') = (k, el)) then false else b
  | _ => b
  end.

Definition entered_now (k : nat) (el : Node) (l : list Event) : bool :=
  foldl (entered_step k el) false l.

(** The state tags say what the log says, and no enter action was invoked
    on an element that was entered at the time. *)
Definition enters_in_turn (s : Store) : Prop :=
  (∀ k el, is_Some (prop el k s) ↔ entered_now k el (log s) = true) ∧
  (∀ l1 l2 k el t r, log s = l1 ++ EvInit k el t r :: l2 →
     entered_now k el l1 = false).

Definition is_exit_event (k : nat) (e : Event) : Prop :=
  match e with EvExit k' _ _ _ => k' = k | EvInit _ _ _ _ => False end.

Definition is_init_event (k : nat) (e : Event) : Prop :=
  match e with EvInit k' _ _ _ => k' = k | EvExit _ _ _ _ => False end.

(** An exit invocation that was handed a state. *)
Definition exit_has_state (e : Event) : Prop :=
  match e with EvExit _ _ st _ => is_Some st | EvInit _ _ _ _ => True end.

Definition not_observed (a : Action) : Prop :=
  match a with AObserved _ => False | _ => True end.

(** After a [reset] at [bid = b]: the registered behaviors have keys above
    [b], and the invocations for the key [k] are the ones of [s0]. *)
Definition dropped_silent (b k : nat) (s0 : Store) (R : Registry) (s : Store) : Prop :=
  b ≤ bid R ∧
  (∀ be, be ∈ behaviors R → b < key be) ∧
  events_of k (log s) = events_of k (log s0).

(** The id handed to an enter invocation is the number of enter
    invocations before it that did not return [false], and [cid] is the
    number of such invocations so far. *)
Definition ids_counted (s : Store) : Prop :=
  cid s = length (entered_ids (log s)) ∧
  ∀ l1 l2 k el t r, log s = l1 ++ EvInit k el t r :: l2 →
    tag_id t = length (entered_ids l1).

(** * Properties *)

Section Ascent.
Variable d : DOM.

Lemma ascend_add a b el :
  ascend d (a + b) el = ascend d a el ≫= ascend d b.
Proof.
  revert el. induction a as [|a IH]; intros el; simpl; [done|].
  destruct (parentElement d !! el) as [p|]; simpl; [apply IH|done].
Qed.

Lemma path_lookup k el i x :
  path d k el !! i = Some x → i < k ∧ ascend d i el = Some x.
Proof.
  revert el i. induction k as [|k IH]; intros el i; simpl; [done|].
  destruct i as [|i]; simpl.
  - intros [= ->]. split; [lia|done].
  - destruct (parentElement d !! el) as [p|]; simpl; [|done].
    intros H. apply IH in H as [? ?]. split; [lia|done].
Qed.

Lemma path_length k el r :
  ascend d k el = Some r → length (path d k el) = k.
Proof.
  revert el. induction k as [|k IH]; intros el; simpl; [done|].
  destruct (parentElement d !! el) as [p|]; simpl; [|done].
  intros H. f_equal. by apply IH.
Qed.

Lemma path_has_parent k el r x :
  ascend d k el = Some r → x ∈ path d k el → is_Some (parentElement d !! x).
Proof.
  revert el. induction k as [|k IH]; intros el; simpl.
  - intros _ H. by apply elem_of_nil in H.
  - destruct (parentElement d !! el) as [p|] eqn:Hp; simpl; [|done].
    intros Hk [->|Hx]%elem_of_cons; [by eexists|]. by eapply IH.
Qed.

Lemma repeated_index (l : list Node) :
  NoDup l ∨ ∃ i j x, i < j ∧ l !! i = Some x ∧ l !! j = Some x.
Proof.
  induction l as [|a l IH]; [left; constructor|].
  destruct (decide (a ∈ l)) as [Hin|Hin].
  - right. apply list_elem_of_lookup in Hin as [j Hj].
    exists 0, (S j), a. split; [lia|done].
  - destruct IH as [IH|(i & j & x & ? & ? & ?)].
    + left. by constructor.
    + right. exists (S i), (S j), x. split; [lia|done].
Qed.

Lemma NoDup_path_bound (l : list Node) :
  NoDup l → (∀ x, x ∈ l → is_Some (parentElement d !! x)) →
  length l ≤ size (parentElement d).
Proof.
  intros Hnd Hin.
  rewrite <- size_dom.
  change (size (dom (parentElement d))) with
    (length (elements (dom (parentElement d)))).
  apply submseteq_length, NoDup_submseteq; [done|].
  intros x Hx. apply elem_of_elements, elem_of_dom. by apply Hin.
Qed.

(** An ascent that arrives somewhere arrives there within
    [size (parentElement d)] steps: a longer one passes twice through the
    same element and can be cut short. *)
Lemma ascend_short k el r :
  ascend d k el = Some r →
  ∃ k', k' ≤ size (parentElement d) ∧ ascend d k' el = Some r.
Proof.
  revert el. induction k as [k IH] using lt_wf_ind. intros el Hk.
  destruct (decide (k ≤ size (parentElement d))) as [?|Hbig]; [eauto|].
  destruct (repeated_index (path d k el)) as [Hnd|(i & j & x & Hij & Hi & Hj)].
  - apply NoDup_path_bound in Hnd.
    + rewrite (path_length _ _ _ Hk) in Hnd. lia.
    + intros x Hx. by eapply path_has_parent.
  - apply path_lookup in Hi as [_ Hi]. apply path_lookup in Hj as [Hjk Hj].
    apply (IH (i + (k - j))); [lia|].
    rewrite ascend_add, Hi, <- Hj, <- ascend_add.
    by replace (j + (k - j)) with k by lia.
Qed.

Lemma isAttached_loop_sound fuel el :
  isAttached_loop d fuel el = true →
  ∃ e k, el = Some e ∧ ascend d k e = Some (documentElement d).
Proof.
  revert el. induction fuel as [|fuel IH]; intros [e|]; simpl; try done.
  case_decide as He.
  - intros _. exists e, 0. by subst.
  - intros H. apply IH in H as (p & k & Hp & Hk).
    exists e, (S k). split; [done|]. simpl. by rewrite Hp.
Qed.

Lemma isAttached_loop_complete k fuel el :
  ascend d k el = Some (documentElement d) → k < fuel →
  isAttached_loop d fuel (Some el) = true.
Proof.
  revert fuel el. induction k as [|k IH]; intros [|fuel] el; simpl; try lia.
  - intros [= ->] _. by rewrite decide_True.
  - intros Hk Hlt. case_decide; [done|].
    destruct (parentElement d !! el) as [p|]; simpl in *; [|done].
    apply IH; [done|lia].
Qed.

(** [isAttached] decides [reaches_root]. *)
Lemma isAttached_reaches el :
  isAttached d el = true ↔ reaches_root d el.
Proof.
  unfold isAttached, reaches_root. split.
  - intros H. apply isAttached_loop_sound in H as (e & k & [= <-] & Hk). eauto.
  - intros [k Hk]. apply ascend_short in Hk as (k' & Hle & Hk').
    eapply isAttached_loop_complete; [done|lia].
Qed.

Lemma isAttached_false el :
  isAttached d el = false ↔ ¬ reaches_root d el.
Proof.
  rewrite <- isAttached_reaches. by destruct (isAttached d el).
Qed.

Lemma has_true (l : list Node) el : has l el = true ↔ el ∈ l.
Proof. unfold has. apply bool_decide_eq_true. Qed.

Lemma has_false (l : list Node) el : has l el = false ↔ el ∉ l.
Proof. unfold has. apply bool_decide_eq_false. Qed.

Lemma elem_of_query sel el :
  el ∈ query d sel ↔ el ∈ nodes d ∧ reaches_root d el ∧ matches d el sel = true.
Proof.
  unfold query. rewrite list_elem_of_In, filter_In, <- list_elem_of_In.
  rewrite andb_true_iff, isAttached_reaches. tauto.
Qed.

Lemma NoDup_query sel : NoDup (nodes d) → NoDup (query d sel).
Proof.
  unfold query. rewrite !NoDup_ListNoDup. apply List.NoDup_filter.
Qed.
End Ascent.

(** ** Exit processing *)

Lemma loaded_of_set_loaded k k' l s :
  loaded_of k' (set_loaded k l s) = if decide (k = k') then l else loaded_of k' s.
Proof.
  unfold loaded_of, set_loaded. simpl. rewrite lookup_insert.
  by case_decide.
Qed.

Lemma array_set_lookup {A} (l : list (option A)) i v :
  array_set l i v !! i = Some v.
Proof.
  unfold array_set. case_decide as Hi.
  - by apply list_lookup_insert_eq.
  - rewrite lookup_app_r by lia.
    rewrite lookup_app_r; rewrite length_replicate; [|lia].
    by replace (i - length l - (i - length l)) with 0 by lia.
Qed.

Lemma array_set_read_ne {A} (l : list (option A)) i j v :
  i ≠ j → default None (array_set l i v !! j) = default None (l !! j).
Proof.
  intros Hij. unfold array_set. case_decide as Hi.
  - by rewrite list_lookup_insert_ne.
  - destruct (decide (j < length l)) as [Hj|Hj]; [by rewrite lookup_app_l|].
    rewrite (lookup_ge_None_2 l j) by lia. rewrite lookup_app_r by lia.
    destruct (decide (j - length l < i - length l)) as [Hr|Hr].
    + rewrite lookup_app_l by (by rewrite length_replicate).
      by rewrite lookup_replicate_2.
    + rewrite lookup_app_r by (rewrite length_replicate; lia).
      rewrite length_replicate.
      destruct (j - length l - (i - length l)) as [|n] eqn:E; [lia|done].
Qed.

Lemma array_set_live {A} (l : list (option A)) i j x :
  array_set l i None !! j = Some (Some x) → i ≠ j ∧ l !! j = Some (Some x).
Proof.
  intros H. assert (i ≠ j) as Hij.
  { intros ->. by rewrite array_set_lookup in H. }
  split; [done|].
  pose proof (array_set_read_ne l i j None Hij) as Hr. rewrite H in Hr. simpl in Hr.
  destruct (l !! j) as [[y|]|] eqn:E; simpl in Hr; congruence.
Qed.

Lemma prop_tombstone el k k' i s : prop el k (tombstone k' i s) = prop el k s.
Proof. by destruct i. Qed.

Lemma loaded_of_tombstone k i s :
  loaded_of k (tombstone k (Some i) s) = array_set (loaded_of k s) i None.
Proof. simpl. rewrite loaded_of_set_loaded. by rewrite decide_True. Qed.

(** Without an exit action [doExit] stops after the tombstone: the state tag
    stays on the element. *)
Lemma doExit_no_exit be el i s :
  exit be = None →
  prop el (key be) (doExit be el i s) = prop el (key be) s.
Proof.
  intros He. unfold doExit. rewrite He. apply prop_tombstone.
Qed.

(** With an exit action that does not return [false] the tag is gone,
    whatever the action did to the store. *)
Lemma doExit_clears_tag be f el i s :
  exit be = Some f →
  (∀ st s', (f el st s').2 = RetOther) →
  prop el (key be) (doExit be el i s) = None.
Proof.
  intros He Hr. unfold doExit. rewrite He.
  destruct (f el _ _) as [s2 r] eqn:Hf.
  specialize (Hr (prop el (key be)
    (tombstone (key be)
       match i with Some i0 => Some i0 | None => indexOf (loaded_of (key be) s) el end s))
    (tombstone (key be)
       match i with Some i0 => Some i0 | None => indexOf (loaded_of (key be) s) el end s)).
  rewrite Hf in Hr. simpl in Hr. subst r.
  unfold prop, delete_prop. simpl. apply lookup_delete_eq.
Qed.

(** C1, at a behavior registered as [onmount ('.x', enter)]: elements [1]
    and [2] are entered by a first poll; [1] is then removed from the tree
    and a second poll runs exit processing for it (its slot becomes a
    tombstone).  The state tag of [1] is still there afterwards, and once
    [1] is back in the tree a third poll does not enter it again. *)
Theorem doExit_without_exit_action_keeps_tag :
  let R := Sample.reg_x_noexit in
  let s1 := (poll R None Sample.store0).1 in
  let s2 := (poll R None (set_document Sample.tree_without_1 s1)).1 in
  let s3 := (poll R None (set_document Sample.tree s2)).1 in
  exit <$> behaviors R = [None] ∧
  prop 1 1 s1 = Some (mkTag 0 ".x") ∧
  loaded_of 1 s1 = [Some 1; Some 2] ∧
  loaded_of 1 s2 = [None; Some 2] ∧
  prop 1 1 s2 = Some (mkTag 0 ".x") ∧
  query (document (set_document Sample.tree s2)) ".x" = [1; 2] ∧
  s3 = set_document Sample.tree s2.
Proof. vm_compute. repeat split. Qed.

(** C3: in [doExit] the slot [i] of [be.loaded] is a tombstone in the store
    the exit action is called on, whatever that action is (it may poll
    again): the action, and everything it runs, starts from the store
    [tombstone (key be) (Some i) s], in which slot [i] reads as [undefined]
    and, when [el] occupied no other slot, [el] is not in the list. *)
Theorem doExit_tombstone_before_exit be f el i s :
  exit be = Some f →
  let s1 := tombstone (key be) (Some i) s in
  loaded_of (key be) s1 !! i = Some None ∧
  loaded_at (key be) i s1 = None ∧
  ((∀ j, loaded_of (key be) s !! j = Some (Some el) → j = i) →
   Some el ∉ loaded_of (key be) s1) ∧
  doExit be el (Some i) s =
    (let '(s2, r) := f el (prop el (key be) s) s1 in
     let s3 := record (EvExit (key be) el (prop el (key be) s) r) s2 in
     match r with
     | RetFalse => s3
     | RetOther => delete_prop el (key be) s3
     end).
Proof.
  intros He s1. subst s1.
  assert (loaded_of (key be) (tombstone (key be) (Some i) s) !! i = Some None) as Hi.
  { rewrite loaded_of_tombstone. apply array_set_lookup. }
  split_and!.
  - done.
  - unfold loaded_at. by rewrite Hi.
  - intros Hone Hin. apply list_elem_of_lookup in Hin as [j Hj].
    rewrite loaded_of_tombstone in Hj.
    apply array_set_live in Hj as [Hij Hj]. by apply Hone in Hj.
  - unfold doExit. rewrite He. by rewrite prop_tombstone.
Qed.

(** Exit processing of the entered element [1] of the sample behavior. *)
Lemma doExit_tombstone_before_exit_witness :
  (Some 1 ∉ loaded_of 1 (tombstone 1 (Some 0) (poll Sample.reg_x None Sample.store0).1)) ∧
  log (doExit Sample.be_x 1 (Some 0) (poll Sample.reg_x None Sample.store0).1) =
    (log (poll Sample.reg_x None Sample.store0).1 ++
     [EvExit 1 1 (Some (mkTag 0 ".x")) RetOther]).
Proof.
  pose proof (doExit_tombstone_before_exit Sample.be_x Sample.leave 1 0
    (poll Sample.reg_x None Sample.store0).1 eq_refl) as (_ & _ & Hout & Heq).
  split.
  - apply Hout. intros j. vm_compute.
    destruct j as [|[|[|j]]]; simpl; congruence.
  - rewrite Heq. vm_compute. reflexivity.
Defined.

(** ** Exit eligibility *)

(** [visitExit] on a live entry [el] runs [doExit] exactly when [el] is
    eligible in the sense of the specification, and leaves the store as it
    is otherwise.  In particular, for an element that is still attached but
    is not in the queried list, [doExit] runs under [detectMutate] and does
    not run without it. *)
Lemma visitExit_dispatch be el i L s :
  (exit_eligible be L (document s) el →
   visitExit be (Some el) i L s = doExit be el (Some i) s) ∧
  (¬ exit_eligible be L (document s) el →
   visitExit be (Some el) i L s = s) ∧
  (reaches_root (document s) el → el ∉ L →
   visitExit be (Some el) i L s =
     if detectMutate be then doExit be el (Some i) s else s).
Proof.
  unfold exit_eligible, visitExit. destruct (detectMutate be).
  - destruct (has L el) eqn:Hh; simpl.
    + apply has_true in Hh. split_and!; intros; done.
    + apply has_false in Hh. split_and!; intros; done.
  - destruct (isAttached (document s) el) eqn:Ha; simpl.
    + apply isAttached_reaches in Ha. split_and!; intros; done.
    + apply isAttached_false in Ha. split_and!; intros; done.
Qed.

(** The scenario of the specification: [1] and [2] are entered, then the
    class is taken off [1] while it stays in the tree.  With [detectMutate]
    the next poll exits [1]; without it nothing happens. *)
Example detectMutate_scenario :
  let s_m := (poll Sample.reg_x_mutate None Sample.store0).1 in
  let s_a := (poll Sample.reg_x None Sample.store0).1 in
  isAttached Sample.tree_1_unclassed 1 = true ∧
  query Sample.tree_1_unclassed ".x" = [2] ∧
  log (poll Sample.reg_x_mutate None (set_document Sample.tree_1_unclassed s_m)).1 =
    (log s_m ++ [EvExit 1 1 (Some (mkTag 0 ".x")) RetOther]) ∧
  (poll Sample.reg_x None (set_document Sample.tree_1_unclassed s_a)).1 =
    set_document Sample.tree_1_unclassed s_a.
Proof. vm_compute. repeat split. Qed.

(** ** Loops *)

Lemma each_from_app {A} (l1 l2 : list A) fn i s :
  each_from i (l1 ++ l2) fn s = each_from (i + length l1) l2 fn (each_from i l1 fn s).
Proof.
  revert i s. induction l1 as [|x l1 IH]; intros i s; simpl.
  - by rewrite Nat.add_0_r.
  - rewrite IH. by replace (S i + length l1) with (i + S (length l1)) by lia.
Qed.

(** A property kept by every round of a loop is kept by the loop. *)
Lemma each_from_inv {A} (P : Store → Prop) (l : list A) fn i s :
  (∀ x j s', x ∈ l → P s' → P (fn x j s')) → P s → P (each_from i l fn s).
Proof.
  revert i s. induction l as [|x l IH]; intros i s Hstep Hs; simpl; [done|].
  apply IH.
  - intros y j s' Hy. apply Hstep. by right.
  - apply Hstep; [by left|done].
Qed.

Lemma each_inv {A} (P : Store → Prop) (l : list A) fn s :
  (∀ x j s', x ∈ l → P s' → P (fn x j s')) → P s → P (each l fn s).
Proof. apply each_from_inv. Qed.

Lemma each_loaded_loop_inv (P : Store → Prop) k fn i n s :
  (∀ j s', P s' → P (fn (loaded_at k j s') j s')) →
  P s → P (each_loaded_loop k fn i n s).
Proof.
  revert i s. induction n as [|n IH]; intros i s Hstep Hs; simpl; [done|].
  apply IH; [done|]. by apply Hstep.
Qed.

Lemma each_loaded_inv (P : Store → Prop) k fn s :
  (∀ j s', P s' → P (fn (loaded_at k j s') j s')) →
  P s → P (each_loaded k fn s).
Proof. apply each_loaded_loop_inv. Qed.

(** The same for a loop that an exception can leave: the property holds of
    the store at the exception as well. *)
Lemma each_try_from_inv {A} (P : Store → Prop) (l : list A) fn i s :
  (∀ x j s', x ∈ l → P s' → P (fn x j s').1) → P s → P (each_try_from i l fn s).1.
Proof.
  revert i s. induction l as [|x l IH]; intros i s Hstep Hs; simpl; [done|].
  assert (P (fn x i s).1) as Hx by (apply Hstep; [by left|done]).
  destruct (fn x i s) as [s1 [|]]; simpl in *; [|done].
  apply IH; [|done]. intros y j s' Hy. apply Hstep. by right.
Qed.

Lemma each_try_inv {A} (P : Store → Prop) (l : list A) fn s :
  (∀ x j s', x ∈ l → P s' → P (fn x j s').1) → P s → P (each_try l fn s).1.
Proof. apply each_try_from_inv. Qed.

(** When no round raises, the loop is the plain one and returns. *)
Lemma each_try_from_normal {A} (l : list A) fn i s :
  (∀ x j s', x ∈ l → (fn x j s').2 = Normal) →
  each_try_from i l fn s = (each_from i l (fun x j s' => (fn x j s').1) s, Normal).
Proof.
  revert i s. induction l as [|x l IH]; intros i s Hn; simpl; [done|].
  pose proof (Hn x i s (list_elem_of_here _ _)) as Hx.
  destruct (fn x i s) as [s1 c]; simpl in *. subst c.
  apply IH. intros y j s' Hy. apply Hn. by right.
Qed.

(** A round that raises ends the loop with the store it leaves. *)
Lemma each_try_from_raise {A} (l1 l2 : list A) x fn i s :
  (∀ y j s', y ∈ l1 → (fn y j s').2 = Normal) →
  (∀ j s', (fn x j s').2 = TypeError) →
  each_try_from i (l1 ++ x :: l2) fn s =
    ((fn x (i + length l1)
        (each_from i l1 (fun y j s' => (fn y j s').1) s)).1, TypeError).
Proof.
  revert i s. induction l1 as [|y l1 IH]; intros i s Hn Hx; simpl.
  - rewrite Nat.add_0_r. pose proof (Hx i s) as Hr.
    destruct (fn x i s) as [s1 c]; simpl in *. by subst c.
  - pose proof (Hn y i s (list_elem_of_here _ _)) as Hy.
    destruct (fn y i s) as [s1 c]; simpl in *. subst c.
    rewrite IH; [|intros z j s' Hz; apply Hn; by right|done].
    by replace (S i + length l1) with (i + S (length l1)) by lia.
Qed.

(** ** The engine under tame and quiet callbacks *)

Lemma quiet_tame be : quiet be → tame be.
Proof.
  intros [Hi He]. split.
  - intros el o s. exists (document s). rewrite Hi. by destruct s.
  - intros f Hf el st s. exists (document s). rewrite (He f Hf). by destruct s.
Qed.

#[local] Hint Extern 0 (tame _) => apply quiet_tame; assumption : core.

Lemma visitEnter_tame be el s :
  tame be →
  ∃ d, visitEnter be el s =
    match prop el (key be) s with
    | Some _ => s
    | None =>
        let options := mkTag (cid s) (selector be) in
        let r := (init be el options s).2 in
        let s2 := record (EvInit (key be) el options r) (set_document d s) in
        match r with
        | RetFalse => s2
        | RetOther => incr_cid (push_loaded (key be) el (set_prop el (key be) options s2))
        end
    end.
Proof.
  intros [Ht _]. unfold visitEnter.
  destruct (prop el (key be) s); [by exists (document s)|].
  destruct (Ht el (mkTag (cid s) (selector be)) s) as [d Hd]. exists d.
  destruct (init be el _ s) as [s1 r]. simpl in *. by subst s1.
Qed.

Lemma doExit_tame be el i s :
  tame be →
  ∃ d, doExit be el i s =
    let i := match i with
             | Some i => Some i
             | None => indexOf (loaded_of (key be) s) el
             end in
    let s1 := tombstone (key be) i s in
    match exit be with
    | None => s1
    | Some f =>
        let state := prop el (key be) s in
        let r := (f el state s1).2 in
        let s3 := record (EvExit (key be) el state r) (set_document d s1) in
        match r with
        | RetFalse => s3
        | RetOther => delete_prop el (key be) s3
        end
    end.
Proof.
  intros [_ Ht]. unfold doExit.
  destruct (exit be) as [f|]; [|by exists (document s)].
  rewrite prop_tombstone. simpl.
  match goal with |- context [f el ?st ?s1] =>
    destruct (Ht f eq_refl el st s1) as [d Hd]; exists d;
    destruct (f el st s1) as [s2 r] end.
  simpl in *. by subst s2.
Qed.

Lemma visitEnter_quiet be el s :
  quiet be →
  visitEnter be el s =
    match prop el (key be) s with
    | Some _ => s
    | None =>
        let options := mkTag (cid s) (selector be) in
        let r := (init be el options s).2 in
        let s2 := record (EvInit (key be) el options r) s in
        match r with
        | RetFalse => s2
        | RetOther => incr_cid (push_loaded (key be) el (set_prop el (key be) options s2))
        end
    end.
Proof.
  intros [Hq _]. unfold visitEnter. destruct (prop el (key be) s); [done|].
  specialize (Hq el (mkTag (cid s) (selector be)) s).
  destruct (init be el _ s) as [s1 r]. simpl in *. by subst s1.
Qed.

Lemma doExit_quiet be el i s :
  quiet be →
  doExit be el i s =
    let i := match i with
             | Some i => Some i
             | None => indexOf (loaded_of (key be) s) el
             end in
    let s1 := tombstone (key be) i s in
    match exit be with
    | None => s1
    | Some f =>
        let state := prop el (key be) s in
        let r := (f el state s1).2 in
        let s3 := record (EvExit (key be) el state r) s1 in
        match r with
        | RetFalse => s3
        | RetOther => delete_prop el (key be) s3
        end
    end.
Proof.
  intros [_ Hq]. unfold doExit. destruct (exit be) as [f|]; [|done].
  rewrite prop_tombstone. simpl.
  match goal with |- context [f el ?st ?s1] =>
    specialize (Hq f eq_refl el st s1); destruct (f el st s1) as [s2 r] end.
  simpl in *. by subst s2.
Qed.

Lemma document_visitEnter be el s :
  quiet be → document (visitEnter be el s) = document s.
Proof.
  intros Hq. rewrite visitEnter_quiet by done.
  destruct (prop el (key be) s); [done|]. cbv zeta.
  by destruct (init be el _ s).2.
Qed.

Lemma document_tombstone k i s : document (tombstone k i s) = document s.
Proof. by destruct i. Qed.

Lemma document_doExit be el i s :
  quiet be → document (doExit be el i s) = document s.
Proof.
  intros Hq. rewrite doExit_quiet by done. cbv zeta.
  destruct (exit be) as [f|]; [|apply document_tombstone].
  destruct (f el _ _).2; simpl; apply document_tombstone.
Qed.

Lemma log_tombstone k i s : log (tombstone k i s) = log s.
Proof. by destruct i. Qed.

Lemma props_tombstone k i s : props (tombstone k i s) = props s.
Proof. by destruct i. Qed.

Lemma log_visitEnter be el s :
  tame be →
  log (visitEnter be el s) =
    log s ++ match prop el (key be) s with
             | Some _ => []
             | None => [EvInit (key be) el (mkTag (cid s) (selector be))
                          (init be el (mkTag (cid s) (selector be)) s).2]
             end.
Proof.
  intros Ht. destruct (visitEnter_tame be el s Ht) as [d ->].
  destruct (prop el (key be) s); [by rewrite app_nil_r|]. cbv zeta.
  by destruct (init be el _ s).2.
Qed.

Lemma log_doExit be el i s :
  tame be →
  ∃ s1, log (doExit be el i s) =
    log s ++ match exit be with
             | None => []
             | Some f => [EvExit (key be) el (prop el (key be) s)
                            (f el (prop el (key be) s) s1).2]
             end.
Proof.
  intros Ht. destruct (doExit_tame be el i s Ht) as [d ->]. cbv zeta.
  exists (tombstone (key be)
    match i with Some i0 => Some i0 | None => indexOf (loaded_of (key be) s) el end s).
  destruct (exit be) as [f|]; simpl; [|by rewrite log_tombstone, app_nil_r].
  destruct (f el _ _).2; simpl; by rewrite log_tombstone.
Qed.

Lemma log_keeps_visitEnter be el s e :
  tame be → e ∈ log s → e ∈ log (visitEnter be el s).
Proof.
  intros Ht He. rewrite log_visitEnter by done. apply elem_of_app. by left.
Qed.

Lemma log_keeps_doExit be el i s e :
  tame be → e ∈ log s → e ∈ log (doExit be el i s).
Proof.
  intros Ht He. destruct (log_doExit be el i s Ht) as [s1 ->].
  apply elem_of_app. by left.
Qed.

Lemma prop_visitEnter_ne be el s el' k' :
  tame be → (el', k') ≠ (el, key be) →
  prop el' k' (visitEnter be el s) = prop el' k' s.
Proof.
  intros Ht Hne. destruct (visitEnter_tame be el s Ht) as [d ->].
  destruct (prop el (key be) s); [done|]. cbv zeta.
  destruct (init be el _ s).2; [done|].
  unfold prop. simpl. by rewrite lookup_insert_ne.
Qed.

Lemma props_doExit be el i s :
  tame be →
  props (doExit be el i s) = props s ∨
  props (doExit be el i s) = delete (el, key be) (props s).
Proof.
  intros Ht. destruct (doExit_tame be el i s Ht) as [d ->]. cbv zeta.
  destruct (exit be) as [f|]; [|left; apply props_tombstone].
  destruct (f el _ _).2; simpl; rewrite props_tombstone; auto.
Qed.

Lemma prop_doExit_None be el i s el' k' :
  tame be → prop el' k' s = None → prop el' k' (doExit be el i s) = None.
Proof.
  intros Ht Hn. unfold prop in *.
  destruct (props_doExit be el i s Ht) as [-> | ->]; [done|].
  by apply lookup_delete_None; right.
Qed.

Lemma prop_doExit_ne be el i s el' k' :
  tame be → (el', k') ≠ (el, key be) →
  prop el' k' (doExit be el i s) = prop el' k' s.
Proof.
  intros Ht Hne. unfold prop.
  destruct (props_doExit be el i s Ht) as [-> | ->]; [done|].
  by rewrite lookup_delete_ne.
Qed.

(** ** The observer callback *)

Lemma on_added_normal b x s : x ≠ OtherNode → (on_added b x s).2 = Normal.
Proof. by destruct x. Qed.

Lemma on_removed_normal b x s : x ≠ OtherNode → (on_removed b x s).2 = Normal.
Proof. by destruct x. Qed.

(** A property kept by the visits is kept by the callback, whether it
    returns or raises. *)
Lemma on_mutation_inv (P : Store → Prop) b m s :
  (∀ x s', P s' → P (on_added b x s').1) →
  (∀ x s', P s' → P (on_removed b x s').1) →
  P s → P (on_mutation b m s).1.
Proof.
  intros Ha Hr Hs. unfold on_mutation.
  assert (P (each_try (addedNodes m) (λ el _, on_added b el) s).1) as H1.
  { apply each_try_inv; [|done]. intros; by apply Ha. }
  destruct (each_try (addedNodes m) _ s) as [s1 [|]]; simpl in *; [|done].
  apply each_try_inv; [|done]. intros; by apply Hr.
Qed.

Lemma observer_callback_inv (P : Store → Prop) R ms s :
  (∀ b el s', b ∈ behaviors R → P s' → P (visitEnter b el s')) →
  (∀ b el s', b ∈ behaviors R → P s' → P (doExit b el None s')) →
  P s → P (observer_callback R ms s).1.
Proof.
  intros He Hx Hs. unfold observer_callback. apply each_try_inv; [|done].
  intros b j s' Hb Hs'. apply each_try_inv; [|done].
  intros m j' s'' _ Hs''. apply on_mutation_inv; [| |done].
  - intros [x|] s3 Hs3; simpl; [|done]. case_match; [|done]. by apply He.
  - intros [x|] s3 Hs3; simpl; [|done]. case_match; [|done]. by apply Hx.
Qed.

(** On records that report elements only the callback returns, and its
    loops are plain ones. *)
Lemma on_mutation_elements b m s :
  elements_only m →
  on_mutation b m s =
    (each (removedNodes m) (λ x _ s', (on_removed b x s').1)
       (each (addedNodes m) (λ x _ s', (on_added b x s').1) s), Normal).
Proof.
  intros [Ha Hr]. unfold on_mutation, each_try.
  rewrite each_try_from_normal.
  - apply each_try_from_normal.
    intros x j s' Hx. apply on_removed_normal. by intros ->.
  - intros x j s' Hx. apply on_added_normal. by intros ->.
Qed.

Lemma observer_callback_elements R ms s :
  Forall elements_only ms →
  observer_callback R ms s =
    (each (behaviors R) (λ b _,
       each ms (λ m _ s', (on_mutation b m s').1)) s, Normal).
Proof.
  intros Hms. unfold observer_callback, each_try.
  assert (∀ b s', each_try_from 0 ms (λ m _, on_mutation b m) s' =
            (each ms (λ m _ s'', (on_mutation b m s'').1) s', Normal)) as Hin.
  { intros b s'. apply each_try_from_normal. intros m j s'' Hm.
    rewrite on_mutation_elements; [done|]. by eapply Forall_forall in Hms. }
  rewrite each_try_from_normal.
  - f_equal. unfold each. generalize 0 at 1 3. revert s.
    induction (behaviors R) as [|b bs IH]; intros s i; simpl; [done|].
    by rewrite Hin, IH.
  - intros b j s' _. by rewrite Hin.
Qed.

Section Observer.
Variables (be : Behavior) (el : Node) (d : DOM).

Local Abbreviation untouched := (untouched be el d).
Local Abbreviation exited := (exited be el).

Lemma untouched_on_added b x s :
  quiet b → x ≠ ElementNode el → untouched s → untouched (on_added b x s).1.
Proof.
  intros Hq Hx [Hd Hp]. destruct x as [x|]; simpl; [|done].
  case_match; [|done]. split.
  - by rewrite document_visitEnter.
  - rewrite prop_visitEnter_ne; [done|done|congruence].
Qed.

Lemma untouched_on_removed b x s :
  quiet b → untouched s → untouched (on_removed b x s).1.
Proof.
  intros Hq [Hd Hp]. destruct x as [x|]; simpl; [|done].
  case_match; [|done]. split.
  - by rewrite document_doExit.
  - by apply prop_doExit_None.
Qed.

Lemma exited_on_added b x s : quiet b → exited s → exited (on_added b x s).1.
Proof.
  intros Hq [r Hr]. destruct x as [x|]; simpl; [|by exists r].
  case_match; [|by exists r].
  exists r. by apply log_keeps_visitEnter.
Qed.

Lemma exited_on_removed b x s : quiet b → exited s → exited (on_removed b x s).1.
Proof.
  intros Hq [r Hr]. destruct x as [x|]; simpl; [|by exists r].
  case_match; [|by exists r].
  exists r. by apply log_keeps_doExit.
Qed.

Lemma untouched_on_mutation b m s :
  quiet b → ElementNode el ∉ addedNodes m →
  untouched s → untouched (on_mutation b m s).1.
Proof.
  intros Hq Hadd Hs. unfold on_mutation.
  assert (untouched (each_try (addedNodes m) (λ x _, on_added b x) s).1) as H1.
  { apply each_try_inv; [|done].
    intros x j s' Hx. apply untouched_on_added; [done|]. by intros ->. }
  destruct (each_try (addedNodes m) _ s) as [s1 [|]]; simpl in *; [|done].
  apply each_try_inv; [|done]. intros; by apply untouched_on_removed.
Qed.

Lemma exited_on_mutation b m s :
  quiet b → exited s → exited (on_mutation b m s).1.
Proof.
  intros Hq Hs. apply on_mutation_inv; [| |done].
  - intros; by apply exited_on_added.
  - intros; by apply exited_on_removed.
Qed.

Lemma exited_here f m s :
  quiet be → exit be = Some f →
  elements_only m →
  ElementNode el ∈ removedNodes m → ElementNode el ∉ addedNodes m →
  matches d el (selector be) = true →
  untouched s → exited (on_mutation be m s).1.
Proof.
  intros Hq He Hel Hrem Hadd Hm Hs. rewrite on_mutation_elements by done. simpl.
  apply list_elem_of_split in Hrem as (r1 & r2 & ->).
  unfold each. rewrite each_from_app. simpl.
  apply (each_from_inv exited); [intros; by apply exited_on_removed|].
  set (s1 := each_from 0 r1 _ _).
  assert (untouched s1) as [Hd Hp].
  { apply (each_from_inv untouched); [intros; by apply untouched_on_removed|].
    apply (each_from_inv untouched); [|done].
    intros x j s' Hx. apply untouched_on_added; [done|]. by intros ->. }
  clearbody s1. unfold exited. rewrite Hd, Hm.
  destruct (log_doExit be el None s1 (quiet_tame _ Hq)) as [s2 Hlog].
  rewrite He, Hp in Hlog. eexists. rewrite Hlog.
  apply elem_of_app. right. by left.
Qed.
End Observer.

Ltac mem_solve :=
  first [ assumption | rewrite ?elem_of_app, ?elem_of_cons; tauto ].


(** ** Teardown *)

Lemma loaded_of_doExit be el i s k :
  tame be →
  loaded_of k (doExit be el (Some i) s) =
    if decide (key be = k) then array_set (loaded_of k s) i None else loaded_of k s.
Proof.
  intros Hq. destruct (doExit_tame be el (Some i) s Hq) as [d ->]. cbv zeta.
  assert (loaded_of k (tombstone (key be) (Some i) s) =
          if decide (key be = k) then array_set (loaded_of k s) i None
          else loaded_of k s) as Ht.
  { simpl. rewrite loaded_of_set_loaded. by case_decide; subst. }
  destruct (exit be) as [f|]; [|done].
  by destruct (f el _ _).2.
Qed.

Lemma loaded_of_exit_entries be k s (es : list (Node * nat)) :
  tame be → key be ≠ k →
  loaded_of k (foldl exit_entry s (pair be <$> es)) = loaded_of k s.
Proof.
  intros Hq Hk. revert s. induction es as [|[el i] es IH]; intros s; simpl; [done|].
  rewrite IH. unfold exit_entry. simpl.
  rewrite loaded_of_doExit by done. by rewrite decide_False.
Qed.

Lemma live_from_drop_step i (l : list (option Node)) x :
  l !! i = Some x →
  live_from i (drop i l) =
    match x with
    | Some el => (el, i) :: live_from (S i) (drop (S i) l)
    | None => live_from (S i) (drop (S i) l)
    end.
Proof.
  intros Hx. rewrite (drop_S l x i Hx). by destruct x.
Qed.

(** The loop of [teardown] over one behavior runs [doExit] on the live
    entries the array had when the loop began, in order. *)
Lemma each_loaded_loop_exit be i n s :
  tame be →
  i + n = length (loaded_of (key be) s) →
  each_loaded_loop (key be)
    (fun el j => match el with
                 | Some el => doExit be el (Some j)
                 | None => fun s => s
                 end) i n s =
  foldl exit_entry s (pair be <$> live_from i (drop i (loaded_of (key be) s))).
Proof.
  intros Hq. revert i s. induction n as [|n IH]; intros i s Hlen; simpl.
  - rewrite drop_ge by lia. done.
  - destruct (lookup_lt_is_Some_2 (loaded_of (key be) s) i) as [x Hx]; [lia|].
    rewrite (live_from_drop_step _ _ _ Hx).
    unfold loaded_at. rewrite Hx. simpl. destruct x as [el|].
    + rewrite IH.
      * rewrite loaded_of_doExit, decide_True by done.
        unfold array_set. rewrite decide_True by lia.
        rewrite drop_insert_lt by lia. done.
      * rewrite loaded_of_doExit, decide_True by done.
        unfold array_set. rewrite decide_True by lia.
        rewrite length_insert. lia.
    + apply IH. lia.
Qed.

Lemma each_loaded_exit be s :
  tame be →
  each_loaded (key be)
    (fun el j => match el with
                 | Some el => doExit be el (Some j)
                 | None => fun s => s
                 end) s =
  foldl exit_entry s (live_of s be).
Proof.
  intros Hq. unfold each_loaded, live_of. by rewrite each_loaded_loop_exit.
Qed.

Lemma teardown_from bs i s :
  NoDup (key <$> bs) → (∀ b, b ∈ bs → tame b) →
  each_from i bs (fun be _ =>
    each_loaded (key be) (fun el j =>
      match el with
      | Some el => doExit be el (Some j)
      | None => fun s => s
      end)) s =
  foldl exit_entry s (concat (live_of s <$> bs)).
Proof.
  revert i s. induction bs as [|be bs IH]; intros i s Hnd Hq; simpl; [done|].
  rewrite fmap_cons in Hnd. apply NoDup_cons in Hnd as [Hbe Hnd].
  rewrite foldl_app, each_loaded_exit by (apply Hq; by left).
  rewrite IH; [|done|intros b Hb; apply Hq; by right].
  f_equal. f_equal. apply list_fmap_ext. intros j b Hb.
  unfold live_of at 1 3. f_equal. f_equal.
  apply loaded_of_exit_entries; [apply Hq; by left|].
  intros Heq. apply Hbe. rewrite Heq.
  apply list_elem_of_fmap_2, list_elem_of_lookup. eauto.
Qed.

Lemma exit_trace_app l1 l2 : exit_trace (l1 ++ l2) = exit_trace l1 ++ exit_trace l2.
Proof. apply omap_app. Qed.

Lemma exit_trace_entries (es : list (Behavior * (Node * nat))) s :
  (∀ e, e ∈ es → tame e.1) →
  exit_trace (log (foldl exit_entry s es)) =
  exit_trace (log s) ++
  omap (fun e : Behavior * (Node * nat) =>
          match exit e.1 with
          | Some _ => Some (key e.1, e.2.1)
          | None => None
          end) es.
Proof.
  revert s. induction es as [|[be [el i]] es IH]; intros s Hq; simpl.
  - by rewrite app_nil_r.
  - rewrite IH by (intros e He; apply Hq; by right).
    unfold exit_entry. simpl.
    destruct (log_doExit be el (Some i) s) as [s1 ->]; [apply (Hq (be, (el, i))); by left|].
    rewrite exit_trace_app, <- app_assoc. f_equal.
    by destruct (exit be).
Qed.

Lemma live_entries_tame R s e :
  (∀ b, b ∈ behaviors R → tame b) → e ∈ live_entries R s → tame e.1.
Proof.
  intros Hq He. unfold live_entries in He.
  apply list_elem_of_In, in_concat in He as (l & Hl & He).
  apply list_elem_of_In in Hl, He.
  apply list_elem_of_fmap in Hl as (b & -> & Hb).
  unfold live_of in He. apply list_elem_of_fmap in He as (x & -> & _).
  by apply Hq.
Qed.

(** C8: [teardown] is the sequence of [doExit] calls on the live entries of
    the behaviors, in the order of registration and then of position, each
    entry once and tombstones left out; which entries these are is read off
    the [loaded] arrays alone, not off the tree.  The exit actions are
    invoked accordingly, one call per live entry of a behavior that has an
    exit action. *)
Theorem teardown_exits_live_entries R s :
  NoDup (key <$> behaviors R) →
  (∀ b, b ∈ behaviors R → tame b) →
  teardown R s = foldl exit_entry s (live_entries R s) ∧
  (∀ d, live_entries R (set_document d s) = live_entries R s) ∧
  exit_trace (log (teardown R s)) =
    exit_trace (log s) ++
    omap (fun e : Behavior * (Node * nat) =>
            match exit e.1 with
            | Some _ => Some (key e.1, e.2.1)
            | None => None
            end) (live_entries R s).
Proof.
  intros Hnd Hq.
  assert (teardown R s = foldl exit_entry s (live_entries R s)) as Heq.
  { unfold teardown, each, live_entries. by apply teardown_from. }
  split_and!; [done|done|].
  rewrite Heq. apply exit_trace_entries.
  intros e He. by eapply live_entries_tame.
Qed.

(** ** Registries *)

Lemma wf_initial b : registry_wf (mkRegistry [] [] ∅ b).
Proof.
  split; simpl; [done| |constructor|].
  - intros sel. by rewrite lookup_empty.
  - intros be H. by apply elem_of_nil in H.
Qed.

Lemma wf_reset R : registry_wf (reset R).
Proof. apply wf_initial. Qed.

(** [register] either raises and leaves the registry as it is, or appends
    the closure to [handlers] and to the array of its selector. *)
Lemma register_cases sel fn R :
  (register sel fn R = (R, TypeError) ∧
   selectors R !! sel = None ∧ is_Some (Object_prototype !! sel)) ∨
  (register sel fn R =
     (mkRegistry (behaviors R) (handlers R ++ [fn])
        (<[sel := default [] (selectors R !! sel) ++ [fn]]> (selectors R)) (bid R),
      Normal) ∧
   (is_Some (selectors R !! sel) ∨ Object_prototype !! sel = None)).
Proof.
  unfold register, selectors_at.
  destruct (selectors R !! sel) as [fs|] eqn:Hs; simpl.
  - right. split; [done|]. left. by eexists.
  - destruct (Object_prototype !! sel) as [p|] eqn:Hp; simpl.
    + left. split_and!; [done|done|by eexists].
    + right. split; [done|]. by right.
Qed.

(** What a registration does to the registry. *)
Lemma onmount_register sel i third fourth R s :
  ∃ be,
    be = (new_Behavior sel i
            match third with Some (ArgExit f) => Some f | _ => None end
            match third with Some (ArgOptions o) => Some o | _ => fourth end
            (bid R)).1 ∧
    let R1 := mkRegistry (behaviors R ++ [be]) (handlers R) (selectors R) (S (bid R)) in
    onmount (CallBehavior sel i third fourth) R s =
      ((register sel be R1).1, s, (register sel be R1).2).
Proof.
  eexists. split; [reflexivity|]. simpl. by destruct third as [[f|o]|].
Qed.

(** What a call does to the store. *)
Lemma onmount_store c R s :
  (onmount c R s).1.2 =
    match c with
    | CallAll => (poll R None s).1
    | CallSelector sel => (poll R (Some sel) s).1
    | CallBehavior _ _ _ _ => s
    end.
Proof.
  destruct c as [| |sel i third fourth]; [done..|].
  by destruct (onmount_register sel i third fourth R s) as (be & _ & ->).
Qed.

(** A registration appends the behavior to [behaviors] and advances
    [bid], whether [register] raises or not. *)
Lemma onmount_behaviors sel i third fourth R s :
  ∃ be,
    behaviors (onmount (CallBehavior sel i third fourth) R s).1.1 =
      behaviors R ++ [be] ∧
    bid (onmount (CallBehavior sel i third fourth) R s).1.1 = S (bid R) ∧
    key be = S (bid R) ∧ be_id be = bid R ∧ selector be = sel ∧ init be = i.
Proof.
  destruct (onmount_register sel i third fourth R s) as (be & Hbe & ->).
  exists be. simpl.
  destruct (register_cases sel be
    (mkRegistry (behaviors R ++ [be]) (handlers R) (selectors R) (S (bid R))))
    as [(-> & _)|(-> & _)]; simpl; by subst be.
Qed.

Lemma wf_onmount c R s : registry_wf R → registry_wf (onmount c R s).1.1.
Proof.
  intros Hwf. destruct c as [| |sel i third fourth]; [done..|].
  destruct Hwf as [Hh Hs Hk Hb].
  destruct (onmount_register sel i third fourth R s) as (be & Hbe & ->). simpl.
  assert (key be = S (bid R)) as Hkey by (by subst be).
  assert (selector be = sel) as Hsel by (by subst be).
  clear Hbe.
  assert (NoDup (key <$> behaviors R ++ [be])) as Hk'.
  { rewrite fmap_app. simpl. apply NoDup_app. split_and!; [done| |apply NoDup_singleton].
    intros k Hin Hk'. apply list_elem_of_singleton in Hk'. subst k.
    apply list_elem_of_fmap in Hin as (b & Hkb & Hin). apply Hb in Hin. lia. }
  assert (∀ b, b ∈ behaviors R ++ [be] → key b ≤ S (bid R)) as Hb'.
  { intros b [Hin|Hin]%elem_of_app.
    - apply Hb in Hin. lia.
    - apply list_elem_of_singleton in Hin. subst b. lia. }
  destruct (register_cases sel be
    (mkRegistry (behaviors R ++ [be]) (handlers R) (selectors R) (S (bid R))))
    as [(-> & _)|(-> & _)]; simpl.
  - split; simpl; [|done..].
    intros b Hin. apply elem_of_app. left. by apply Hh.
  - split; simpl; [| |done..].
    + intros b [Hin|Hin]%elem_of_app; apply elem_of_app; [left; by apply Hh|by right].
    + intros sel'. rewrite List.filter_app. simpl.
      rewrite lookup_insert. case_decide as Heq.
      * subst sel'. simpl. rewrite Hs. by rewrite bool_decide_eq_true_2.
      * rewrite Hs. rewrite bool_decide_eq_false_2 by congruence. by rewrite app_nil_r.
Qed.

Lemma tame_onmount c R s :
  tame_call c →
  (∀ b, b ∈ behaviors R → tame b) →
  ∀ b, b ∈ behaviors (onmount c R s).1.1 → tame b.
Proof.
  intros Hc Hq. destruct c as [| |sel i third fourth]; [done..|].
  destruct Hc as [Hi He].
  destruct (onmount_register sel i third fourth R s) as (be & Hbe & ->). simpl.
  assert (tame be) as Hbt.
  { subst be. destruct third as [[f|o]|]; (split; simpl; [done|]); try done.
    by intros f' [= <-]. }
  clear Hbe.
  destruct (register_cases sel be
    (mkRegistry (behaviors R ++ [be]) (handlers R) (selectors R) (S (bid R))))
    as [(-> & _)|(-> & _)]; simpl;
    intros b [Hin|Hin]%elem_of_app; try (by apply Hq);
    apply list_elem_of_singleton in Hin; by subst b.
Qed.

(** ** Polling one selector *)

Lemma events_of_app k l1 l2 : events_of k (l1 ++ l2) = events_of k l1 ++ events_of k l2.
Proof. apply List.filter_app. Qed.

Lemma loaded_of_tombstone_ne k k' i s :
  k ≠ k' → loaded_of k' (tombstone k i s) = loaded_of k' s.
Proof.
  intros Hk. destruct i as [i|]; simpl; [|done].
  rewrite loaded_of_set_loaded. by rewrite decide_False.
Qed.

Lemma loaded_of_visitEnter_ne be el s k :
  tame be → key be ≠ k → loaded_of k (visitEnter be el s) = loaded_of k s.
Proof.
  intros Hq Hk. destruct (visitEnter_tame be el s Hq) as [d ->].
  destruct (prop el (key be) s); [done|]. cbv zeta.
  destruct (init be el _ s).2; [done|].
  unfold incr_cid, push_loaded, loaded_of. simpl. by rewrite lookup_insert_ne.
Qed.

Lemma loaded_of_doExit_ne be el i s k :
  tame be → key be ≠ k → loaded_of k (doExit be el i s) = loaded_of k s.
Proof.
  intros Hq Hk. destruct (doExit_tame be el i s Hq) as [d ->]. cbv zeta.
  destruct (exit be) as [f|]; [|by apply loaded_of_tombstone_ne].
  destruct (f el _ _).2; simpl;
    (etrans; [|by apply (loaded_of_tombstone_ne (key be))]); done.
Qed.

Section Frame.
Variables (k : nat) (s0 : Store).

Local Abbreviation framed := (framed k s0).

Lemma framed_visitEnter be el s :
  tame be → key be ≠ k → framed s → framed (visitEnter be el s).
Proof.
  intros Hq Hk (Hl & Hp & He). split_and!.
  - by rewrite loaded_of_visitEnter_ne.
  - intros el'. rewrite prop_visitEnter_ne; [done|done|congruence].
  - rewrite log_visitEnter, events_of_app by done. rewrite He.
    destruct (prop el (key be) s); simpl; [by rewrite app_nil_r|].
    rewrite bool_decide_eq_false_2 by done. by rewrite app_nil_r.
Qed.

Lemma framed_doExit be el i s :
  tame be → key be ≠ k → framed s → framed (doExit be el i s).
Proof.
  intros Hq Hk (Hl & Hp & He). split_and!.
  - by rewrite loaded_of_doExit_ne.
  - intros el'. rewrite prop_doExit_ne; [done|done|congruence].
  - destruct (log_doExit be el i s Hq) as [s1 ->].
    rewrite events_of_app, He.
    destruct (exit be); simpl; [|by rewrite app_nil_r].
    rewrite bool_decide_eq_false_2 by done. by rewrite app_nil_r.
Qed.

Lemma framed_visitExit be x i L s :
  tame be → key be ≠ k → framed s → framed (visitExit be x i L s).
Proof.
  intros Hq Hk Hs. unfold visitExit.
  repeat case_match; try done; by apply framed_doExit.
Qed.

Lemma framed_poll_closure be s :
  tame be → key be ≠ k → framed s → framed (poll_closure be s).
Proof.
  intros Hq Hk Hs. unfold poll_closure, eachOf.
  apply each_inv; [intros; by apply framed_visitEnter|].
  apply each_loaded_inv; [|done]. intros; by apply framed_visitExit.
Qed.
End Frame.

Lemma key_ne_of_selector R be b :
  NoDup (key <$> behaviors R) →
  be ∈ behaviors R → b ∈ behaviors R → selector b ≠ selector be → key b ≠ key be.
Proof.
  intros Hnd Hbe Hb Hsel Hk.
  apply list_elem_of_lookup in Hbe as [i Hi]. apply list_elem_of_lookup in Hb as [j Hj].
  assert (i = j) as ->.
  { eapply NoDup_lookup; [done| |].
    - rewrite list_lookup_fmap, Hi. done.
    - rewrite list_lookup_fmap, Hj. simpl. by rewrite Hk. }
  congruence.
Qed.

(** C9 as amended: with callbacks that do not call back into the engine,
    [onmount.poll (selector)] for a selector string other than the empty
    one runs the poll closures registered under exactly that string, in
    registration order; every behavior registered under another selector
    keeps its [loaded] array and its state tags and has none of its actions
    invoked; when no behavior is registered under the string the store is
    left as it is; and the call returns when the string names no property
    that [selectors] inherits.  The empty string is falsy: polling it is
    polling without a selector, which runs every poll closure. *)
Theorem poll_selector_isolated R sel s :
  registry_wf R →
  (∀ b, b ∈ behaviors R → tame b) →
  (sel ≠ "" →
   (poll R (Some sel) s).1 =
     each (List.filter (fun be => bool_decide (selector be = sel)) (handlers R))
       (fun fn _ => poll_closure fn) s ∧
   (∀ be, be ∈ behaviors R → selector be ≠ sel →
      loaded_of (key be) (poll R (Some sel) s).1 = loaded_of (key be) s ∧
      (∀ el, prop el (key be) (poll R (Some sel) s).1 = prop el (key be) s) ∧
      events_of (key be) (log (poll R (Some sel) s).1) = events_of (key be) (log s)) ∧
   ((∀ be, be ∈ behaviors R → selector be ≠ sel) → (poll R (Some sel) s).1 = s) ∧
   (Object_prototype !! sel = None → (poll R (Some sel) s).2 = Normal)) ∧
  poll R (Some "") s = poll R None s ∧
  poll R None s = (each (handlers R) (fun fn _ => poll_closure fn) s, Normal).
Proof.
  intros Hwf Hq. split; [|done]. intros Hsel.
  assert ((poll R (Some sel) s).1 =
    each (List.filter (fun be => bool_decide (selector be = sel)) (handlers R))
      (fun fn _ => poll_closure fn) s) as Heq.
  { unfold poll, selectors_at. rewrite decide_False by done.
    rewrite <- (wf_selectors R Hwf).
    destruct (selectors R !! sel) as [fs|]; simpl; [done|].
    destruct (Object_prototype !! sel) as [[[|n]|]|]; done. }
  split_and!.
  - done.
  - intros be Hbe Hne. rewrite Heq.
    apply (each_inv (framed (key be) s)); [|done].
    intros b j s' Hb Hs'.
    apply list_elem_of_In, filter_In in Hb as [Hb Hb'].
    apply list_elem_of_In in Hb. apply bool_decide_eq_true in Hb'.
    apply (wf_handlers R Hwf) in Hb.
    apply framed_poll_closure; [by apply Hq| |done].
    eapply key_ne_of_selector; [apply Hwf|done|done|congruence].
  - intros Hnone. rewrite Heq.
    replace (List.filter _ (handlers R)) with (@nil Behavior); [done|].
    symmetry. pose proof (wf_handlers R Hwf) as Hh. clear Heq Hq Hwf. revert Hh.
    induction (handlers R) as [|b bs IH]; intros Hh; simpl; [done|].
    rewrite bool_decide_eq_false_2 by (apply Hnone, Hh; by left).
    apply IH. intros be Hbe. apply Hh. by right.
  - intros Hown. unfold poll, selectors_at. rewrite decide_False by done.
    rewrite Hown. by destruct (selectors R !! sel).
Qed.

(** ** Correlation ids *)

Lemma StronglySorted_snoc {A} (R : relation A) l x :
  StronglySorted R l → Forall (fun y => R y x) l → StronglySorted R (l ++ [x]).
Proof.
  intros Hl Hx. apply StronglySorted_app_2; [|done|repeat constructor].
  intros x1 x2 H1 H2. apply list_elem_of_singleton in H2. subst x2.
  by eapply Forall_forall in Hx.
Qed.

Lemma cid_tombstone k i s : cid (tombstone k i s) = cid s.
Proof. by destruct i. Qed.

Lemma cid_doExit be el i s : tame be → cid (doExit be el i s) = cid s.
Proof.
  intros Hq. destruct (doExit_tame be el i s Hq) as [d ->]. cbv zeta.
  destruct (exit be) as [f|]; [|apply cid_tombstone].
  destruct (f el _ _).2; simpl; apply cid_tombstone.
Qed.

Lemma ids_ok_doExit be el i s : tame be → ids_ok s → ids_ok (doExit be el i s).
Proof.
  intros Hq [H1 H2 H3 H4 H5 H6].
  destruct (log_doExit be el i s Hq) as [s1 Hlog].
  assert (entered_ids (log (doExit be el i s)) = entered_ids (log s)) as He.
  { rewrite Hlog. unfold entered_ids. rewrite omap_app.
    destruct (exit be); simpl; by rewrite app_nil_r. }
  assert (init_ids (log (doExit be el i s)) = init_ids (log s)) as Hi.
  { rewrite Hlog. unfold init_ids. rewrite omap_app.
    destruct (exit be); simpl; by rewrite app_nil_r. }
  assert (∀ p t, props (doExit be el i s) !! p = Some t → props s !! p = Some t) as Hp.
  { intros p t. destruct (props_doExit be el i s Hq) as [-> | ->]; [done|].
    by intros [_ ?]%lookup_delete_Some. }
  split; rewrite ?He, ?Hi, ?cid_doExit by done; eauto.
Qed.

Lemma ids_ok_visitEnter be el s : tame be → ids_ok s → ids_ok (visitEnter be el s).
Proof.
  intros Hq [H1 H2 H3 H4 H5 H6]. destruct (visitEnter_tame be el s Hq) as [d ->].
  destruct (prop el (key be) s) eqn:Hp; [done|]. cbv zeta.
  destruct (init be el _ s).2.
  - split; simpl; try done.
    + unfold entered_ids. rewrite omap_app. simpl. by rewrite app_nil_r.
    + unfold init_ids. rewrite omap_app. simpl.
      apply Forall_app. split; [done|]. by repeat constructor.
    + unfold entered_ids. rewrite omap_app. simpl. by rewrite app_nil_r.
    + unfold init_ids. rewrite omap_app. simpl.
      by apply StronglySorted_snoc.
  - split; simpl.
    + unfold entered_ids. rewrite omap_app. simpl.
      apply Forall_app. split; [|repeat constructor; lia].
      eapply Forall_impl; [done|]. simpl. lia.
    + unfold init_ids. rewrite omap_app. simpl.
      apply Forall_app. split; [|repeat constructor; lia].
      eapply Forall_impl; [done|]. simpl. lia.
    + unfold entered_ids. rewrite omap_app. simpl.
      by apply StronglySorted_snoc.
    + unfold init_ids. rewrite omap_app. simpl.
      by apply StronglySorted_snoc.
    + intros p t [[<- <-]|[_ Hl]]%lookup_insert_Some; simpl; [lia|].
      apply H5 in Hl. lia.
    + intros p1 p2 t1 t2 [[<- <-]|[? Hl1]]%lookup_insert_Some
        [[<- <-]|[? Hl2]]%lookup_insert_Some; simpl; intros Hid; try done.
      * apply H5 in Hl2. lia.
      * apply H5 in Hl1. lia.
      * by eapply H6.
Qed.

Lemma ids_ok_visitExit be x i L s :
  tame be → ids_ok s → ids_ok (visitExit be x i L s).
Proof.
  intros Hq Hs. unfold visitExit.
  repeat case_match; try done; by apply ids_ok_doExit.
Qed.

Lemma ids_ok_poll_closure be s : tame be → ids_ok s → ids_ok (poll_closure be s).
Proof.
  intros Hq Hs. unfold poll_closure, eachOf.
  apply each_inv; [intros; by apply ids_ok_visitEnter|].
  apply each_loaded_inv; [|done]. intros; by apply ids_ok_visitExit.
Qed.

(** A poll runs poll closures of behaviors of [behaviors], or nothing. *)
Lemma poll_runs R sel s :
  registry_wf R →
  ∃ fs, (poll R sel s).1 = each fs (fun fn _ => poll_closure fn) s ∧
        ∀ b, b ∈ fs → b ∈ behaviors R.
Proof.
  intros Hwf. unfold poll, selectors_at.
  assert (∀ str b, b ∈ default [] (selectors R !! str) → b ∈ behaviors R) as Hsel.
  { intros str b. rewrite (wf_selectors R Hwf). intros Hb.
    apply list_elem_of_In, filter_In in Hb as [Hb _].
    by apply (wf_handlers R Hwf), list_elem_of_In. }
  destruct sel as [str|]; [|exists (handlers R); split; [done|apply Hwf]].
  case_decide; [exists (handlers R); split; [done|apply Hwf]|].
  specialize (Hsel str).
  destruct (selectors R !! str) as [fs|]; simpl in *; [by exists fs|].
  exists []. split; [|by intros b Hb%elem_of_nil].
  destruct (Object_prototype !! str) as [[[|n]|]|]; done.
Qed.

Lemma poll_inv (P : Store → Prop) R sel s :
  registry_wf R →
  (∀ b s', b ∈ behaviors R → P s' → P (poll_closure b s')) →
  P s → P (poll R sel s).1.
Proof.
  intros Hwf Hstep Hs. destruct (poll_runs R sel s Hwf) as (fs & -> & Hfs).
  apply each_inv; [|done]. intros b j s' Hb. apply Hstep. by apply Hfs.
Qed.

Lemma ids_ok_poll R sel s :
  registry_wf R → (∀ b, b ∈ behaviors R → tame b) →
  ids_ok s → ids_ok (poll R sel s).1.
Proof.
  intros Hwf Hq Hs. apply poll_inv; [done| |done].
  intros b s' Hb Hs'. apply ids_ok_poll_closure; [by apply Hq|done].
Qed.

Lemma ids_ok_teardown R s :
  (∀ b, b ∈ behaviors R → tame b) → ids_ok s → ids_ok (teardown R s).
Proof.
  intros Hq Hs. unfold teardown. apply each_inv; [|done].
  intros b j s' Hb Hs'. apply each_loaded_inv; [|done].
  intros i s'' Hs''. destruct (loaded_at (key b) i s''); [|done].
  apply ids_ok_doExit; [by apply Hq|done].
Qed.

Lemma ids_ok_observer_callback R ms s :
  (∀ b, b ∈ behaviors R → tame b) → ids_ok s →
  ids_ok (observer_callback R ms s).1.
Proof.
  intros Hq Hs. apply observer_callback_inv; [| |done].
  - intros b el s' Hb Hs'. apply ids_ok_visitEnter; [by apply Hq|done].
  - intros b el s' Hb Hs'. apply ids_ok_doExit; [by apply Hq|done].
Qed.

Lemma world_ok_initial d : world_ok (initial d).
Proof.
  split_and!; simpl.
  - apply wf_initial.
  - intros b H. by apply elem_of_nil in H.
  - split; simpl; try constructor; intros *; by rewrite lookup_empty.
Qed.

Lemma world_ok_step w a : tame_action a → world_ok w → world_ok (step w a).
Proof.
  intros Ha (Hwf & Hq & Hs). destruct w as [R s]. simpl in *.
  destruct a as [c| | |ms|d]; simpl.
  - split_and!.
    + by apply wf_onmount.
    + by apply tame_onmount.
    + rewrite onmount_store.
      destruct c as [|sel|sel i third fourth]; [by apply ids_ok_poll..|done].
  - split_and!; simpl; [done|done|]. by apply ids_ok_teardown.
  - split_and!; simpl; [apply wf_reset| |done].
    intros b H. by apply elem_of_nil in H.
  - split_and!; simpl; [done|done|]. by apply ids_ok_observer_callback.
  - split_and!; simpl; [done|done|]. by destruct Hs.
Qed.

Lemma world_ok_run l w : Forall tame_action l → world_ok w → world_ok (run l w).
Proof.
  intros Hl. revert w. induction Hl as [|a l Ha Hl IH]; intros w Hw; simpl; [done|].
  apply IH. by apply world_ok_step.
Qed.

(** In every run of the engine from the loaded module whose callbacks are
    tame, the enter invocations that do not return [false] receive
    strictly increasing correlation ids, and over all enter invocations the
    ids never decrease. *)
Lemma ids_sorted_run d l :
  Forall tame_action l →
  StronglySorted lt (entered_ids (log (run l (initial d)).2)) ∧
  StronglySorted le (init_ids (log (run l (initial d)).2)).
Proof.
  intros Hl.
  destruct (world_ok_run l (initial d) Hl (world_ok_initial d)) as (_ & _ & Hs).
  split; by destruct Hs.
Qed.

(** In such a run no two state tags carry the same correlation id. *)
Lemma tag_ids_distinct_tame d l p1 p2 t1 t2 :
  Forall tame_action l →
  props (run l (initial d)).2 !! p1 = Some t1 →
  props (run l (initial d)).2 !! p2 = Some t2 →
  tag_id t1 = tag_id t2 → p1 = p2.
Proof.
  intros Hl.
  destruct (world_ok_run l (initial d) Hl (world_ok_initial d)) as (_ & _ & Hs).
  apply (ok_tag_inj _ Hs).
Qed.

(** ** Polling, seen from one element *)

Lemma init_calls_snoc k n l e :
  init_calls k n (l ++ [e]) = init_calls k n l + (if is_init_of k n e then 1 else 0).
Proof.
  unfold init_calls. rewrite List.filter_app, length_app. simpl.
  by destruct (is_init_of k n e).
Qed.

Lemma exit_calls_snoc k n l e :
  exit_calls k n (l ++ [e]) = exit_calls k n l + (if is_exit_of k n e then 1 else 0).
Proof.
  unfold exit_calls. rewrite List.filter_app, length_app. simpl.
  by destruct (is_exit_of k n e).
Qed.

Section OneElement.
Variables (be : Behavior) (n : Node).
Hypothesis Hq : quiet be.

Lemma view_visitEnter_other el s :
  el ≠ n → view (key be) n (visitEnter be el s) = view (key be) n s.
Proof.
  intros Hne. unfold view.
  rewrite document_visitEnter by done.
  rewrite prop_visitEnter_ne by (done || congruence).
  rewrite log_visitEnter by done.
  destruct (prop el (key be) s); [by rewrite app_nil_r|].
  rewrite init_calls_snoc, exit_calls_snoc. simpl.
  rewrite bool_decide_eq_false_2 by (intros [_ ?]; done).
  by rewrite !Nat.add_0_r.
Qed.

Lemma view_doExit_other el i s :
  el ≠ n → view (key be) n (doExit be el i s) = view (key be) n s.
Proof.
  intros Hne. unfold view.
  rewrite document_doExit by done.
  rewrite prop_doExit_ne by (done || congruence).
  destruct (log_doExit be el i s (quiet_tame _ Hq)) as [s1 ->].
  destruct (exit be); [|by rewrite app_nil_r].
  rewrite init_calls_snoc, exit_calls_snoc. simpl.
  rewrite bool_decide_eq_false_2 by (intros [_ ?]; done).
  by rewrite !Nat.add_0_r.
Qed.

(** An element that is in the queried list, and so in the tree, is not
    exited. *)
Lemma visitExit_in_query i s sel L :
  L = query (document s) sel → n ∈ L → visitExit be (Some n) i L s = s.
Proof.
  intros -> Hin. unfold visitExit.
  apply elem_of_query in Hin as Hin'. destruct Hin' as (_ & Hr & _).
  apply isAttached_reaches in Hr. apply has_true in Hin.
  by rewrite Hin, Hr; destruct (detectMutate be).
Qed.

Lemma view_visitExit x i s sel L :
  L = query (document s) sel → n ∈ L →
  view (key be) n (visitExit be x i L s) = view (key be) n s.
Proof.
  intros HL Hin. destruct x as [el|]; [|done].
  destruct (decide (el = n)) as [->|Hne].
  - by erewrite visitExit_in_query.
  - unfold visitExit. repeat case_match; try done; by apply view_doExit_other.
Qed.

Lemma live_visitExit j i s sel L :
  L = query (document s) sel → n ∈ L →
  live (key be) n j s →
  live (key be) n j (visitExit be (loaded_at (key be) i s) i L s).
Proof.
  intros HL Hin Hj. unfold live in *.
  destruct (decide (i = j)) as [->|Hij].
  - replace (loaded_at (key be) j s) with (Some n)
      by (unfold loaded_at; by rewrite Hj).
    by erewrite visitExit_in_query.
  - destruct (loaded_at (key be) i s) as [el|]; [|done].
    unfold visitExit. repeat case_match; try done;
      rewrite loaded_of_doExit, decide_True by done;
      pose proof (array_set_read_ne (loaded_of (key be) s) i j None Hij) as Hr;
      rewrite Hj in Hr; simpl in Hr;
      by destruct (array_set _ _ _ !! j) as [[?|]|]; simpl in Hr; simplify_eq.
Qed.

Lemma loaded_of_visitEnter el s :
  loaded_of (key be) (visitEnter be el s) = loaded_of (key be) s ∨
  (prop el (key be) s = None ∧
   loaded_of (key be) (visitEnter be el s) = loaded_of (key be) s ++ [Some el]).
Proof.
  rewrite visitEnter_quiet by done.
  destruct (prop el (key be) s); [by left|]. cbv zeta.
  destruct (init be el _ s).2; [by left|]. right. split; [done|].
  unfold loaded_of. simpl. by rewrite lookup_insert_eq.
Qed.

Lemma live_visitEnter el j s :
  live (key be) n j s → live (key be) n j (visitEnter be el s).
Proof.
  unfold live. intros Hj.
  destruct (loaded_of_visitEnter el s) as [-> | [_ ->]]; [done|].
  by apply lookup_app_l_Some.
Qed.

(** The exit pass of a poll leaves an element of the queried list alone. *)
Lemma exit_pass_view s :
  n ∈ query (document s) (selector be) →
  view (key be) n
    (each_loaded (key be)
       (fun element i => visitExit be element i (query (document s) (selector be))) s) =
  view (key be) n s.
Proof.
  intros Hin.
  apply (each_loaded_inv (λ s', view (key be) n s' = view (key be) n s)); [|done].
  intros j s' Hs'. rewrite <- Hs'.
  assert (document s' = document s) as Hd by (by injection Hs').
  eapply view_visitExit; [by rewrite Hd|done].
Qed.

Lemma exit_pass_live j s :
  n ∈ query (document s) (selector be) →
  live (key be) n j s →
  live (key be) n j
    (each_loaded (key be)
       (fun element i => visitExit be element i (query (document s) (selector be))) s).
Proof.
  intros Hin Hj.
  apply (each_loaded_inv
    (λ s', view (key be) n s' = view (key be) n s ∧ live (key be) n j s'));
    [|done].
  intros i s' [Hv Hl].
  assert (document s' = document s) as Hd by (by injection Hv).
  split.
  - rewrite <- Hv. eapply view_visitExit; [by rewrite Hd|done].
  - eapply live_visitExit; [by rewrite Hd|done|done].
Qed.
End OneElement.

Section EnterPass.
Variables (be : Behavior) (n : Node).
Hypothesis Hq : quiet be.

Lemma visitEnter_tagged s :
  is_Some (prop n (key be) s) → visitEnter be n s = s.
Proof. intros [t Ht]. unfold visitEnter. by rewrite Ht. Qed.

Lemma visitEnter_self_veto s :
  prop n (key be) s = None →
  (init be n (mkTag (cid s) (selector be)) s).2 = RetFalse →
  visitEnter be n s =
    record (EvInit (key be) n (mkTag (cid s) (selector be)) RetFalse) s.
Proof.
  intros Hp Hr. rewrite visitEnter_quiet by done. rewrite Hp. cbv zeta.
  by rewrite Hr.
Qed.

Lemma visitEnter_self_entered s :
  prop n (key be) s = None →
  (init be n (mkTag (cid s) (selector be)) s).2 = RetOther →
  view (key be) n (visitEnter be n s) =
    (document s, Some (mkTag (cid s) (selector be)),
     S (init_calls (key be) n (log s)), exit_calls (key be) n (log s)) ∧
  live (key be) n (length (loaded_of (key be) s)) (visitEnter be n s).
Proof.
  intros Hp Hr. rewrite visitEnter_quiet by done. rewrite Hp. cbv zeta.
  rewrite Hr. split.
  - unfold view, prop. simpl. rewrite lookup_insert_eq.
    rewrite init_calls_snoc, exit_calls_snoc. simpl.
    rewrite bool_decide_eq_true_2 by done. f_equal; [f_equal|]; lia.
  - unfold live, loaded_of. simpl. rewrite lookup_insert_eq. simpl.
    by rewrite lookup_app_r, Nat.sub_diag.
Qed.

Lemma enter_pass_others (l : list Node) i s :
  n ∉ l →
  view (key be) n (each_from i l (fun el _ => visitEnter be el) s) =
  view (key be) n s.
Proof.
  intros Hn.
  apply (each_from_inv (λ s', view (key be) n s' = view (key be) n s)); [|done].
  intros x j s' Hx <-. apply view_visitEnter_other; [done|]. by intros ->.
Qed.

Lemma enter_pass_live (l : list Node) i j s :
  live (key be) n j s →
  live (key be) n j (each_from i l (fun el _ => visitEnter be el) s).
Proof.
  intros Hj. apply (each_from_inv (live (key be) n j)); [|done].
  intros x ? s' _. by apply live_visitEnter.
Qed.

Lemma enter_pass_tagged (l : list Node) i s :
  is_Some (prop n (key be) s) →
  view (key be) n (each_from i l (fun el _ => visitEnter be el) s) =
  view (key be) n s.
Proof.
  intros Ht.
  apply (each_from_inv (λ s', view (key be) n s' = view (key be) n s)); [|done].
  intros x j s' Hx Hs'. rewrite <- Hs'.
  destruct (decide (x = n)) as [->|Hne]; [|by apply view_visitEnter_other].
  rewrite visitEnter_tagged; [done|].
  replace (prop n (key be) s') with (prop n (key be) s); [done|].
  by injection Hs'.
Qed.

(** A slot that holds [n] after a visit held it before, unless the visit
    entered [n]. *)
Lemma live_before_visitEnter el j s :
  el ≠ n ∨ (init be n (mkTag (cid s) (selector be)) s).2 = RetFalse →
  live (key be) n j (visitEnter be el s) → live (key be) n j s.
Proof.
  unfold live. intros Hel.
  destruct (loaded_of_visitEnter be Hq el s) as [-> | [Hp Hl]]; [done|].
  destruct Hel as [Hne|Hveto].
  - rewrite Hl. intros [?|[_ Hlast]]%lookup_app_Some; [done|].
    apply list_lookup_singleton_Some in Hlast as [_ ?]. congruence.
  - destruct (decide (el = n)) as [->|Hne].
    + by rewrite visitEnter_self_veto.
    + rewrite Hl. intros [?|[_ Hlast]]%lookup_app_Some; [done|].
      apply list_lookup_singleton_Some in Hlast as [_ ?]. congruence.
Qed.

Lemma live_before_visitExit x i L j s :
  live (key be) n j (visitExit be x i L s) → live (key be) n j s.
Proof.
  unfold live, visitExit. repeat case_match; try done;
    rewrite loaded_of_doExit, decide_True by done;
    by intros [_ ?]%array_set_live.
Qed.
End EnterPass.

Lemma view_inv k n s d p a b :
  view k n s = (d, p, a, b) →
  document s = d ∧ prop n k s = p ∧
  init_calls k n (log s) = a ∧ exit_calls k n (log s) = b.
Proof. unfold view. intros [= ? ? ? ?]. done. Qed.

Section PollOneElement.
Variables (be : Behavior) (n : Node).
Hypothesis Hq : quiet be.

Lemma poll_closure_split s :
  NoDup (nodes (document s)) →
  n ∈ query (document s) (selector be) →
  ∃ l1 l2 sa,
    query (document s) (selector be) = l1 ++ n :: l2 ∧ (n ∉ l1) ∧ (n ∉ l2) ∧
    view (key be) n sa = view (key be) n s ∧
    (∀ j, live (key be) n j s → live (key be) n j sa) ∧
    (∀ j, live (key be) n j sa → live (key be) n j s) ∧
    poll_closure be s =
      each_from (0 + length l1 + 1) l2 (fun el _ => visitEnter be el)
        (visitEnter be n
           (each_from 0 l1 (fun el _ => visitEnter be el) sa)).
Proof.
  intros Hnd Hin.
  pose proof (NoDup_query (document s) (selector be) Hnd) as HndL.
  destruct (list_elem_of_split _ _ Hin) as (l1 & l2 & HL).
  rewrite HL in HndL. apply NoDup_app in HndL as (_ & Hn1 & [Hn2 _]%NoDup_cons).
  exists l1, l2,
    (each_loaded (key be)
       (fun element i => visitExit be element i (query (document s) (selector be))) s).
  split_and!.
  - done.
  - intros H1. by apply (Hn1 n H1); left.
  - done.
  - by apply exit_pass_view.
  - intros j. by apply exit_pass_live.
  - intros j.
    apply (each_loaded_inv (λ s', live (key be) n j s' → live (key be) n j s));
      [|done].
    intros i s' Hs' Hl. apply Hs'. by eapply live_before_visitExit.
  - unfold poll_closure, eachOf, each. cbv zeta.
    set (sa := each_loaded _ _ s). rewrite HL.
    rewrite each_from_app. simpl. by rewrite Nat.add_1_r.
Qed.

Lemma poll_closure_enters s :
  NoDup (nodes (document s)) →
  n ∈ query (document s) (selector be) →
  prop n (key be) s = None →
  (∀ o s', (init be n o s').2 = RetOther) →
  ∃ t j,
    view (key be) n (poll_closure be s) =
      (document s, Some t, S (init_calls (key be) n (log s)),
       exit_calls (key be) n (log s)) ∧
    live (key be) n j (poll_closure be s).
Proof.
  intros Hnd Hin Hp Hr.
  destruct (poll_closure_split s Hnd Hin)
    as (l1 & l2 & sa & HL & Hn1 & Hn2 & Hva & _ & _ & ->).
  set (sb := each_from 0 l1 (fun el _ => visitEnter be el) sa).
  assert (view (key be) n sb = view (key be) n s) as Hvb.
  { unfold sb. by rewrite enter_pass_others. }
  assert (prop n (key be) sb = None) as Hpb.
  { transitivity (prop n (key be) s); [by injection Hvb|done]. }
  destruct (visitEnter_self_entered be n Hq sb Hpb (Hr _ _)) as [Hvc Hlc].
  eexists _, _. split.
  - rewrite enter_pass_others by done. rewrite Hvc.
    apply view_inv in Hvb as (-> & _ & -> & ->). done.
  - by apply enter_pass_live.
Qed.

Lemma poll_closure_entered s :
  n ∈ query (document s) (selector be) →
  is_Some (prop n (key be) s) →
  view (key be) n (poll_closure be s) = view (key be) n s ∧
  ∀ j, live (key be) n j s → live (key be) n j (poll_closure be s).
Proof.
  intros Hin Ht. unfold poll_closure, eachOf, each.
  set (sa := each_loaded (key be) _ s).
  assert (view (key be) n sa = view (key be) n s) as Hva
    by (by apply exit_pass_view).
  split.
  - rewrite enter_pass_tagged; [done|done|].
    replace (prop n (key be) sa) with (prop n (key be) s); [done|].
    by injection Hva.
  - intros j Hj. apply enter_pass_live; [done|]. by apply exit_pass_live.
Qed.

Lemma poll_closure_veto s :
  NoDup (nodes (document s)) →
  n ∈ query (document s) (selector be) →
  prop n (key be) s = None →
  (∀ o s', (init be n o s').2 = RetFalse) →
  view (key be) n (poll_closure be s) =
    (document s, None, S (init_calls (key be) n (log s)),
     exit_calls (key be) n (log s)) ∧
  ∀ j, live (key be) n j (poll_closure be s) → live (key be) n j s.
Proof.
  intros Hnd Hin Hp Hr.
  destruct (poll_closure_split s Hnd Hin)
    as (l1 & l2 & sa & HL & Hn1 & Hn2 & Hva & _ & Hla & ->).
  set (sb := each_from 0 l1 (fun el _ => visitEnter be el) sa).
  assert (view (key be) n sb = view (key be) n s) as Hvb.
  { unfold sb. by rewrite enter_pass_others. }
  assert (prop n (key be) sb = None) as Hpb.
  { transitivity (prop n (key be) s); [by injection Hvb|done]. }
  split.
  - rewrite enter_pass_others by done.
    rewrite (visitEnter_self_veto be n Hq sb Hpb (Hr _ _)).
    apply view_inv in Hvb as (Hd & _ & Hi & He).
    unfold view. simpl. rewrite init_calls_snoc, exit_calls_snoc. simpl.
    rewrite bool_decide_eq_true_2 by done.
    change (prop n (key be) (record _ sb)) with (prop n (key be) sb).
    rewrite Hd, Hpb, Hi, He. f_equal; [f_equal|]; lia.
  - intros j Hj. apply Hla.
    assert (∀ l i s',
      live (key be) n j (each_from i l (fun el _ => visitEnter be el) s') →
      live (key be) n j s') as Hback.
    { induction l as [|x l IH]; intros i s'; simpl; [done|].
      intros Hl. apply IH in Hl.
      eapply live_before_visitEnter; [done| |done].
      destruct (decide (x = n)); [right; apply Hr|by left]. }
    apply Hback in Hj.
    apply (live_before_visitEnter be n Hq n) in Hj; [|right; apply Hr].
    by apply Hback in Hj.
Qed.
End PollOneElement.

(** A poll that starts from a store in which [n] holds no slot of [loaded]
    does not call the exit action on [n].  With [doExit] putting the
    tombstone first, this is the situation of a poll started from inside
    the exit action of [n]. *)
Lemma poll_closure_no_exit_of_absent be n s :
  tame be →
  Some n ∉ loaded_of (key be) s →
  exit_calls (key be) n (log (poll_closure be s)) = exit_calls (key be) n (log s).
Proof.
  intros Ht Hn. unfold poll_closure, eachOf.
  apply (each_inv (λ s', exit_calls (key be) n (log s') = exit_calls (key be) n (log s))).
  { intros x j s' _ <-. rewrite log_visitEnter by done.
    destruct (prop x (key be) s'); [by rewrite app_nil_r|].
    rewrite exit_calls_snoc. simpl. lia. }
  apply (each_loaded_inv (λ s', (Some n ∉ loaded_of (key be) s') ∧
    exit_calls (key be) n (log s') = exit_calls (key be) n (log s))); [|done].
  intros j s' [Hn' Hc]. unfold loaded_at.
  destruct (loaded_of (key be) s' !! j) as [[el|]|] eqn:Hj; simpl; try done.
  assert (el ≠ n) as Hne.
  { intros ->. apply Hn'. by eapply list_elem_of_lookup_2. }
  unfold visitExit. repeat case_match; try done; (split;
    [ rewrite loaded_of_doExit, decide_True by done;
      intros [j' Hj']%list_elem_of_lookup; apply array_set_live in Hj' as [_ Hj'];
      apply Hn'; by eapply list_elem_of_lookup_2
    | destruct (log_doExit be el (Some j) s' Ht) as [s1 ->];
      destruct (exit be); [|by rewrite app_nil_r];
      rewrite exit_calls_snoc; simpl;
      rewrite bool_decide_eq_false_2 by (intros [_ ?]; done); lia ]).
Qed.

(** X19: with callbacks that leave the store as they find it (they do not
    call back into the engine and do not change the tree): when [n] is in
    the tree and matches the selector of a behavior, carries no tag of it
    yet, and the enter action never returns [false] on [n], two polls of
    the behavior in a row invoke the enter action on [n] once, all in the
    first poll; the second poll invokes neither the enter
    nor the exit action on [n], leaves its state tag in place and leaves
    every slot of [loaded] that holds [n] as it is. *)
Theorem poll_twice_enters_once be n s :
  quiet be →
  NoDup (nodes (document s)) →
  n ∈ query (document s) (selector be) →
  prop n (key be) s = None →
  (∀ o s', (init be n o s').2 = RetOther) →
  let s1 := poll_closure be s in
  let s2 := poll_closure be s1 in
  init_calls (key be) n (log s1) = S (init_calls (key be) n (log s)) ∧
  init_calls (key be) n (log s2) = init_calls (key be) n (log s1) ∧
  exit_calls (key be) n (log s2) = exit_calls (key be) n (log s) ∧
  is_Some (prop n (key be) s1) ∧
  prop n (key be) s2 = prop n (key be) s1 ∧
  (∃ j, live (key be) n j s1) ∧
  (∀ j, live (key be) n j s1 → live (key be) n j s2).
Proof.
  intros Hq Hnd Hin Hp Hr s1 s2.
  destruct (poll_closure_enters be n Hq s Hnd Hin Hp Hr) as (t & j & Hv1 & Hl1).
  fold s1 in Hv1, Hl1.
  assert (document s1 = document s ∧ prop n (key be) s1 = Some t ∧
          init_calls (key be) n (log s1) = S (init_calls (key be) n (log s)) ∧
          exit_calls (key be) n (log s1) = exit_calls (key be) n (log s))
    as (Hd1 & Hp1 & Hi1 & He1).
  { by apply view_inv in Hv1. }
  destruct (poll_closure_entered be n Hq s1) as [Hv2 Hl2].
  { by rewrite Hd1. }
  { by rewrite Hp1. }
  fold s2 in Hv2, Hl2.
  assert (prop n (key be) s2 = prop n (key be) s1 ∧
          init_calls (key be) n (log s2) = init_calls (key be) n (log s1) ∧
          exit_calls (key be) n (log s2) = exit_calls (key be) n (log s1))
    as (Hp2 & Hi2 & He2).
  { apply view_inv in Hv2 as (_ & ? & ? & ?). done. }
  split_and!; try done.
  - congruence.
  - by exists j.
Qed.

(** C7: when the enter action returns [false] on [n], the visit leaves the
    store as it was but for the record of the call: no state tag, nothing
    appended to [loaded].  After a whole poll [n] still has no tag and
    holds no slot of [loaded] it did not hold before, and the next poll,
    with [n] still in the queried list, invokes the enter action on [n]
    once more. *)
Theorem enter_veto_not_entered be n s :
  quiet be →
  NoDup (nodes (document s)) →
  n ∈ query (document s) (selector be) →
  prop n (key be) s = None →
  (∀ o s', (init be n o s').2 = RetFalse) →
  let s1 := poll_closure be s in
  let s2 := poll_closure be s1 in
  visitEnter be n s =
    record (EvInit (key be) n (mkTag (cid s) (selector be)) RetFalse) s ∧
  prop n (key be) s1 = None ∧
  (∀ j, live (key be) n j s1 → live (key be) n j s) ∧
  n ∈ query (document s1) (selector be) ∧
  init_calls (key be) n (log s1) = S (init_calls (key be) n (log s)) ∧
  init_calls (key be) n (log s2) = S (init_calls (key be) n (log s1)) ∧
  prop n (key be) s2 = None.
Proof.
  intros Hq Hnd Hin Hp Hr s1 s2.
  destruct (poll_closure_veto be n Hq s Hnd Hin Hp Hr) as [Hv1 Hl1].
  fold s1 in Hv1, Hl1.
  assert (document s1 = document s ∧ prop n (key be) s1 = None ∧
          init_calls (key be) n (log s1) = S (init_calls (key be) n (log s)))
    as (Hd1 & Hp1 & Hi1).
  { apply view_inv in Hv1 as (? & ? & ? & _). done. }
  destruct (poll_closure_veto be n Hq s1) as [Hv2 _]; try done.
  { by rewrite Hd1. }
  { by rewrite Hd1. }
  fold s2 in Hv2.
  split_and!; try done.
  - by apply visitEnter_self_veto.
  - by rewrite Hd1.
  - by apply view_inv in Hv2 as (_ & _ & ? & _).
  - by apply view_inv in Hv2 as (_ & ? & _ & _).
Qed.

(** ** The sample registries *)

Lemma quiet_be_x : quiet Sample.be_x.
Proof. split; [by intros ???|]. intros f [= <-]. by intros ???. Qed.

Lemma quiet_be_y : quiet Sample.be_y.
Proof. split; [by intros ???|]. intros f [= <-]. by intros ???. Qed.

Lemma quiet_be_veto : quiet Sample.be_veto.
Proof. split; [by intros ???|]. by intros f [=]. Qed.

Lemma quiet_reg_x b : b ∈ behaviors Sample.reg_x → quiet b.
Proof.
  change (behaviors Sample.reg_x) with [Sample.be_x].
  intros ->%list_elem_of_singleton. apply quiet_be_x.
Qed.

Lemma quiet_reg_xy b : b ∈ behaviors Sample.reg_xy → quiet b.
Proof.
  change (behaviors Sample.reg_xy) with [Sample.be_x; Sample.be_y].
  intros [->| ->%list_elem_of_singleton]%elem_of_cons;
    [apply quiet_be_x|apply quiet_be_y].
Qed.

Lemma wf_reg_xy : registry_wf Sample.reg_xy.
Proof. apply wf_onmount, wf_onmount, wf_initial. Qed.

Lemma tame_reg_xy b : b ∈ behaviors Sample.reg_xy → tame b.
Proof. intros Hb. by apply quiet_tame, quiet_reg_xy. Qed.

Lemma tame_plain_run : Forall tame_action Sample.plain_run.
Proof.
  repeat constructor; intros ?? s; exists (document s); by destruct s.
Qed.

Lemma NoDup_sample_nodes : NoDup (nodes (document Sample.store0)).
Proof. apply (bool_decide_unpack _). by vm_compute. Qed.

(** ** Witnesses and counterexamples *)

(** Two polls of the sample behavior on the sample tree. *)
Lemma poll_twice_enters_once_witness :
  1 ∈ query (document Sample.store0) (selector Sample.be_x) ∧
  init_calls 1 1 (log (poll_closure Sample.be_x (poll_closure Sample.be_x Sample.store0))) =
  init_calls 1 1 (log (poll_closure Sample.be_x Sample.store0)).
Proof.
  assert (1 ∈ query (document Sample.store0) (selector Sample.be_x)) as Hin.
  { vm_compute. by left. }
  split; [done|].
  refine (proj1 (proj2 (poll_twice_enters_once Sample.be_x 1 Sample.store0
    quiet_be_x _ Hin eq_refl _))).
  - apply NoDup_sample_nodes.
  - by intros ??.
Defined.

(** A poll of the vetoing sample behavior. *)
Lemma enter_veto_not_entered_witness :
  1 ∈ query (document Sample.store0) (selector Sample.be_veto) ∧
  prop 1 1 (poll_closure Sample.be_veto Sample.store0) = None.
Proof.
  assert (1 ∈ query (document Sample.store0) (selector Sample.be_veto)) as Hin.
  { vm_compute. by left. }
  split; [done|].
  refine (proj1 (proj2 (enter_veto_not_entered Sample.be_veto 1 Sample.store0
    quiet_be_veto _ Hin eq_refl _))).
  - apply NoDup_sample_nodes.
  - by intros ??.
Defined.

(** C5 as stated fails: an enter action that returns [false] does not use
    up its correlation id.  After [onmount ('.x', enter_veto)] a poll
    invokes the action on [1] and on [2], both times with the id 0. *)
Lemma enter_ids_repeat_after_veto :
  log (run Sample.veto_run (initial Sample.tree)).2 =
    [EvInit 1 1 (mkTag 0 ".x") RetFalse; EvInit 1 2 (mkTag 0 ".x") RetFalse] ∧
  ¬ NoDup (init_ids (log (run Sample.veto_run (initial Sample.tree)).2)).
Proof.
  split; [by vm_compute|].
  vm_compute. intros [H _]%NoDup_cons. apply H. by left.
Qed.

(** C6, at an enter action that mounts its children.  ['.y'] is registered
    with a plain enter action, ['.x'] with one that calls [onmount ('.y')];
    then [onmount ('.x')] runs.  The visit of [1] reads [cid = 0] into its
    token and calls the enter action, whose nested poll enters [3] with a
    token of its own, also read at [cid = 0]; both tokens become state
    tags. *)
Theorem nested_enter_shares_id :
  let s := (onmount (CallSelector ".x") Sample.reg_nested Sample.store0).1.2 in
  (∀ s', (onmount (CallSelector ".y") Sample.reg_nested s').1.2 =
         (onmount (CallSelector ".y") Sample.reg_y s').1.2) ∧
  log s = [EvInit 1 3 (mkTag 0 ".y") RetOther;
           EvInit 2 1 (mkTag 0 ".x") RetOther;
           EvInit 2 2 (mkTag 2 ".x") RetOther] ∧
  prop 3 1 s = Some (mkTag 0 ".y") ∧
  prop 1 2 s = Some (mkTag 0 ".x") ∧
  (3, 1) ≠ (1, 2).
Proof. split; [by intros s'|]. vm_compute. repeat split. congruence. Qed.

(** Two behaviors on two selectors, three entered elements: [teardown]
    calls the exit action once on each. *)
Lemma teardown_exits_live_entries_witness :
  NoDup (key <$> behaviors Sample.reg_xy) ∧
  exit_trace (log (teardown Sample.reg_xy (poll Sample.reg_xy None Sample.store0).1)) =
    [(1, 1); (1, 2); (2, 3)].
Proof.
  assert (NoDup (key <$> behaviors Sample.reg_xy)) as Hnd by apply wf_reg_xy.
  split; [done|].
  rewrite (proj2 (proj2 (teardown_exits_live_entries Sample.reg_xy
    (poll Sample.reg_xy None Sample.store0).1 Hnd tame_reg_xy))).
  by vm_compute.
Defined.

(** C9 as stated fails at the empty string: it is falsy, so
    [onmount.poll ('')] takes [handlers] and polls every behavior, although
    no behavior is registered under it. *)
Lemma poll_empty_selector_polls_all :
  selectors Sample.reg_x !! "" = None ∧
  selector <$> behaviors Sample.reg_x = [".x"] ∧
  log (poll Sample.reg_x (Some "") Sample.store0).1 =
    [EvInit 1 1 (mkTag 0 ".x") RetOther; EvInit 1 2 (mkTag 1 ".x") RetOther] ∧
  (poll Sample.reg_x (Some "") Sample.store0).1 ≠ Sample.store0.
Proof.
  split_and!; [by vm_compute..|].
  intros H. apply (f_equal cid) in H. vm_compute in H. discriminate.
Qed.

(** Polling ['.x'] leaves the behavior registered under ['.y'] alone. *)
Lemma poll_selector_isolated_witness :
  registry_wf Sample.reg_xy ∧ ".x" ≠ "" ∧
  loaded_of 2 (poll Sample.reg_xy (Some ".x") Sample.store0).1 =
    loaded_of 2 Sample.store0.
Proof.
  assert (".x" ≠ "") as Hne by done.
  split_and!; [apply wf_reg_xy|done|].
  destruct (proj1 (poll_selector_isolated Sample.reg_xy ".x" Sample.store0
    wf_reg_xy tame_reg_xy) Hne) as (_ & Hframe & _).
  apply (Hframe Sample.be_y).
  - change (behaviors Sample.reg_xy) with [Sample.be_x; Sample.be_y].
    right. by left.
  - done.
Defined.


(** * Further properties *)

(** ** Invariants of runs *)

Section RunInvariant.
Variable P : Registry → Store → Prop.
Hypothesis P_enter : ∀ R be el s,
  registry_wf R → be ∈ behaviors R → tame be → P R s → P R (visitEnter be el s).
Hypothesis P_exit_at : ∀ R be el i s,
  registry_wf R → be ∈ behaviors R → tame be →
  loaded_at (key be) i s = Some el → P R s → P R (doExit be el (Some i) s).
Hypothesis P_exit_find : ∀ R be el s,
  registry_wf R → be ∈ behaviors R → tame be → P R s → P R (doExit be el None s).
Hypothesis P_tree : ∀ R d s, P R s → P R (set_document d s).
Hypothesis P_reset : ∀ R s, registry_wf R → P R s → P (reset R) s.
Hypothesis P_register : ∀ R sel i third fourth s,
  registry_wf R → P R s → P (onmount (CallBehavior sel i third fourth) R s).1.1 s.

Lemma inv_poll_closure R be s :
  registry_wf R → be ∈ behaviors R → tame be → P R s → P R (poll_closure be s).
Proof.
  intros Hwf Hbe Ht Hs. unfold poll_closure, eachOf.
  apply each_inv; [intros; by apply P_enter|].
  apply each_loaded_inv; [|done].
  intros j s' Hs'. destruct (loaded_at (key be) j s') as [el|] eqn:Hj; [|done].
  unfold visitExit. repeat case_match; try done; by apply P_exit_at.
Qed.

Lemma inv_poll R sel s :
  registry_wf R → (∀ b, b ∈ behaviors R → tame b) → P R s → P R (poll R sel s).1.
Proof.
  intros Hwf Ht Hs. apply (poll_inv (P R)); [done| |done].
  intros b s' Hb Hs'. apply inv_poll_closure; auto.
Qed.

Lemma inv_teardown R s :
  registry_wf R → (∀ b, b ∈ behaviors R → tame b) → P R s → P R (teardown R s).
Proof.
  intros Hwf Ht Hs. unfold teardown. apply each_inv; [|done].
  intros b j s' Hb Hs'. apply each_loaded_inv; [|done].
  intros i s'' Hs''. destruct (loaded_at (key b) i s'') as [el|] eqn:Hi; [|done].
  apply P_exit_at; auto.
Qed.

Lemma inv_observer_callback R ms s :
  registry_wf R → (∀ b, b ∈ behaviors R → tame b) → P R s →
  P R (observer_callback R ms s).1.
Proof.
  intros Hwf Ht Hs. apply (observer_callback_inv (P R)); [| |done].
  - intros b el s' Hb Hs'. apply P_enter; auto.
  - intros b el s' Hb Hs'. apply P_exit_find; auto.
Qed.

Lemma inv_step w a :
  tame_action a → world_ok w → P w.1 w.2 → P (step w a).1 (step w a).2.
Proof.
  intros Ha (Hwf & Ht & _) Hs. destruct w as [R s]. simpl in *.
  destruct a as [c| | |ms|d]; simpl.
  - rewrite onmount_store. destruct c as [|sel|sel i third fourth].
    + by apply inv_poll.
    + by apply inv_poll.
    + by apply P_register.
  - by apply inv_teardown.
  - by apply P_reset.
  - by apply inv_observer_callback.
  - by apply P_tree.
Qed.

Lemma inv_run l w :
  Forall tame_action l → world_ok w → P w.1 w.2 →
  P (run l w).1 (run l w).2.
Proof.
  intros Hl. revert w. induction Hl as [|a l Ha Hl IH]; intros w Hw Hs; simpl; [done|].
  apply IH; [by apply world_ok_step|by apply inv_step].
Qed.
End RunInvariant.

(** ** The attachment check *)

Lemma reaches_root_step d el :
  reaches_root d el ↔
  el = documentElement d ∨
  ∃ p, parentElement d !! el = Some p ∧ reaches_root d p.
Proof.
  unfold reaches_root. split.
  - intros [[|k] Hk]; simpl in Hk.
    + left. congruence.
    + right. destruct (parentElement d !! el) as [p|]; [|done]. eauto.
  - intros [->|(p & Hp & k & Hk)]; [by exists 0|].
    exists (S k). simpl. by rewrite Hp.
Qed.

(** X1: [isAttached] answers [true] exactly for the elements whose parent
    links lead to [document.documentElement]; it is [true] on the root
    element, [false] on any other element without a parent, and otherwise
    the answer for the parent, however long the chain of parents is. *)
Theorem isAttached_follows_parents d el :
  (isAttached d el = true ↔ reaches_root d el) ∧
  isAttached d el =
    (if decide (el = documentElement d) then true
     else match parentElement d !! el with
          | Some p => isAttached d p
          | None => false
          end).
Proof.
  split; [apply isAttached_reaches|].
  apply eq_true_iff_eq. rewrite isAttached_reaches, reaches_root_step.
  case_decide as He; [by intuition|].
  destruct (parentElement d !! el) as [p|] eqn:Hp.
  - rewrite isAttached_reaches. split.
    + intros [?|(p' & [= <-] & Hr)]; done.
    + intros Hr. right. eauto.
  - split; [|done]. intros [?|(p' & ? & _)]; done.
Qed.

(** ** Keys are never used twice *)

Lemma visitEnter_touches be el s :
  tame be →
  (∀ p t, props (visitEnter be el s) !! p = Some t →
     props s !! p = Some t ∨ p = (el, key be)) ∧
  (∀ k l, loaded (visitEnter be el s) !! k = Some l →
     loaded s !! k = Some l ∨ k = key be).
Proof.
  intros Ht. destruct (visitEnter_tame be el s Ht) as [d ->].
  destruct (prop el (key be) s); [by auto|]. cbv zeta.
  destruct (init be el _ s).2; [by auto|]. simpl. split.
  - intros p t [[<- _]|[_ ?]]%lookup_insert_Some; auto.
  - intros k l [[<- _]|[_ ?]]%lookup_insert_Some; auto.
Qed.

Lemma loaded_tombstone_touches k i s k' l :
  loaded (tombstone k i s) !! k' = Some l → loaded s !! k' = Some l ∨ k' = k.
Proof.
  destruct i as [i|]; simpl; [|by auto].
  intros [[<- _]|[_ ?]]%lookup_insert_Some; auto.
Qed.

Lemma doExit_touches be el i s :
  tame be →
  (∀ p t, props (doExit be el i s) !! p = Some t → props s !! p = Some t) ∧
  (∀ k l, loaded (doExit be el i s) !! k = Some l →
     loaded s !! k = Some l ∨ k = key be).
Proof.
  intros Ht. split.
  - intros p t. destruct (props_doExit be el i s Ht) as [-> | ->]; [done|].
    by intros [_ ?]%lookup_delete_Some.
  - destruct (doExit_tame be el i s Ht) as [d ->]. cbv zeta.
    destruct (exit be) as [f|]; [|intros k l; apply loaded_tombstone_touches].
    destruct (f el _ _).2; simpl; intros k l; apply loaded_tombstone_touches.
Qed.

Lemma keys_bounded_run d l :
  Forall tame_action l →
  keys_bounded (run l (initial d)).1 (run l (initial d)).2.
Proof.
  intros Hl. apply (inv_run keys_bounded); try done.
  - intros R be el s Hwf Hbe Ht [Hp Hl'].
    destruct (visitEnter_touches be el s Ht) as [Hp' Hl''].
    pose proof (wf_bid R Hwf be Hbe). split.
    + intros el' k t H'. apply Hp' in H' as [H'|H']; [by eapply Hp|].
      by simplify_eq.
    + intros k l0 H'. apply Hl'' in H' as [H'|H']; [by eapply Hl'|].
      by subst k.
  - intros R be el i s Hwf Hbe Ht _ [Hp Hl'].
    destruct (doExit_touches be el (Some i) s Ht) as [Hp' Hl''].
    pose proof (wf_bid R Hwf be Hbe). split.
    + intros el' k t H'. apply Hp' in H'. by eapply Hp.
    + intros k l0 H'. apply Hl'' in H' as [H'|H']; [by eapply Hl'|].
      by subst k.
  - intros R be el s Hwf Hbe Ht [Hp Hl'].
    destruct (doExit_touches be el None s Ht) as [Hp' Hl''].
    pose proof (wf_bid R Hwf be Hbe). split.
    + intros el' k t H'. apply Hp' in H'. by eapply Hp.
    + intros k l0 H'. apply Hl'' in H' as [H'|H']; [by eapply Hl'|].
      by subst k.
  - intros R sel i third fourth s Hwf [Hp Hl'].
    destruct (onmount_behaviors sel i third fourth R s) as (be & _ & Hb & _).
    split; rewrite Hb.
    + intros el k t H'. apply Hp in H'. lia.
    + intros k l0 H'. apply Hl' in H'. lia.
  - apply world_ok_initial.
Qed.

(** X3: a behavior, when it is registered, has an empty [loaded] list and
    no element carries a state tag under its key, whatever was registered,
    polled, observed, torn down or reset before: [bid] survives [reset], so
    the state tags left behind by earlier behaviors sit under other keys. *)
Theorem new_behavior_starts_clean d l sel i third fourth :
  Forall tame_action l →
  let w := run l (initial d) in
  let w' := step w (ACall (CallBehavior sel i third fourth)) in
  ∃ be, behaviors w'.1 = behaviors w.1 ++ [be] ∧
        selector be = sel ∧ init be = i ∧
        loaded_of (key be) w'.2 = [] ∧
        ∀ el, prop el (key be) w'.2 = None.
Proof.
  intros Hl w w'. destruct (keys_bounded_run d l Hl) as [Hp Hl'].
  fold w in Hp, Hl'. subst w'. destruct w as [R s]. unfold step.
  rewrite onmount_store. cbn [fst snd] in *.
  destruct (onmount_behaviors sel i third fourth R s)
    as (be & Hbs & _ & Hk & _ & Hsel & Hi).
  exists be. rewrite Hk. split_and!; try done.
  - unfold loaded_of. destruct (loaded s !! S (bid R)) as [l0|] eqn:E; [|done].
    apply Hl' in E. lia.
  - intros el. unfold prop. destruct (props s !! (el, S (bid R))) as [t|] eqn:E; [|done].
    apply Hp in E. lia.
Qed.

(** After a registration, a poll, a [reset] and a second registration of
    the same selector, the second behavior starts clean although the
    elements still carry the tags of the first. *)
Lemma new_behavior_starts_clean_witness :
  Forall tame_action (Sample.plain_run ++ [AReset]) ∧
  ∃ be, selector be = ".x" ∧
    loaded_of (key be)
      (step (run (Sample.plain_run ++ [AReset]) (initial Sample.tree))
         (ACall (CallBehavior ".x" Sample.enter None None))).2 = [].
Proof.
  assert (Forall tame_action (Sample.plain_run ++ [AReset])) as Hl.
  { apply Forall_app. split; [apply tame_plain_run|by repeat constructor]. }
  split; [done|].
  destruct (new_behavior_starts_clean Sample.tree (Sample.plain_run ++ [AReset])
    ".x" Sample.enter None None Hl) as (be & _ & Hsel & _ & Hload & _).
  by exists be.
Defined.

(** ** The first poll of a behavior *)

Lemma visitEnter_enters be el s :
  tame be →
  prop el (key be) s = None →
  (init be el (mkTag (cid s) (selector be)) s).2 = RetOther →
  loaded_of (key be) (visitEnter be el s) = loaded_of (key be) s ++ [Some el] ∧
  cid (visitEnter be el s) = S (cid s) ∧
  prop el (key be) (visitEnter be el s) = Some (mkTag (cid s) (selector be)) ∧
  (∀ n, n ≠ el → prop n (key be) (visitEnter be el s) = prop n (key be) s).
Proof.
  intros Ht Hp Hr. split_and!.
  - destruct (visitEnter_tame be el s Ht) as [d ->]. rewrite Hp. cbv zeta.
    rewrite Hr. unfold loaded_of. simpl. by rewrite lookup_insert_eq.
  - destruct (visitEnter_tame be el s Ht) as [d ->]. rewrite Hp. cbv zeta.
    by rewrite Hr.
  - destruct (visitEnter_tame be el s Ht) as [d ->]. rewrite Hp. cbv zeta.
    rewrite Hr. unfold prop. simpl. by rewrite lookup_insert_eq.
  - intros n Hn. apply prop_visitEnter_ne; [done|congruence].
Qed.

Lemma enter_pass_fresh be (l : list Node) i s :
  tame be →
  NoDup l →
  (∀ n, n ∈ l → prop n (key be) s = None) →
  (∀ n o s', n ∈ l → (init be n o s').2 = RetOther) →
  loaded_of (key be) (each_from i l (fun el _ => visitEnter be el) s) =
    loaded_of (key be) s ++ (Some <$> l) ∧
  cid (each_from i l (fun el _ => visitEnter be el) s) = cid s + length l ∧
  (∀ j n, l !! j = Some n →
     prop n (key be) (each_from i l (fun el _ => visitEnter be el) s) =
     Some (mkTag (cid s + j) (selector be))) ∧
  (∀ n, n ∉ l →
     prop n (key be) (each_from i l (fun el _ => visitEnter be el) s) =
     prop n (key be) s).
Proof.
  intros Ht. revert i s. induction l as [|x l IH]; intros i s Hnd Hp Hr; simpl.
  - rewrite app_nil_r, Nat.add_0_r. split_and!; done.
  - apply NoDup_cons in Hnd as [Hx Hnd].
    destruct (visitEnter_enters be x s Ht) as (Hl1 & Hc1 & Hx1 & Ho1).
    { apply Hp. by left. }
    { apply Hr. by left. }
    destruct (IH (S i) (visitEnter be x s) Hnd) as (Hl2 & Hc2 & Ht2 & Ho2).
    { intros n Hn. rewrite Ho1; [apply Hp; by right|]. by intros ->. }
    { intros n o s' Hn. apply Hr. by right. }
    split_and!.
    + by rewrite Hl2, Hl1, <- app_assoc.
    + rewrite Hc2, Hc1. lia.
    + intros [|j] n Hj; simpl in Hj.
      * injection Hj as <-. by rewrite Ho2, Hx1, Nat.add_0_r.
      * rewrite (Ht2 j n Hj), Hc1. do 2 f_equal. lia.
    + intros n Hn. apply not_elem_of_cons in Hn as [Hne Hn].
      by rewrite Ho2, Ho1.
Qed.

(** X4: the first poll of a behavior (empty [loaded], no tags under its
    key) whose enter action does not return [false] on the matching
    elements, and does not call back into the engine, enters exactly the
    elements of the query result: [loaded] becomes that list in document
    order, the counter advances by its length, and the element at position
    [j] carries the tag with id [cid + j] and the selector of the
    behavior. *)
Theorem first_poll_enters_query be s :
  tame be →
  NoDup (nodes (document s)) →
  loaded_of (key be) s = [] →
  (∀ n, n ∈ query (document s) (selector be) → prop n (key be) s = None) →
  (∀ n o s', n ∈ query (document s) (selector be) → (init be n o s').2 = RetOther) →
  loaded_of (key be) (poll_closure be s) =
    Some <$> query (document s) (selector be) ∧
  cid (poll_closure be s) = cid s + length (query (document s) (selector be)) ∧
  (∀ j n, query (document s) (selector be) !! j = Some n →
     prop n (key be) (poll_closure be s) = Some (mkTag (cid s + j) (selector be))).
Proof.
  intros Ht Hnd Hl Hp Hr. unfold poll_closure, eachOf, each, each_loaded.
  rewrite Hl. simpl.
  destruct (enter_pass_fresh be (query (document s) (selector be)) 0 s Ht)
    as (Hl' & Hc & Htag & _); try done.
  { by apply NoDup_query. }
  rewrite Hl' , Hl. done.
Qed.

(** The first poll of the sample behavior on the sample tree. *)
Lemma first_poll_enters_query_witness :
  loaded_of 1 Sample.store0 = [] ∧
  loaded_of 1 (poll_closure Sample.be_x Sample.store0) = [Some 1; Some 2].
Proof.
  split; [done|].
  refine (proj1 (first_poll_enters_query Sample.be_x Sample.store0
    (quiet_tame _ quiet_be_x) NoDup_sample_nodes eq_refl _ _)).
  - by intros n _.
  - by intros n o s' _.
Defined.

(** ** The counter and the successful enter invocations *)

Lemma entered_ids_doExit be el i s :
  tame be → entered_ids (log (doExit be el i s)) = entered_ids (log s).
Proof.
  intros Ht. destruct (log_doExit be el i s Ht) as [s1 ->].
  unfold entered_ids. rewrite omap_app.
  destruct (exit be); simpl; by rewrite app_nil_r.
Qed.

(** X5: as long as no callback calls back into the engine, [cid] is the
    number of enter invocations that did not return [false], and the ids
    they were given are 0, 1, 2, ... in the order of the invocations,
    without a gap. *)
Theorem entered_ids_count d l :
  Forall tame_action l →
  entered_ids (log (run l (initial d)).2) = seq 0 (cid (run l (initial d)).2).
Proof.
  intros Hl.
  apply (inv_run (λ _ s, entered_ids (log s) = seq 0 (cid s))); try done.
  - intros R be el s _ _ Ht Hs.
    destruct (visitEnter_tame be el s Ht) as [d' ->].
    destruct (prop el (key be) s); [done|]. cbv zeta.
    destruct (init be el _ s).2; simpl.
    + unfold entered_ids in *. rewrite omap_app. simpl. by rewrite app_nil_r.
    + unfold entered_ids in *. rewrite omap_app, Hs.
      change (0 :: seq 1 (cid s)) with (seq 0 (S (cid s))).
      by rewrite seq_S.
  - intros R be el i s _ _ Ht _ Hs. by rewrite entered_ids_doExit, cid_doExit.
  - intros R be el s _ _ Ht Hs. by rewrite entered_ids_doExit, cid_doExit.
  - apply world_ok_initial.
Qed.

(** A registration and a poll that enters two elements. *)
Lemma entered_ids_count_witness :
  Forall tame_action Sample.plain_run ∧
  entered_ids (log (run Sample.plain_run (initial Sample.tree)).2) = [0; 1].
Proof.
  split; [apply tame_plain_run|].
  rewrite (entered_ids_count Sample.tree Sample.plain_run tame_plain_run).
  by vm_compute.
Defined.

(** ** Elements in the [loaded] arrays *)

Lemma indexOf_Some l el i :
  indexOf l el = Some i →
  l !! i = Some (Some el) ∧ ∀ j, j < i → l !! j ≠ Some (Some el).
Proof.
  revert i. induction l as [|x l IH]; intros i; simpl; [done|].
  case_decide as Hx.
  - intros [= <-]. split; [by subst x|]. intros j Hj. lia.
  - destruct (indexOf l el) as [i'|]; simpl; [|done].
    intros [= <-]. destruct (IH i' eq_refl) as [Hi Hlt]. split; [done|].
    intros [|j] Hj; simpl; [congruence|]. apply Hlt. lia.
Qed.

Lemma indexOf_None l el : indexOf l el = None → Some el ∉ l.
Proof.
  induction l as [|x l IH]; simpl; [intros _; apply not_elem_of_nil|].
  case_decide as Hx; [done|].
  destruct (indexOf l el); simpl; [done|]. intros _.
  apply not_elem_of_cons. split; [congruence|by apply IH].
Qed.

Lemma loaded_doExit be el i s :
  tame be →
  loaded (doExit be el i s) =
  loaded (tombstone (key be)
            match i with
            | Some i => Some i
            | None => indexOf (loaded_of (key be) s) el
            end s).
Proof.
  intros Ht. destruct (doExit_tame be el i s Ht) as [d ->]. cbv zeta.
  destruct (exit be) as [f|]; [|done].
  by destruct (f el _ _).2.
Qed.

Lemma live_tombstone kb io k n j s :
  live k n j (tombstone kb io s) →
  live k n j s ∧ (k = kb → io ≠ Some j).
Proof.
  unfold live. destruct io as [i|]; simpl; [|by auto].
  rewrite loaded_of_set_loaded. case_decide as Hk.
  - subst k. intros [Hij Hj]%array_set_live. split; [done|]. congruence.
  - intros Hj. split; [done|]. congruence.
Qed.

(** [doExit] keeps [live_once] when it is called on the slot that holds the
    element, or finds that slot itself. *)
Lemma live_once_doExit be el i s :
  tame be →
  match i with
  | Some i => loaded_at (key be) i s = Some el
  | None => True
  end →
  live_once s → live_once (doExit be el i s).
Proof.
  intros Ht Hi [Hu Htag].
  set (io := match i with
             | Some i => Some i
             | None => indexOf (loaded_of (key be) s) el
             end).
  assert (∀ k n j, live k n j (doExit be el i s) →
            live k n j s ∧ (k = key be → io ≠ Some j)) as Hback.
  { intros k n j. unfold live, loaded_of. rewrite loaded_doExit by done.
    apply live_tombstone. }
  assert (match io with
          | Some i' => live (key be) el i' s
          | None => Some el ∉ loaded_of (key be) s
          end) as Hio.
  { subst io. destruct i as [i|].
    - unfold live, loaded_at in *.
      destruct (loaded_of (key be) s !! i) as [[x|]|]; simpl in Hi; congruence.
    - destruct (indexOf (loaded_of (key be) s) el) as [i'|] eqn:E.
      + by apply indexOf_Some in E as [? _].
      + by apply indexOf_None. }
  split.
  - intros k n j1 j2 [H1 _]%Hback [H2 _]%Hback. by eapply Hu.
  - intros k n j Hj. apply Hback in Hj as [Hj Hne].
    destruct (Htag k n j Hj) as [t Hn]. unfold prop in *.
    destruct (props_doExit be el i s Ht) as [-> | ->]; [by eexists|].
    destruct (decide ((el, key be) = (n, k))) as [[= <- <-]|Hd].
    + exfalso. destruct io as [i'|].
      * assert (j = i') by (by eapply Hu). subst i'. by apply Hne.
      * apply Hio. by eapply list_elem_of_lookup_2.
    + rewrite lookup_delete_ne by done. by eexists.
Qed.

Lemma live_once_visitEnter be el s :
  tame be → live_once s → live_once (visitEnter be el s).
Proof.
  intros Ht [Hu Htag].
  destruct (prop el (key be) s) as [t|] eqn:Hp.
  { unfold visitEnter. by rewrite Hp. }
  destruct (init be el (mkTag (cid s) (selector be)) s).2 eqn:Hr.
  { destruct (visitEnter_tame be el s Ht) as [d ->]. rewrite Hp. cbv zeta.
    by rewrite Hr. }
  destruct (visitEnter_enters be el s Ht Hp Hr) as (Hl & _ & Hx & Ho).
  assert (∀ k n j, live k n j (visitEnter be el s) →
            live k n j s ∨
            (k = key be ∧ n = el ∧ j = length (loaded_of (key be) s))) as Hback.
  { intros k n j. unfold live. destruct (decide (k = key be)) as [->|Hk].
    - rewrite Hl. intros [?|[? Hlast]]%lookup_app_Some; [by left|].
      apply list_lookup_singleton_Some in Hlast as [? [= <-]].
      right. split_and!; [done..|lia].
    - rewrite loaded_of_visitEnter_ne by done. by left. }
  assert (∀ j, ¬ live (key be) el j s) as Hfresh.
  { intros j Hj. apply Htag in Hj as [? ?]. congruence. }
  split.
  - intros k n j1 j2 [H1|(-> & -> & ->)]%Hback [H2|(? & ? & ?)]%Hback.
    + by eapply Hu.
    + subst. by apply Hfresh in H1.
    + by apply Hfresh in H2.
    + done.
  - intros k n j [Hj|(-> & -> & ->)]%Hback; [|by rewrite Hx].
    destruct (decide ((n, k) = (el, key be))) as [[= -> ->]|Hne];
      [by rewrite Hx|].
    rewrite prop_visitEnter_ne by done. by eapply Htag.
Qed.

(** X6: as long as no callback calls back into the engine, no element
    holds two slots of the [loaded] array of a behavior, and every element
    that holds a slot carries the state tag of that behavior. *)
Theorem loaded_elements_once d l :
  Forall tame_action l →
  live_once (run l (initial d)).2.
Proof.
  intros Hl. apply (inv_run (λ _ s, live_once s)); try done.
  - intros R be el s _ _ Ht Hs. by apply live_once_visitEnter.
  - intros R be el i s _ _ Ht Hi Hs. by apply live_once_doExit.
  - intros R be el s _ _ Ht Hs. by apply live_once_doExit.
  - apply world_ok_initial.
Qed.

(** After a registration and a poll: element [1] holds slot 0 and is
    tagged. *)
Lemma loaded_elements_once_witness :
  Forall tame_action Sample.plain_run ∧
  is_Some (prop 1 1 (run Sample.plain_run (initial Sample.tree)).2).
Proof.
  split; [apply tame_plain_run|].
  apply (proj2 (loaded_elements_once Sample.tree Sample.plain_run tame_plain_run) 1 1 0).
  by vm_compute.
Defined.

(** ** The state handed to the exit action *)

Lemma snoc_split {A} (l l1 l2 : list A) (e x : A) :
  l ++ [e] = l1 ++ x :: l2 →
  (∃ l2', l2 = l2' ++ [e] ∧ l = l1 ++ x :: l2') ∨ (l2 = [] ∧ x = e ∧ l1 = l).
Proof.
  destruct l2 as [|y l2 _] using rev_ind.
  - intros H. apply app_inj_tail in H as [-> ->]. by right.
  - intros H. left. exists l2.
    change (l1 ++ x :: l2 ++ [y]) with (l1 ++ (x :: l2) ++ [y]) in H.
    rewrite app_assoc in H. apply app_inj_tail in H as [-> ->]. done.
Qed.

Lemma tokens_traced_visitEnter be el s :
  tame be → tokens_traced s → tokens_traced (visitEnter be el s).
Proof.
  intros Ht [Htag Hexit].
  assert (∀ e, (∀ k' el' t' r', e ≠ EvExit k' el' t' r') →
    ∀ l1 l2 k0 el0 t r, log s ++ [e] = l1 ++ EvExit k0 el0 (Some t) r :: l2 →
      EvInit k0 el0 t RetOther ∈ l1) as Hsnoc.
  { intros e He l1 l2 k0 el0 t r [(l2' & _ & Hl)|(_ & Hx & _)]%snoc_split.
    - by eapply Hexit.
    - symmetry in Hx. by apply He in Hx. }
  destruct (visitEnter_tame be el s Ht) as [d ->].
  destruct (prop el (key be) s) eqn:Hp; [done|]. cbv zeta.
  destruct (init be el _ s).2; split; simpl.
  - intros el' k t H. apply elem_of_app. left. by apply Htag.
  - by apply Hsnoc.
  - unfold prop. simpl. intros el' k t [[[= <- <-] <-]|[_ H]]%lookup_insert_Some.
    + apply elem_of_app. right. by left.
    + apply elem_of_app. left. by apply Htag.
  - by apply Hsnoc.
Qed.

Lemma tokens_traced_doExit be el i s :
  tame be → tokens_traced s → tokens_traced (doExit be el i s).
Proof.
  intros Ht [Htag Hexit].
  destruct (log_doExit be el i s Ht) as [s1 Hlog].
  assert (∀ e, e ∈ log s → e ∈ log (doExit be el i s)) as Hkeep.
  { intros e He. rewrite Hlog. apply elem_of_app. by left. }
  split.
  - intros el' k t H. apply Hkeep, Htag. unfold prop in *.
    destruct (props_doExit be el i s Ht) as [Hp|Hp]; rewrite Hp in H; [done|].
    by apply lookup_delete_Some in H as [_ ?].
  - rewrite Hlog. destruct (exit be) as [f|].
    + intros l1 l2 k0 el0 t r [(l2' & _ & Hl)|(_ & Hx & ->)]%snoc_split.
      * by eapply Hexit.
      * injection Hx as -> -> Hst _. by apply Htag.
    + rewrite app_nil_r. apply Hexit.
Qed.

(** X7: as long as no callback calls back into the engine, the state an
    exit action receives, when it is not [undefined], is the token that was
    handed to an earlier enter invocation on the same element for the same
    behavior, one that did not return [false]; and every state tag on an
    element is such a token. *)
Theorem exit_state_is_enter_token d l :
  Forall tame_action l →
  tokens_traced (run l (initial d)).2.
Proof.
  intros Hl. apply (inv_run (λ _ s, tokens_traced s)); try done.
  - intros R be el s _ _ Ht Hs. by apply tokens_traced_visitEnter.
  - intros R be el i s _ _ Ht _ Hs. by apply tokens_traced_doExit.
  - intros R be el s _ _ Ht Hs. by apply tokens_traced_doExit.
  - apply world_ok_initial.
  - split; simpl.
    + intros el k t H. unfold prop in H. simpl in H. by rewrite lookup_empty in H.
    + intros [|? l1] l2 k el t r H; simpl in H; discriminate.
Qed.

(** After a registration and a poll: the tag of element [1] is the token
    of a logged enter invocation. *)
Lemma exit_state_is_enter_token_witness :
  Forall tame_action Sample.plain_run ∧
  EvInit 1 1 (mkTag 0 ".x") RetOther ∈ log (run Sample.plain_run (initial Sample.tree)).2.
Proof.
  split; [apply tame_plain_run|].
  apply (proj1 (exit_state_is_enter_token Sample.tree Sample.plain_run tame_plain_run)).
  by vm_compute.
Defined.

(** ** Exit processing without an index *)

(** X8: [doExit (el)] called without an index, as the observer callback
    does, looks the element up itself.  When the element holds one slot of
    [loaded], that slot becomes a tombstone and the element is no longer in
    the list, while every other element keeps its slot; when the element
    is not in the list, the list is left as it is. *)
Theorem doExit_without_index be el s :
  tame be →
  (∀ i j, live (key be) el i s → live (key be) el j s → i = j) →
  (Some el ∉ loaded_of (key be) (doExit be el None s)) ∧
  (∀ n j, n ≠ el →
     live (key be) n j (doExit be el None s) ↔ live (key be) n j s) ∧
  (Some el ∉ loaded_of (key be) s → loaded (doExit be el None s) = loaded s).
Proof.
  intros Ht Hu. unfold live, loaded_of in *. rewrite loaded_doExit by done.
  fold (loaded_of (key be) s) in *.
  destruct (indexOf (loaded_of (key be) s) el) as [i|] eqn:E.
  - apply indexOf_Some in E as [Hi _].
    fold (loaded_of (key be) (tombstone (key be) (Some i) s)).
    rewrite loaded_of_tombstone.
    assert (i < length (loaded_of (key be) s)) as Hlt by (by eapply lookup_lt_Some).
    unfold array_set. rewrite decide_True by done. split_and!.
    + intros [j Hj]%list_elem_of_lookup.
      destruct (decide (i = j)) as [->|Hij].
      * rewrite list_lookup_insert_eq in Hj by done. congruence.
      * rewrite list_lookup_insert_ne in Hj by done.
        apply Hij. by apply Hu.
    + intros n j Hn. destruct (decide (i = j)) as [->|Hij].
      * rewrite list_lookup_insert_eq by done. rewrite Hi.
        split; intros [=]; congruence.
      * by rewrite list_lookup_insert_ne.
    + intros Hn. exfalso. apply Hn. by eapply list_elem_of_lookup_2.
  - apply indexOf_None in E. simpl. split_and!; done.
Qed.

(** The observer path on the entered element [1] of the sample behavior. *)
Lemma doExit_without_index_witness :
  loaded_of 1 (doExit Sample.be_x 1 None (poll Sample.reg_x None Sample.store0).1) =
    [None; Some 2] ∧
  Some 1 ∉ loaded_of 1 (doExit Sample.be_x 1 None (poll Sample.reg_x None Sample.store0).1).
Proof.
  split; [by vm_compute|].
  apply (doExit_without_index Sample.be_x 1 (poll Sample.reg_x None Sample.store0).1
    (quiet_tame _ quiet_be_x)).
  intros i j. vm_compute.
  destruct i as [|[|[|i]]], j as [|[|[|j]]]; simpl; congruence.
Defined.

(** ** Elements that are tagged but no longer tracked *)

Lemma loaded_of_visitEnter_tame be el s :
  tame be →
  loaded_of (key be) (visitEnter be el s) = loaded_of (key be) s ∨
  loaded_of (key be) (visitEnter be el s) = loaded_of (key be) s ++ [Some el].
Proof.
  intros Ht. destruct (visitEnter_tame be el s Ht) as [d ->].
  destruct (prop el (key be) s); [by left|]. cbv zeta.
  destruct (init be el _ s).2; [by left|]. right.
  unfold loaded_of. simpl. by rewrite lookup_insert_eq.
Qed.

Lemma counts_visitEnter_other be el n s :
  tame be → el ≠ n →
  init_calls (key be) n (log (visitEnter be el s)) = init_calls (key be) n (log s) ∧
  exit_calls (key be) n (log (visitEnter be el s)) = exit_calls (key be) n (log s).
Proof.
  intros Ht Hne. rewrite log_visitEnter by done.
  destruct (prop el (key be) s); [by rewrite app_nil_r|].
  rewrite init_calls_snoc, exit_calls_snoc. simpl.
  rewrite bool_decide_eq_false_2 by (intros [_ ?]; done). lia.
Qed.

Lemma counts_doExit_other be el i n s :
  tame be → el ≠ n →
  init_calls (key be) n (log (doExit be el i s)) = init_calls (key be) n (log s) ∧
  exit_calls (key be) n (log (doExit be el i s)) = exit_calls (key be) n (log s).
Proof.
  intros Ht Hne. destruct (log_doExit be el i s Ht) as [s1 ->].
  destruct (exit be); [|by rewrite app_nil_r].
  rewrite init_calls_snoc, exit_calls_snoc. simpl.
  rewrite bool_decide_eq_false_2 by (intros [_ ?]; done). lia.
Qed.

Lemma poll_closure_leaves_untracked be n s :
  tame be →
  is_Some (prop n (key be) s) →
  Some n ∉ loaded_of (key be) s →
  prop n (key be) (poll_closure be s) = prop n (key be) s ∧
  (Some n ∉ loaded_of (key be) (poll_closure be s)) ∧
  init_calls (key be) n (log (poll_closure be s)) = init_calls (key be) n (log s) ∧
  exit_calls (key be) n (log (poll_closure be s)) = exit_calls (key be) n (log s).
Proof.
  intros Ht Htag Hn. unfold poll_closure, eachOf.
  set (P := λ s', prop n (key be) s' = prop n (key be) s ∧
    (Some n ∉ loaded_of (key be) s') ∧
    init_calls (key be) n (log s') = init_calls (key be) n (log s) ∧
    exit_calls (key be) n (log s') = exit_calls (key be) n (log s)).
  apply (each_inv P).
  { intros x j s' _ (Hp & Hl & Hi & He).
    destruct (decide (x = n)) as [->|Hne].
    { unfold visitEnter. rewrite Hp. by destruct Htag as [t ->]. }
    destruct (counts_visitEnter_other be x n s' Ht Hne) as [Hi' He'].
    split_and!.
    - rewrite prop_visitEnter_ne by (done || congruence). done.
    - destruct (loaded_of_visitEnter_tame be x s' Ht) as [-> | ->]; [done|].
      rewrite elem_of_app, list_elem_of_singleton. intros [?|?]; [done|congruence].
    - congruence.
    - congruence. }
  apply (each_loaded_inv P); [|by split_and!].
  intros j s' (Hp & Hl & Hi & He). unfold loaded_at.
  destruct (loaded_of (key be) s' !! j) as [[el|]|] eqn:Hj; simpl; try done.
  assert (el ≠ n) as Hne.
  { intros ->. apply Hl. by eapply list_elem_of_lookup_2. }
  unfold visitExit. repeat case_match; try done;
    destruct (counts_doExit_other be el (Some j) n s' Ht Hne) as [Hi' He'];
    (split_and!;
     [ rewrite prop_doExit_ne by (done || congruence); done
     | rewrite loaded_of_doExit, decide_True by done;
       intros [j' Hj']%list_elem_of_lookup; apply array_set_live in Hj' as [_ Hj'];
       apply Hl; by eapply list_elem_of_lookup_2
     | congruence
     | congruence ]).
Qed.

(** X9: an element that carries the state tag of a behavior but holds no
    slot of its [loaded] array (the state [doExit] leaves behind when there
    is no exit action, or when the exit action returns [false]) is ignored
    by every later poll of the behavior: whatever happens to the tree, the
    enter action is not invoked on it again, nor the exit action, and the
    tag stays. *)
Theorem tagged_untracked_is_ignored be n s m :
  tame be →
  is_Some (prop n (key be) s) →
  Some n ∉ loaded_of (key be) s →
  prop n (key be) (Nat.iter m (poll_closure be) s) = prop n (key be) s ∧
  init_calls (key be) n (log (Nat.iter m (poll_closure be) s)) =
    init_calls (key be) n (log s) ∧
  exit_calls (key be) n (log (Nat.iter m (poll_closure be) s)) =
    exit_calls (key be) n (log s).
Proof.
  intros Ht Htag Hn.
  assert (prop n (key be) (Nat.iter m (poll_closure be) s) = prop n (key be) s ∧
    (Some n ∉ loaded_of (key be) (Nat.iter m (poll_closure be) s)) ∧
    init_calls (key be) n (log (Nat.iter m (poll_closure be) s)) =
      init_calls (key be) n (log s) ∧
    exit_calls (key be) n (log (Nat.iter m (poll_closure be) s)) =
      exit_calls (key be) n (log s)) as (? & _ & ? & ?); [|done].
  induction m as [|m (Hp & Hl & Hi & He)]; simpl; [done|].
  destruct (poll_closure_leaves_untracked be n (Nat.iter m (poll_closure be) s) Ht)
    as (Hp' & Hl' & Hi' & He'); [by rewrite Hp|done|].
  split_and!; [congruence|done|congruence|congruence].
Qed.

(** Element [1] of the behavior without exit action, after it was exited:
    back in the tree, three more polls do not enter it. *)
Lemma tagged_untracked_is_ignored_witness :
  init_calls 1 1 (log (Nat.iter 3 (poll_closure Sample.be_veto)
    (mkStore Sample.tree {[(1, 1) := mkTag 0 ".x"]} {[1 := [None]]} 1 []))) = 0.
Proof.
  refine (proj1 (proj2 (tagged_untracked_is_ignored Sample.be_veto 1
    (mkStore Sample.tree {[(1, 1) := mkTag 0 ".x"]} {[1 := [None]]} 1 []) 3
    (quiet_tame _ quiet_be_veto) _ _))).
  - by eexists.
  - vm_compute. intros H. apply list_elem_of_singleton in H. discriminate.
Defined.

(** ** Teardown, twice *)

Lemma each_loaded_loop_tombstones be i n s :
  tame be →
  i + n = length (loaded_of (key be) s) →
  loaded_of (key be)
    (each_loaded_loop (key be)
       (fun el j => match el with
                    | Some el => doExit be el (Some j)
                    | None => fun s => s
                    end) i n s) =
  take i (loaded_of (key be) s) ++ replicate n None.
Proof.
  intros Ht. revert i s. induction n as [|n IH]; intros i s Hlen; simpl.
  - rewrite take_ge by lia. by rewrite app_nil_r.
  - destruct (lookup_lt_is_Some_2 (loaded_of (key be) s) i) as [x Hx]; [lia|].
    unfold loaded_at. rewrite Hx. simpl. destruct x as [el|].
    + rewrite IH.
      * rewrite loaded_of_doExit, decide_True by done.
        unfold array_set. rewrite decide_True by lia.
        rewrite (take_S_r _ _ None) by (apply list_lookup_insert_eq; lia).
        rewrite take_insert_ge by lia. by rewrite <- app_assoc.
      * rewrite loaded_of_doExit, decide_True by done.
        unfold array_set. rewrite decide_True by lia.
        rewrite length_insert. lia.
    + rewrite IH by lia. rewrite (take_S_r _ _ None) by done.
      by rewrite <- app_assoc.
Qed.

Lemma live_from_tombstones i n : live_from i (replicate n None) = [].
Proof. revert i. induction n as [|n IH]; intros i; simpl; [done|apply IH]. Qed.

Lemma teardown_from_tombstones bs i s :
  NoDup (key <$> bs) → (∀ b, b ∈ bs → tame b) →
  (∀ b, b ∈ bs →
     loaded_of (key b)
       (each_from i bs (fun be _ =>
          each_loaded (key be) (fun el j =>
            match el with
            | Some el => doExit be el (Some j)
            | None => fun s => s
            end)) s) =
     replicate (length (loaded_of (key b) s)) None) ∧
  (∀ k, k ∉ key <$> bs →
     loaded_of k
       (each_from i bs (fun be _ =>
          each_loaded (key be) (fun el j =>
            match el with
            | Some el => doExit be el (Some j)
            | None => fun s => s
            end)) s) =
     loaded_of k s).
Proof.
  revert i s. induction bs as [|be bs IH]; intros i s Hnd Ht; simpl.
  { split; [|done]. intros b Hb. by apply elem_of_nil in Hb. }
  rewrite fmap_cons in Hnd. apply NoDup_cons in Hnd as [Hbe Hnd].
  assert (tame be) as Htbe by (apply Ht; by left).
  set (s' := each_loaded (key be) _ s).
  assert (loaded_of (key be) s' = replicate (length (loaded_of (key be) s)) None) as Hown.
  { unfold s', each_loaded. by rewrite each_loaded_loop_tombstones. }
  assert (∀ k, key be ≠ k → loaded_of k s' = loaded_of k s) as Hother.
  { intros k Hk. unfold s'. rewrite each_loaded_exit by done.
    by apply loaded_of_exit_entries. }
  destruct (IH (S i) s' Hnd) as [IHin IHout].
  { intros b Hb. apply Ht. by right. }
  split.
  - intros b [->|Hb]%elem_of_cons.
    + by rewrite IHout, Hown.
    + rewrite (IHin b Hb). rewrite Hother; [done|].
      intros Heq. apply Hbe. rewrite Heq. by apply list_elem_of_fmap_2.
  - intros k [Hk Hks]%not_elem_of_cons. rewrite IHout by done.
    by apply Hother.
Qed.

(** X10: after [teardown] every slot of the [loaded] array of every
    registered behavior is a tombstone, so a second [teardown] finds
    nothing to exit and leaves the store as it is: no exit action is
    invoked twice by tearing down twice. *)
Theorem teardown_twice R s :
  NoDup (key <$> behaviors R) →
  (∀ b, b ∈ behaviors R → tame b) →
  (∀ b, b ∈ behaviors R →
     loaded_of (key b) (teardown R s) =
     replicate (length (loaded_of (key b) s)) None) ∧
  live_entries R (teardown R s) = [] ∧
  teardown R (teardown R s) = teardown R s.
Proof.
  intros Hnd Ht.
  destruct (teardown_from_tombstones (behaviors R) 0 s Hnd Ht) as [Hin _].
  fold (each (behaviors R)) in Hin.
  assert (live_entries R (teardown R s) = []) as Hlive.
  { unfold live_entries.
    assert (∀ bs, (∀ b, b ∈ bs → b ∈ behaviors R) →
              concat (live_of (teardown R s) <$> bs) = []) as Hall.
    { induction bs as [|b bs IH]; intros Hsub; [done|].
      rewrite fmap_cons. change (concat (?x :: ?l)) with (x ++ concat l).
      rewrite IH by (intros b' Hb'; apply Hsub; by right).
      unfold live_of, teardown. rewrite Hin by (apply Hsub; by left).
      by rewrite live_from_tombstones. }
    by apply Hall. }
  split_and!; [done|done|].
  unfold teardown at 1, each. rewrite teardown_from by done.
  fold (live_entries R (teardown R s)). by rewrite Hlive.
Qed.

(** Two behaviors, three entered elements, torn down twice. *)
Lemma teardown_twice_witness :
  NoDup (key <$> behaviors Sample.reg_xy) ∧
  exit_trace (log (teardown Sample.reg_xy
    (teardown Sample.reg_xy (poll Sample.reg_xy None Sample.store0).1))) =
  exit_trace (log (teardown Sample.reg_xy (poll Sample.reg_xy None Sample.store0).1)).
Proof.
  assert (NoDup (key <$> behaviors Sample.reg_xy)) as Hnd by apply wf_reg_xy.
  split; [done|].
  by rewrite (proj2 (proj2 (teardown_twice Sample.reg_xy
    (poll Sample.reg_xy None Sample.store0).1 Hnd tame_reg_xy))).
Defined.

(** ** Polls and detached elements *)

Lemma visitExit_run be el i L s :
  exit_eligible be L (document s) el →
  visitExit be (Some el) i L s = doExit be el (Some i) s.
Proof.
  unfold exit_eligible, visitExit. destruct (detectMutate be).
  - intros H%has_false. by rewrite H.
  - intros H%isAttached_false. by rewrite H.
Qed.

Lemma visitExit_skip be el i L s :
  ¬ exit_eligible be L (document s) el →
  visitExit be (Some el) i L s = s.
Proof.
  unfold exit_eligible, visitExit. destruct (detectMutate be).
  - intros H. destruct (has L el) eqn:E; [done|].
    apply has_false in E. by destruct H.
  - intros H. destruct (isAttached (document s) el) eqn:E; [done|].
    apply isAttached_false in E. by destruct H.
Qed.

Lemma eligible_not_in_query be d el :
  exit_eligible be (query d (selector be)) d el → el ∉ query d (selector be).
Proof.
  unfold exit_eligible. destruct (detectMutate be); [done|].
  intros Hr Hin. apply elem_of_query in Hin as (_ & ? & _). by apply Hr.
Qed.

Lemma in_query_not_eligible be d el :
  el ∈ query d (selector be) → ¬ exit_eligible be (query d (selector be)) d el.
Proof. intros Hin He. by apply eligible_not_in_query in He. Qed.

(** A property indexed by the position of the loop. *)
Lemma each_loaded_loop_inv_at (P : nat → Store → Prop) k fn i n s :
  (∀ j s', i ≤ j < i + n → P j s' → P (S j) (fn (loaded_at k j s') j s')) →
  P i s → P (i + n) (each_loaded_loop k fn i n s).
Proof.
  revert i s. induction n as [|n IH]; intros i s Hstep Hs; simpl.
  - by rewrite Nat.add_0_r.
  - replace (i + S n) with (S i + n) by lia. apply IH.
    + intros j s' Hj. apply Hstep. lia.
    + apply Hstep; [lia|done].
Qed.

Lemma each_loaded_loop_id k fn i n s :
  (∀ j, fn (loaded_at k j s) j s = s) → each_loaded_loop k fn i n s = s.
Proof.
  intros Hid. revert i. induction n as [|n IH]; intros i; simpl; [done|].
  by rewrite Hid.
Qed.

Lemma each_from_id {A} (l : list A) fn i s :
  (∀ x j, x ∈ l → fn x j s = s) → each_from i l fn s = s.
Proof.
  revert i. induction l as [|x l IH]; intros i Hid; simpl; [done|].
  rewrite Hid by (by left). apply IH. intros y j Hy. apply Hid. by right.
Qed.

Lemma exit_calls_visitEnter be el n s :
  tame be →
  exit_calls (key be) n (log (visitEnter be el s)) = exit_calls (key be) n (log s).
Proof.
  intros Ht. rewrite log_visitEnter by done.
  destruct (prop el (key be) s); [by rewrite app_nil_r|].
  rewrite exit_calls_snoc. simpl. lia.
Qed.

Lemma document_visitExit be x i L s :
  quiet be → document (visitExit be x i L s) = document s.
Proof.
  intros Hq. unfold visitExit. repeat case_match; try done; by apply document_doExit.
Qed.

Lemma absent_doExit_other be el i n s :
  tame be →
  Some n ∉ loaded_of (key be) s →
  Some n ∉ loaded_of (key be) (doExit be el (Some i) s).
Proof.
  intros Ht Hn. rewrite loaded_of_doExit, decide_True by done.
  intros [j Hj]%list_elem_of_lookup. apply array_set_live in Hj as [_ Hj].
  apply Hn. by eapply list_elem_of_lookup_2.
Qed.

Lemma visitExit_keeps_slot be x j L n j0 s :
  tame be → j ≠ j0 →
  live (key be) n j0 s → live (key be) n j0 (visitExit be x j L s).
Proof.
  intros Ht Hne Hl. unfold live in *.
  assert (loaded_of (key be) (doExit be (default 0 x) (Some j) s) !! j0 =
          Some (Some n)) as Hexit.
  { rewrite loaded_of_doExit, decide_True by done.
    pose proof (array_set_read_ne (loaded_of (key be) s) j j0 None Hne) as Hr.
    rewrite Hl in Hr. simpl in Hr.
    destruct (array_set _ _ _ !! j0) as [[?|]|]; simpl in Hr; congruence. }
  unfold visitExit. destruct x as [el|]; [|done]. simpl in Hexit.
  by repeat case_match.
Qed.

Lemma visitExit_absent be x j L n s :
  tame be →
  Some n ∉ loaded_of (key be) s →
  Some n ∉ loaded_of (key be) (visitExit be x j L s).
Proof.
  intros Ht Hn. unfold visitExit.
  repeat case_match; try done; by apply absent_doExit_other.
Qed.

Lemma visitExit_only_shrinks be x j L n j' s :
  tame be →
  live (key be) n j' (visitExit be x j L s) → live (key be) n j' s.
Proof.
  intros Ht. unfold live, visitExit. repeat case_match; try done;
    rewrite loaded_of_doExit, decide_True by done;
    by intros [_ ?]%array_set_live.
Qed.

Lemma exit_calls_visitExit_other be x j L n s :
  tame be → x ≠ Some n →
  exit_calls (key be) n (log (visitExit be x j L s)) =
  exit_calls (key be) n (log s).
Proof.
  intros Ht Hx. unfold visitExit. destruct x as [el|]; [|done].
  assert (el ≠ n) as Hel by congruence.
  repeat case_match; try done; by apply counts_doExit_other.
Qed.

Section ExitOnce.
Variables (be : Behavior) (f : ExitFn) (n : Node) (j0 : nat) (s : Store).
Hypothesis Hq : quiet be.
Hypothesis Hexit : exit be = Some f.
Hypothesis Hlive : live (key be) n j0 s.
Hypothesis Hone : ∀ j, live (key be) n j s → j = j0.
Hypothesis Helig :
  exit_eligible be (query (document s) (selector be)) (document s) n.

Lemma exit_pass_exits_once :
  let s' := each_loaded (key be)
    (fun element i => visitExit be element i (query (document s) (selector be))) s in
  document s' = document s ∧
  (Some n ∉ loaded_of (key be) s') ∧
  exit_calls (key be) n (log s') = S (exit_calls (key be) n (log s)).
Proof.
  pose proof (quiet_tame _ Hq) as Ht.
  set (L := query (document s) (selector be)).
  set (c := exit_calls (key be) n (log s)).
  set (P := λ j s', document s' = document s ∧
    ((j ≤ j0 ∧ live (key be) n j0 s' ∧
      (∀ j', live (key be) n j' s' → j' = j0) ∧
      exit_calls (key be) n (log s') = c) ∨
     (j0 < j ∧ (Some n ∉ loaded_of (key be) s') ∧
      exit_calls (key be) n (log s') = S c))).
  assert (∀ j s', P j s' → P (S j) (visitExit be (loaded_at (key be) j s') j L s'))
    as Hstep.
  { intros j s' [Hd [(Hj & Hl & Hu & Hc)|(Hj & Hl & Hc)]];
      (split; [by rewrite document_visitExit|]).
    - destruct (decide (j = j0)) as [->|Hne].
      + right. replace (loaded_at (key be) j0 s') with (Some n)
          by (unfold loaded_at; by rewrite Hl).
        rewrite visitExit_run by (by rewrite Hd).
        split_and!; [lia| |].
        * rewrite loaded_of_doExit, decide_True by done.
          intros [j' Hj']%list_elem_of_lookup.
          apply array_set_live in Hj' as [Hij Hj']. by apply Hu in Hj'.
        * destruct (log_doExit be n (Some j0) s' Ht) as [s1 ->].
          rewrite Hexit, exit_calls_snoc. simpl.
          rewrite bool_decide_eq_true_2 by done. lia.
      + left. assert (loaded_at (key be) j s' ≠ Some n) as Hx.
        { unfold loaded_at. intros Hx. apply Hne, Hu. unfold live.
          destruct (loaded_of (key be) s' !! j) as [[?|]|]; simpl in Hx; congruence. }
        split_and!.
        * lia.
        * by apply visitExit_keeps_slot.
        * intros j' Hj'. apply Hu. by eapply visitExit_only_shrinks.
        * by rewrite exit_calls_visitExit_other.
    - right. assert (loaded_at (key be) j s' ≠ Some n) as Hx.
      { unfold loaded_at. intros Hx. apply Hl.
        destruct (loaded_of (key be) s' !! j) as [[?|]|] eqn:E; simpl in Hx;
          try congruence.
        eapply list_elem_of_lookup_2. by rewrite E, Hx. }
      split_and!.
      + lia.
      + by apply visitExit_absent.
      + by rewrite exit_calls_visitExit_other. }
  assert (P (0 + length (loaded_of (key be) s))
            (each_loaded_loop (key be) (fun element i => visitExit be element i L)
               0 (length (loaded_of (key be) s)) s)) as [Hd Hend].
  { apply (each_loaded_loop_inv_at P).
    - intros j s' _. apply Hstep.
    - split; [done|]. left. split_and!; [lia|done|done|done]. }
  simpl. unfold each_loaded. fold L. split; [done|].
  destruct Hend as [(Hj & _)|(_ & ? & ?)]; [|done].
  apply lookup_lt_Some in Hlive. lia.
Qed.

Lemma poll_exits_once :
  (Some n ∉ loaded_of (key be) (poll_closure be s)) ∧
  exit_calls (key be) n (log (poll_closure be s)) =
    S (exit_calls (key be) n (log s)).
Proof.
  pose proof (quiet_tame _ Hq) as Ht.
  destruct exit_pass_exits_once as (Hd & Hn & Hc).
  unfold poll_closure, eachOf.
  apply (each_inv (λ s', (Some n ∉ loaded_of (key be) s') ∧
    exit_calls (key be) n (log s') = S (exit_calls (key be) n (log s))));
    [|done].
  intros x j s' Hx [Hn' Hc']. split.
  - destruct (loaded_of_visitEnter_tame be x s' Ht) as [-> | ->]; [done|].
    rewrite elem_of_app, list_elem_of_singleton. intros [?|[= <-]]; [done|].
    by apply eligible_not_in_query in Helig.
  - by rewrite exit_calls_visitEnter.
Qed.
End ExitOnce.

(** X11: when an element that holds one slot of [loaded] has dropped out
    (it is no longer attached or, under [detectMutate], no longer in the
    query result), the next poll of the behavior calls the exit action on
    it exactly once and takes it out of [loaded]; the exit action is not
    called on an element of the query result; and one more poll does not
    call the exit action on the dropped element again. *)
Theorem poll_exits_dropped_once be f n j0 s :
  quiet be →
  exit be = Some f →
  live (key be) n j0 s →
  (∀ j, live (key be) n j s → j = j0) →
  exit_eligible be (query (document s) (selector be)) (document s) n →
  exit_calls (key be) n (log (poll_closure be s)) =
    S (exit_calls (key be) n (log s)) ∧
  (Some n ∉ loaded_of (key be) (poll_closure be s)) ∧
  (∀ m, m ∈ query (document s) (selector be) →
     exit_calls (key be) m (log (poll_closure be s)) =
     exit_calls (key be) m (log s)) ∧
  exit_calls (key be) n (log (poll_closure be (poll_closure be s))) =
    exit_calls (key be) n (log (poll_closure be s)).
Proof.
  intros Hq Hexit Hlive Hone Helig.
  destruct (poll_exits_once be f n j0 s Hq Hexit Hlive Hone Helig) as [Hn Hc].
  split_and!; [done|done| |].
  - intros m Hm. unfold poll_closure, eachOf.
    apply (each_inv (λ s', exit_calls (key be) m (log s') =
      exit_calls (key be) m (log s))).
    + intros x j s' _ <-. by rewrite exit_calls_visitEnter.
    + pose proof (exit_pass_view be m Hq s Hm) as Hv.
      by apply view_inv in Hv as (_ & _ & _ & ?).
  - by apply poll_closure_no_exit_of_absent.
Qed.

(** Element [1] is entered, removed from the tree, and polled. *)
Lemma poll_exits_dropped_once_witness :
  exit_calls 1 1 (log (poll_closure Sample.be_x
    (set_document Sample.tree_without_1 (poll_closure Sample.be_x Sample.store0)))) = 1.
Proof.
  refine (proj1 (poll_exits_dropped_once Sample.be_x Sample.leave 1 0
    (set_document Sample.tree_without_1 (poll_closure Sample.be_x Sample.store0))
    quiet_be_x eq_refl _ _ _)).
  - by vm_compute.
  - intros j. vm_compute. destruct j as [|[|[|j]]]; simpl; congruence.
  - unfold exit_eligible. simpl. apply isAttached_false. by vm_compute.
Defined.

(** ** Polling again *)

Lemma length_loaded_visitExit be x j L s :
  tame be → j < length (loaded_of (key be) s) →
  length (loaded_of (key be) (visitExit be x j L s)) = length (loaded_of (key be) s).
Proof.
  intros Ht Hj. unfold visitExit. repeat case_match; try done;
    rewrite loaded_of_doExit, decide_True by done;
    unfold array_set; rewrite decide_True by done; apply length_insert.
Qed.

Lemma tagged_visitEnter be x n s :
  tame be →
  is_Some (prop n (key be) s) → is_Some (prop n (key be) (visitEnter be x s)).
Proof.
  intros Ht Hn. destruct (visitEnter_tame be x s Ht) as [d ->].
  destruct (prop x (key be) s); [done|]. cbv zeta.
  destruct (init be x _ s).2; [done|].
  unfold prop in *. simpl.
  destruct (decide ((x, key be) = (n, key be))) as [->|Hne].
  - rewrite lookup_insert_eq. by eexists.
  - by rewrite lookup_insert_ne.
Qed.

Lemma enter_pass_tags be (l : list Node) i s :
  tame be →
  (∀ n o s', n ∈ l → (init be n o s').2 = RetOther) →
  (∀ n, is_Some (prop n (key be) s) →
        is_Some (prop n (key be) (each_from i l (fun el _ => visitEnter be el) s))) ∧
  (∀ n, n ∈ l →
        is_Some (prop n (key be) (each_from i l (fun el _ => visitEnter be el) s))).
Proof.
  intros Ht. revert i s. induction l as [|x l IH]; intros i s Hr; simpl.
  { split; [done|]. intros n Hn. by apply elem_of_nil in Hn. }
  destruct (IH (S i) (visitEnter be x s)) as [IHkeep IHin].
  { intros n o s' Hn. apply Hr. by right. }
  split.
  - intros n Hn. by apply IHkeep, tagged_visitEnter.
  - intros n [->|Hn]%elem_of_cons; [|by apply IHin].
    apply IHkeep. destruct (prop x (key be) s) as [t|] eqn:Hp.
    + rewrite visitEnter_tagged; by rewrite Hp.
    + destruct (visitEnter_enters be x s Ht Hp) as (_ & _ & -> & _); [|done].
      apply Hr. by left.
Qed.

Section PollAgain.
Variables (be : Behavior) (s : Store).
Hypothesis Hq : quiet be.

Local Abbreviation settled := (settled be s).

Lemma exit_pass_settles :
  settled (each_loaded (key be)
    (fun element i => visitExit be element i (query (document s) (selector be))) s).
Proof.
  pose proof (quiet_tame _ Hq) as Ht.
  set (L := query (document s) (selector be)).
  set (P := λ j s', document s' = document s ∧
    length (loaded_of (key be) s') = length (loaded_of (key be) s) ∧
    ∀ j' el, j' < j → live (key be) el j' s' →
      ¬ exit_eligible be L (document s) el).
  assert (P (0 + length (loaded_of (key be) s))
            (each_loaded_loop (key be) (fun element i => visitExit be element i L)
               0 (length (loaded_of (key be) s)) s)) as (Hd & Hlen & Hall).
  { apply (each_loaded_loop_inv_at P).
    - intros j s' Hj (Hd & Hlen & Hall). split_and!.
      + by rewrite document_visitExit.
      + rewrite length_loaded_visitExit; [done|done|lia].
      + intros j' el Hj' Hlive He.
        pose proof (visitExit_only_shrinks _ _ _ _ _ _ _ Ht Hlive) as Hbefore.
        destruct (decide (j' = j)) as [->|Hne].
        * replace (loaded_at (key be) j s') with (Some el) in Hlive
            by (unfold loaded_at; by rewrite Hbefore).
          rewrite visitExit_run in Hlive by (by rewrite Hd).
          unfold live in Hlive.
          rewrite loaded_of_doExit, decide_True in Hlive by done.
          by apply array_set_live in Hlive as [? _].
        * apply (Hall j' el); [lia|done|done].
    - split_and!; [done|done|]. intros j' el Hj'. lia. }
  split; [done|]. intros j el Hlive.
  apply (Hall j el); [|done].
  apply lookup_lt_Some in Hlive. simpl. unfold each_loaded in Hlive.
  fold L in Hlive. lia.
Qed.

Lemma enter_pass_settled (l : list Node) i s' :
  (∀ x, x ∈ l → x ∈ query (document s) (selector be)) →
  settled s' → settled (each_from i l (fun el _ => visitEnter be el) s').
Proof.
  pose proof (quiet_tame _ Hq) as Ht.
  intros Hl. apply each_from_inv. intros x j s'' Hx [Hd Hall]. split.
  - by rewrite document_visitEnter.
  - intros j' el. unfold live.
    destruct (loaded_of_visitEnter_tame be x s'' Ht) as [-> | ->]; [apply Hall|].
    intros [?|[_ Hlast]]%lookup_app_Some; [by eapply Hall|].
    apply list_lookup_singleton_Some in Hlast as [_ [= <-]].
    by apply in_query_not_eligible, Hl.
Qed.

Lemma poll_closure_again :
  (∀ n o s', n ∈ query (document s) (selector be) → (init be n o s').2 = RetOther) →
  poll_closure be (poll_closure be s) = poll_closure be s.
Proof.
  pose proof (quiet_tame _ Hq) as Ht.
  intros Hr.
  assert (settled (poll_closure be s)) as [Hd Hall].
  { unfold poll_closure, eachOf, each. by apply enter_pass_settled, exit_pass_settles. }
  assert (∀ n, n ∈ query (document s) (selector be) →
            is_Some (prop n (key be) (poll_closure be s))) as Htags.
  { unfold poll_closure, eachOf, each. by apply enter_pass_tags. }
  set (s1 := poll_closure be s) in *.
  unfold poll_closure at 1. rewrite Hd. unfold eachOf, each, each_loaded.
  rewrite each_loaded_loop_id.
  - apply each_from_id. intros x j Hx. by apply visitEnter_tagged, Htags.
  - intros j. unfold loaded_at.
    destruct (loaded_of (key be) s1 !! j) as [[el|]|] eqn:Hj; simpl; try done.
    apply visitExit_skip. rewrite Hd. by eapply Hall.
Qed.
End PollAgain.

(** X12: with callbacks that leave the store as they find it and an enter
    action that does not return [false] on the matching elements, polling a
    behavior a second time right after the first changes nothing at all:
    no action is invoked, no slot, tag or counter changes.  This holds from
    any store, whatever was entered, exited or left half-exited before. *)
Theorem poll_twice_is_poll_once be s :
  quiet be →
  (∀ n o s', n ∈ query (document s) (selector be) → (init be n o s').2 = RetOther) →
  poll_closure be (poll_closure be s) = poll_closure be s.
Proof. intros Hq Hr. by apply poll_closure_again. Qed.

(** The sample behavior after element [1] was removed from the tree. *)
Lemma poll_twice_is_poll_once_witness :
  log (poll_closure Sample.be_x (poll_closure Sample.be_x
    (set_document Sample.tree_without_1 (poll_closure Sample.be_x Sample.store0)))) =
  log (poll_closure Sample.be_x
    (set_document Sample.tree_without_1 (poll_closure Sample.be_x Sample.store0))).
Proof.
  rewrite (poll_twice_is_poll_once Sample.be_x
    (set_document Sample.tree_without_1 (poll_closure Sample.be_x Sample.store0))
    quiet_be_x); [done|].
  by intros n o s' _.
Defined.

(** ** Observing and unobserving *)

Lemma filter_other (l : list nat) x :
  x ∉ l → List.filter (fun y => negb (y =? x)) l = l.
Proof.
  induction l as [|y l IH]; simpl; [done|].
  intros [Hne Hl]%not_elem_of_cons.
  destruct (Nat.eqb_spec y x) as [->|_]; [done|]. simpl. by rewrite IH.
Qed.

Lemma elem_of_filter_other (l : list nat) x p :
  p ∈ List.filter (fun y => negb (y =? x)) l ↔ p ∈ l ∧ p ≠ x.
Proof.
  rewrite !list_elem_of_In, filter_In. split; intros [Hin Hp]; (split; [done|]).
  - intros ->. by rewrite Nat.eqb_refl in Hp.
  - by destruct (Nat.eqb_spec p x).
Qed.

Lemma observers_wf_step R w op :
  observers_wf w.1 → observers_wf (observer_step R w op).1.
Proof.
  destruct w as [o s]. simpl. intros (Hlt & Hnd & Hobs). destruct op; simpl.
  - split_and!; simpl.
    + apply Forall_app. split; [|repeat constructor; lia].
      eapply Forall_impl; [done|]. simpl. lia.
    + apply NoDup_app. split_and!; [done| |apply NoDup_singleton].
      intros x Hx ->%list_elem_of_singleton.
      eapply Forall_forall in Hlt; [|done]. lia.
    + intros obs [= <-]. apply elem_of_app. right. by left.
  - unfold unobserve. destruct (observer o) as [obs|] eqn:E;
      [|split_and!; [done|done|intros ? ?; congruence]].
    split_and!; simpl.
    + apply Forall_forall. intros x [Hx _]%elem_of_filter_other.
      by eapply Forall_forall in Hlt.
    + apply NoDup_ListNoDup, List.NoDup_filter. by apply NoDup_ListNoDup.
    + done.
  - by split_and!.
Qed.

Lemma forgotten_observer_stays R w op p :
  observers_wf w.1 →
  p ∈ connected w.1 → observer w.1 ≠ Some p →
  p ∈ connected (observer_step R w op).1 ∧
  observer (observer_step R w op).1 ≠ Some p.
Proof.
  destruct w as [o s]. simpl. intros (Hlt & Hnd & Hobs) Hp Hne. destruct op; simpl in *.
  - split; [apply elem_of_app; by left|].
    intros [= <-]. eapply Forall_forall in Hlt; [|done]. lia.
  - unfold unobserve. destruct (observer o) as [obs|] eqn:E; simpl.
    + split; [|done]. apply elem_of_filter_other. split; [done|congruence].
    + split; [done|congruence].
  - by split.
Qed.

(** X13: [onmount.observe] without a [MutationObserver] does nothing, not
    even a poll, and reports it; with one it polls all behaviors and
    returns [true].  [unobserve] after [observe] leaves the observing
    objects as they were before, when [observe] had not been called
    already.  A second [observe] without an [unobserve] in between makes the
    first object unreachable: whatever calls of [observe] and [unobserve]
    follow, it keeps observing. *)
Theorem observe_unobserve R o s :
  observers_wf o →
  observe false R o s = (o, s, false) ∧
  (observe true R o s).1.2 = (onmount CallAll R s).1.2 ∧
  (observe true R o s).2 = true ∧
  (observer o = None →
     connected (unobserve (observe true R o s).1.1) = connected o ∧
     observer (unobserve (observe true R o s).1.1) = None) ∧
  (∀ p ops, observer o = Some p →
     p ∈ connected (foldl (observer_step R) (o, s) (OObserve :: ops)).1).
Proof.
  intros Hwf. split_and!; try done.
  - intros Hnone. unfold unobserve. simpl. split; [|done].
    rewrite List.filter_app. simpl. rewrite Nat.eqb_refl. simpl.
    rewrite app_nil_r. apply filter_other.
    destruct Hwf as (Hlt & _). intros Hin.
    eapply Forall_forall in Hlt; [|done]. lia.
  - intros p ops Hp.
    assert (∀ w, observers_wf w.1 → p ∈ connected w.1 → observer w.1 ≠ Some p →
              p ∈ connected (foldl (observer_step R) w ops).1) as Hrun.
    { induction ops as [|op ops IH]; intros w Hw Hin Hne; simpl; [done|].
      destruct (forgotten_observer_stays R w op p Hw Hin Hne) as [? ?].
      apply IH; [by apply observers_wf_step|done|done]. }
    simpl. apply Hrun.
    + by apply (observers_wf_step R (o, s) OObserve).
    + simpl. apply elem_of_app. left. destruct Hwf as (_ & _ & Hobs). by apply Hobs.
    + simpl. intros [= <-]. destruct Hwf as (Hlt & _ & Hobs).
      apply Hobs in Hp. eapply Forall_forall in Hlt; [|done]. lia.
Qed.

(** [observe (); observe (); unobserve ()] on the freshly loaded module:
    the first object still observes. *)
Lemma observe_unobserve_witness :
  observers_wf (mkObservers [0] (Some 0) 1) ∧
  0 ∈ connected (foldl (observer_step Sample.reg_x)
                   (mkObservers [0] (Some 0) 1, Sample.store0)
                   [OObserve; OUnobserve]).1.
Proof.
  assert (observers_wf (mkObservers [0] (Some 0) 1)) as Hwf.
  { split_and!; simpl.
    - repeat constructor.
    - apply NoDup_singleton.
    - intros obs [= <-]. by left. }
  split; [done|].
  by apply (proj2 (proj2 (proj2 (proj2 (observe_unobserve Sample.reg_x
    (mkObservers [0] (Some 0) 1) Sample.store0 Hwf)))) 0 [OUnobserve]).
Defined.

(** ** Enter and exit in turn *)

Lemma entered_now_snoc k el l e :
  entered_now k el (l ++ [e]) = entered_step k el (entered_now k el l) e.
Proof. unfold entered_now. by rewrite foldl_app. Qed.

Lemma enters_in_turn_visitEnter be el s :
  tame be → enters_in_turn s → enters_in_turn (visitEnter be el s).
Proof.
  intros Ht [Htag Hlog].
  destruct (visitEnter_tame be el s Ht) as [d ->].
  destruct (prop el (key be) s) eqn:Hp; [done|]. cbv zeta.
  assert (entered_now (key be) el (log s) = false) as Hnot.
  { destruct (entered_now (key be) el (log s)) eqn:E; [|done].
    apply Htag in E as [? ?]. congruence. }
  assert (∀ r l1 l2 k0 el0 t0 r0,
    log s ++ [EvInit (key be) el (mkTag (cid s) (selector be)) r] =
      l1 ++ EvInit k0 el0 t0 r0 :: l2 →
    entered_now k0 el0 l1 = false) as Hsnoc.
  { intros r l1 l2 k0 el0 t0 r0 [(l2' & _ & Hl)|(_ & Hx & ->)]%snoc_split.
    - by eapply Hlog.
    - by injection Hx as -> -> _ _. }
  destruct (init be el _ s).2; split; simpl.
  - intros k0 el0. rewrite entered_now_snoc. simpl. apply Htag.
  - apply Hsnoc.
  - intros k0 el0. rewrite entered_now_snoc. simpl. unfold prop. simpl.
    case_decide as Heq.
    + injection Heq as <- <-. rewrite lookup_insert_eq. split; [done|by eexists].
    + rewrite lookup_insert_ne by congruence. apply Htag.
  - apply Hsnoc.
Qed.

Lemma enters_in_turn_doExit be el i s :
  tame be → enters_in_turn s → enters_in_turn (doExit be el i s).
Proof.
  intros Ht [Htag Hlog].
  destruct (doExit_tame be el i s Ht) as [d ->]. cbv zeta.
  set (io := match i with
             | Some i0 => Some i0
             | None => indexOf (loaded_of (key be) s) el
             end).
  assert (∀ k0 el0, prop el0 k0 (tombstone (key be) io s) = prop el0 k0 s) as Hpt
    by (intros; apply prop_tombstone).
  destruct (exit be) as [f|].
  2:{ split; [intros k0 el0; rewrite Hpt|]; rewrite ?log_tombstone; auto. }
  assert (∀ st r l1 l2 k0 el0 t0 r0,
    log s ++ [EvExit (key be) el st r] = l1 ++ EvInit k0 el0 t0 r0 :: l2 →
    entered_now k0 el0 l1 = false) as Hsnoc.
  { intros st r l1 l2 k0 el0 t0 r0 [(l2' & _ & Hl)|(_ & Hx & _)]%snoc_split.
    - by eapply Hlog.
    - discriminate. }
  destruct (f el _ _).2; split; simpl; rewrite ?log_tombstone.
  - intros k0 el0. rewrite entered_now_snoc. simpl.
    change (prop el0 k0 (record ?e (set_document d ?x))) with (prop el0 k0 x).
    rewrite Hpt. apply Htag.
  - apply Hsnoc.
  - intros k0 el0. rewrite entered_now_snoc. simpl. unfold prop. simpl.
    rewrite props_tombstone. case_decide as Heq.
    + injection Heq as <- <-. rewrite lookup_delete_eq.
      split; [by intros [? ?]|done].
    + rewrite lookup_delete_ne by congruence. apply Htag.
  - apply Hsnoc.
Qed.

(** X14: as long as no callback calls back into the engine, an enter
    action is never invoked on an element that is entered at the time,
    that is, on which an enter invocation of the same behavior succeeded
    and no exit invocation that did not return [false] followed; and an
    element carries the state tag of a behavior exactly when it is entered
    in this sense. *)
Theorem enter_only_when_not_entered d l :
  Forall tame_action l →
  enters_in_turn (run l (initial d)).2.
Proof.
  intros Hl. apply (inv_run (λ _ s, enters_in_turn s)); try done.
  - intros R be el s _ _ Ht Hs. by apply enters_in_turn_visitEnter.
  - intros R be el i s _ _ Ht _ Hs. by apply enters_in_turn_doExit.
  - intros R be el s _ _ Ht Hs. by apply enters_in_turn_doExit.
  - apply world_ok_initial.
  - split; simpl.
    + intros k el. unfold prop. simpl. rewrite lookup_empty.
      split; [by intros [? ?]|done].
    + intros [|? l1] l2 k el t r H; simpl in H; discriminate.
Qed.

(** After a registration and a poll, element [1] is entered. *)
Lemma enter_only_when_not_entered_witness :
  Forall tame_action Sample.plain_run ∧
  is_Some (prop 1 1 (run Sample.plain_run (initial Sample.tree)).2).
Proof.
  split; [apply tame_plain_run|].
  apply (proj1 (enter_only_when_not_entered Sample.tree Sample.plain_run
    tame_plain_run) 1 1).
  by vm_compute.
Defined.

(** ** The order of the invocations of a poll *)

Lemma exit_calls_app k n l1 l2 :
  exit_calls k n (l1 ++ l2) = exit_calls k n l1 + exit_calls k n l2.
Proof. unfold exit_calls. by rewrite List.filter_app, length_app. Qed.

Lemma init_calls_app k n l1 l2 :
  init_calls k n (l1 ++ l2) = init_calls k n l1 + init_calls k n l2.
Proof. unfold init_calls. by rewrite List.filter_app, length_app. Qed.

Lemma exit_calls_inits k n l :
  Forall (fun e => ∃ k', is_init_event k' e) l → exit_calls k n l = 0.
Proof.
  induction 1 as [|[????|????] l [k' He] _ IH]; simpl in *; [done|done|done].
Qed.

Lemma init_calls_exits k n l :
  Forall (fun e => ∃ k', is_exit_event k' e) l → init_calls k n l = 0.
Proof.
  induction 1 as [|[????|????] l [k' He] _ IH]; simpl in *; [done|done|done].
Qed.

Lemma exit_calls_pos k n l :
  0 < exit_calls k n l → ∃ st r, EvExit k n st r ∈ l.
Proof.
  induction l as [|e l IH]; [unfold exit_calls; simpl; lia|].
  change (e :: l) with ([e] ++ l). rewrite exit_calls_app.
  destruct e as [k' el' o r|k' el' st r]; unfold exit_calls at 1; simpl.
  - intros H. destruct (IH H) as (st & r' & Hin). exists st, r'. by right.
  - case_bool_decide as Hk; simpl.
    + destruct Hk as [-> ->]. intros _. exists st, r. by left.
    + intros H. destruct (IH H) as (st' & r' & Hin). exists st', r'. by right.
Qed.

Lemma init_calls_pos k n l :
  0 < init_calls k n l → ∃ t r, EvInit k n t r ∈ l.
Proof.
  induction l as [|e l IH]; [unfold init_calls; simpl; lia|].
  change (e :: l) with ([e] ++ l). rewrite init_calls_app.
  destruct e as [k' el' o r|k' el' st r]; unfold init_calls at 1; simpl.
  - case_bool_decide as Hk; simpl.
    + destruct Hk as [-> ->]. intros _. exists o, r. by left.
    + intros H. destruct (IH H) as (t & r' & Hin). exists t, r'. by right.
  - intros H. destruct (IH H) as (t & r' & Hin). exists t, r'. by right.
Qed.

(** The invocations of a poll: exit invocations, then enter invocations. *)
Lemma poll_log_shape be s :
  tame be →
  ∃ xs es,
    log (poll_closure be s) = log s ++ xs ++ es ∧
    Forall (is_exit_event (key be)) xs ∧
    Forall (is_init_event (key be)) es.
Proof.
  intros Ht. unfold poll_closure, eachOf.
  set (L := query (document s) (selector be)).
  set (sa := each_loaded (key be) (fun element i => visitExit be element i L) s).
  assert (∃ xs, log sa = log s ++ xs ∧ Forall (is_exit_event (key be)) xs)
    as (xs & Hxs & Hall).
  { apply (each_loaded_inv (λ s', ∃ xs, log s' = log s ++ xs ∧
      Forall (is_exit_event (key be)) xs)).
    - intros j s' (xs & Hxs & Hall).
      destruct (loaded_at (key be) j s') as [el|]; [|by exists xs].
      unfold visitExit. repeat case_match; try (by exists xs).
      all: destruct (log_doExit be el (Some j) s' Ht) as [s1 ->];
        rewrite Hxs, <- app_assoc; eexists; split; [done|];
        apply Forall_app; split; [done|];
        destruct (exit be); by repeat constructor.
    - exists []. by rewrite app_nil_r. }
  assert (∃ es, log (each L (fun el _ => visitEnter be el) sa) = log sa ++ es ∧
            Forall (is_init_event (key be)) es) as (es & Hes & Hall').
  { apply (each_inv (λ s', ∃ es, log s' = log sa ++ es ∧
      Forall (is_init_event (key be)) es)).
    - intros x j s' _ (es & Hes & Hall').
      rewrite log_visitEnter, Hes, <- app_assoc by done.
      eexists. split; [done|]. apply Forall_app. split; [done|].
      destruct (prop x (key be) s'); by repeat constructor.
    - exists []. by rewrite app_nil_r. }
  exists xs, es. rewrite Hes, Hxs, <- app_assoc. done.
Qed.

(** X15: a poll of a behavior whose callbacks do not call back into the
    engine first makes all its exit invocations and then all its enter
    invocations, all of them for this behavior.  With callbacks that leave
    the store as they find it, the exit invocation on an element that has
    dropped out is among the first, and the enter invocation on an element
    of the queried list that carries no tag is among the second. *)
Theorem poll_exits_then_enters be s :
  tame be →
  ∃ xs es,
    log (poll_closure be s) = log s ++ xs ++ es ∧
    Forall (is_exit_event (key be)) xs ∧
    Forall (is_init_event (key be)) es ∧
    (quiet be → ∀ f n j0,
       exit be = Some f →
       live (key be) n j0 s → (∀ j, live (key be) n j s → j = j0) →
       exit_eligible be (query (document s) (selector be)) (document s) n →
       ∃ st r, EvExit (key be) n st r ∈ xs) ∧
    (quiet be → NoDup (nodes (document s)) → ∀ m,
       m ∈ query (document s) (selector be) → prop m (key be) s = None →
       (∀ o s', (init be m o s').2 = RetOther) →
       ∃ t r, EvInit (key be) m t r ∈ es).
Proof.
  intros Ht. destruct (poll_log_shape be s Ht) as (xs & es & Hlog & Hxs & Hes).
  exists xs, es. split_and!; [done..| |].
  - intros Hq f n j0 Hexit Hlive Hone Helig.
    destruct (poll_exits_once be f n j0 s Hq Hexit Hlive Hone Helig) as [_ Hc].
    rewrite Hlog, !exit_calls_app in Hc.
    rewrite (exit_calls_inits _ _ es) in Hc.
    + apply exit_calls_pos. lia.
    + eapply Forall_impl; [done|]. intros e He. by eexists.
  - intros Hq Hnd m Hin Hp Hr.
    destruct (poll_closure_enters be m Hq s Hnd Hin Hp Hr) as (t & j & Hv & _).
    apply view_inv in Hv as (_ & _ & Hc & _).
    rewrite Hlog, !init_calls_app in Hc.
    rewrite (init_calls_exits _ _ xs) in Hc.
    + apply init_calls_pos. lia.
    + eapply Forall_impl; [done|]. intros e He. by eexists.
Qed.

(** Element [1] is entered, then removed from the tree: the poll calls the
    exit action on [1] and then the enter action on [2]. *)
Lemma poll_exits_then_enters_witness :
  let s := set_document Sample.tree_without_1 (visitEnter Sample.be_x 1 Sample.store0) in
  log (poll_closure Sample.be_x s) =
    log s ++ [EvExit 1 1 (Some (mkTag 0 ".x")) RetOther]
          ++ [EvInit 1 2 (mkTag 1 ".x") RetOther] ∧
  ∃ xs es,
    log (poll_closure Sample.be_x s) = log s ++ xs ++ es ∧
    (∃ st r, EvExit 1 1 st r ∈ xs) ∧
    (∃ t r, EvInit 1 2 t r ∈ es).
Proof.
  intros s. split; [by vm_compute|].
  destruct (poll_exits_then_enters Sample.be_x s (quiet_tame _ quiet_be_x))
    as (xs & es & Hlog & _ & _ & Hx & He).
  exists xs, es. split_and!; [done| |].
  - apply (Hx quiet_be_x Sample.leave 1 0); [done|done| |].
    + intros j. vm_compute. destruct j as [|[|j]]; simpl; congruence.
    + apply isAttached_false. by vm_compute.
  - apply (He quiet_be_x); [|by vm_compute; left|done|done].
    apply (bool_decide_unpack _). by vm_compute.
Defined.

(** ** The state argument outside the observer *)

Lemma exits_with_state_visitEnter be el s :
  tame be →
  Forall exit_has_state (log s) → Forall exit_has_state (log (visitEnter be el s)).
Proof.
  intros Ht Hs. rewrite log_visitEnter by done. apply Forall_app. split; [done|].
  destruct (prop el (key be) s); by repeat constructor.
Qed.

Lemma exits_with_state_doExit be el i s :
  tame be → live_once s → loaded_at (key be) i s = Some el →
  Forall exit_has_state (log s) →
  Forall exit_has_state (log (doExit be el (Some i) s)).
Proof.
  intros Ht [_ Htag] Hi Hs. destruct (log_doExit be el (Some i) s Ht) as [s1 ->].
  apply Forall_app. split; [done|].
  destruct (exit be); repeat constructor. simpl.
  apply (Htag (key be) el i). unfold live, loaded_at in *.
  destruct (loaded_of (key be) s !! i) as [[?|]|]; simpl in Hi; congruence.
Qed.

(** X16: as long as no callback calls back into the engine and no
    mutation batch is handed to the observer callback, every exit
    invocation receives a state: polls and [teardown] call the exit action
    only on elements that carry the state tag. *)
Theorem exit_state_defined d l :
  Forall tame_action l →
  Forall not_observed l →
  Forall exit_has_state (log (run l (initial d)).2).
Proof.
  intros Hl Hno.
  set (P := λ (_ : Registry) s, live_once s ∧ Forall exit_has_state (log s)).
  assert (∀ R be el s, registry_wf R → be ∈ behaviors R → tame be →
            P R s → P R (visitEnter be el s)) as Penter.
  { intros R be el s _ _ Ht [Ho Hs]. split;
      [by apply live_once_visitEnter|by apply exits_with_state_visitEnter]. }
  assert (∀ R be el i s, registry_wf R → be ∈ behaviors R → tame be →
            loaded_at (key be) i s = Some el → P R s →
            P R (doExit be el (Some i) s)) as Pexit.
  { intros R be el i s _ _ Ht Hi [Ho Hs]. split;
      [by apply live_once_doExit|by apply exits_with_state_doExit]. }
  assert (∀ w, world_ok w → P w.1 w.2 → P (run l w).1 (run l w).2) as Hrun.
  { clear d. induction l as [|a l IH]; intros w Hw Hs; simpl; [done|].
    apply Forall_cons in Hl as [Ha Hl]. apply Forall_cons in Hno as [Hna Hno].
    apply IH; [done|done|by apply world_ok_step|].
    destruct w as [R s]. destruct Hw as (Hwf & Ht & _). simpl in *.
    destruct a as [c| | |ms|d]; simpl; try done.
    - rewrite onmount_store. destruct c as [|sel|sel i third fourth].
      + by apply (inv_poll P).
      + by apply (inv_poll P).
      + done.
    - by apply (inv_teardown P). }
  apply (Hrun (initial d)); [apply world_ok_initial|].
  split; [|constructor]. split; simpl.
  - intros k n i j H. unfold live, loaded_of in H. simpl in H.
    by rewrite lookup_empty in H.
  - intros k n j H. unfold live, loaded_of in H. simpl in H.
    by rewrite lookup_empty in H.
Qed.

(** A registration and a poll, then element [1] is removed and a second
    poll calls the exit action on it, with the tag of [1]. *)
Lemma exit_state_defined_witness :
  Forall tame_action Sample.exit_run ∧ Forall not_observed Sample.exit_run ∧
  exit_trace (log (run Sample.exit_run (initial Sample.tree)).2) = [(1, 1)] ∧
  Forall exit_has_state (log (run Sample.exit_run (initial Sample.tree)).2).
Proof.
  assert (Forall tame_action Sample.exit_run) as Hl.
  { apply Forall_app. split; [apply tame_plain_run|by repeat constructor]. }
  assert (Forall not_observed Sample.exit_run) as Hno by (by repeat constructor).
  split_and!; [done|done|by vm_compute|].
  apply (exit_state_defined Sample.tree Sample.exit_run Hl Hno).
Defined.

(** ** After [reset] *)

(** X17: [reset] drops the behaviors without a word: as long as no
    callback calls back into the engine, whatever is registered, polled,
    observed or torn down afterwards, no action of a behavior that was
    registered before the [reset] (its key is at most [bid]) is invoked
    again, so the elements it had entered are never exited by the engine. *)
Theorem reset_drops_behaviors w l k :
  world_ok w →
  Forall tame_action l →
  k ≤ bid w.1 →
  events_of k (log (run l (step w AReset)).2) = events_of k (log w.2).
Proof.
  intros Hw Hl Hk.
  assert (dropped_silent (bid w.1) k w.2 (run l (step w AReset)).1
            (run l (step w AReset)).2) as (_ & _ & ?); [|done].
  apply (inv_run (dropped_silent (bid w.1) k w.2)); try done.
  - intros R be el s _ Hbe Ht (Hb & Hkeys & He). split_and!; [done..|].
    rewrite log_visitEnter, events_of_app, He by done.
    destruct (prop el (key be) s); simpl; [by rewrite app_nil_r|].
    apply Hkeys in Hbe.
    rewrite bool_decide_eq_false_2 by lia. by rewrite app_nil_r.
  - intros R be el i s _ Hbe Ht _ (Hb & Hkeys & He). split_and!; [done..|].
    destruct (log_doExit be el (Some i) s Ht) as [s1 ->].
    rewrite events_of_app, He. apply Hkeys in Hbe.
    destruct (exit be); simpl; [|by rewrite app_nil_r].
    rewrite bool_decide_eq_false_2 by lia. by rewrite app_nil_r.
  - intros R be el s _ Hbe Ht (Hb & Hkeys & He). split_and!; [done..|].
    destruct (log_doExit be el None s Ht) as [s1 ->].
    rewrite events_of_app, He. apply Hkeys in Hbe.
    destruct (exit be); simpl; [|by rewrite app_nil_r].
    rewrite bool_decide_eq_false_2 by lia. by rewrite app_nil_r.
  - intros R s _ (Hb & _ & He). split_and!; [done| |done].
    intros be H. by apply elem_of_nil in H.
  - intros R sel i third fourth s _ (Hb & Hkeys & He).
    destruct (onmount_behaviors sel i third fourth R s)
      as (be & Hbs & Hbid & Hkb & _).
    unfold dropped_silent. rewrite Hbs, Hbid. split_and!; [lia| |done].
    intros b [Hin|Hin]%elem_of_app; [by apply Hkeys|].
    apply list_elem_of_singleton in Hin. subst b. lia.
  - by apply (world_ok_step w AReset).
  - simpl. split_and!; [done| |done]. intros be H. by apply elem_of_nil in H.
Qed.

(** Registration, poll, [reset], then [teardown]: the exit action of the
    dropped behavior is not called. *)
Lemma reset_drops_behaviors_witness :
  events_of 1 (log (run [ATeardown]
    (step (run Sample.plain_run (initial Sample.tree)) AReset)).2) =
  events_of 1 (log (run Sample.plain_run (initial Sample.tree)).2).
Proof.
  apply (reset_drops_behaviors (run Sample.plain_run (initial Sample.tree))
    [ATeardown] 1).
  - apply world_ok_run; [apply tame_plain_run|apply world_ok_initial].
  - by repeat constructor.
  - by vm_compute.
Defined.

(** ** The id of an enter invocation *)

Lemma entered_ids_app l1 l2 :
  entered_ids (l1 ++ l2) = entered_ids l1 ++ entered_ids l2.
Proof. apply omap_app. Qed.

Lemma entered_ids_no_init l : init_ids l = [] → entered_ids l = [].
Proof.
  induction l as [|[k el o r|k el st r] l IH]; simpl; [done|done|].
  intros H. by apply IH.
Qed.

Lemma ids_counted_visitEnter be el s :
  tame be → ids_counted s → ids_counted (visitEnter be el s).
Proof.
  intros Ht [Hc Hid].
  assert (∀ r, ∀ l1 l2 k0 el0 t r0,
    log s ++ [EvInit (key be) el (mkTag (cid s) (selector be)) r] =
      l1 ++ EvInit k0 el0 t r0 :: l2 →
    tag_id t = length (entered_ids l1)) as Hsnoc.
  { intros r l1 l2 k0 el0 t r0 [(l2' & _ & Hl)|(_ & Hx & ->)]%snoc_split.
    - by eapply Hid.
    - by injection Hx as _ _ -> _. }
  destruct (visitEnter_tame be el s Ht) as [d ->].
  destruct (prop el (key be) s) eqn:Hp; [done|]. cbv zeta.
  destruct (init be el _ s).2; split; simpl.
  - rewrite entered_ids_app. simpl. by rewrite app_nil_r.
  - apply Hsnoc.
  - rewrite entered_ids_app, length_app. simpl. lia.
  - apply Hsnoc.
Qed.

Lemma ids_counted_doExit be el i s :
  tame be → ids_counted s → ids_counted (doExit be el i s).
Proof.
  intros Ht [Hc Hid]. split.
  - by rewrite cid_doExit, entered_ids_doExit.
  - destruct (log_doExit be el i s Ht) as [s1 ->].
    destruct (exit be) as [f|]; [|by rewrite app_nil_r].
    intros l1 l2 k0 el0 t r [(l2' & _ & Hl)|(_ & Hx & _)]%snoc_split.
    + by eapply Hid.
    + discriminate.
Qed.

Lemma ids_counted_run d l :
  Forall tame_action l → ids_counted (run l (initial d)).2.
Proof.
  intros Hl. apply (inv_run (λ _ s, ids_counted s)); try done.
  - intros R be el s _ _ Ht Hs. by apply ids_counted_visitEnter.
  - intros R be el i s _ _ Ht _ Hs. by apply ids_counted_doExit.
  - intros R be el s _ _ Ht Hs. by apply ids_counted_doExit.
  - apply world_ok_initial.
  - split; simpl; [done|]. by intros [|??] ??????.
Qed.

(** C5 as amended: in every run of the engine from the loaded module whose
    callbacks are tame (they do not call back into the engine), the
    correlation id an enter invocation receives is the number of enter
    invocations before it, over all behaviors, that did not return [false].
    So the invocations that do not return [false] receive strictly
    increasing, hence pairwise distinct, ids; an invocation that returns
    [false] does not use up its id, the next enter invocation receives the
    same one; and over all enter invocations the ids never decrease. *)
Theorem enter_ids_increase d l :
  Forall tame_action l →
  let lg := log (run l (initial d)).2 in
  (∀ l1 l2 k el t r, lg = l1 ++ EvInit k el t r :: l2 →
     tag_id t = length (entered_ids l1)) ∧
  StronglySorted lt (entered_ids lg) ∧
  (∀ l1 l2 l3 k el t k' el' t' r',
     lg = l1 ++ EvInit k el t RetFalse :: l2 ++ EvInit k' el' t' r' :: l3 →
     init_ids l2 = [] → tag_id t' = tag_id t) ∧
  StronglySorted le (init_ids lg).
Proof.
  intros Hl lg. destruct (ids_counted_run d l Hl) as [_ Hid]. fold lg in Hid.
  destruct (ids_sorted_run d l Hl) as [Hlt Hle].
  split_and!; [done|done| |done].
  intros l1 l2 l3 k el t k' el' t' r' Hlg Hno.
  rewrite (Hid l1 _ k el t RetFalse Hlg).
  change (l1 ++ EvInit k el t RetFalse :: l2 ++ EvInit k' el' t' r' :: l3)
    with (l1 ++ (EvInit k el t RetFalse :: l2) ++ EvInit k' el' t' r' :: l3) in Hlg.
  rewrite app_assoc in Hlg.
  rewrite (Hid _ _ k' el' t' r' Hlg), entered_ids_app, length_app. simpl.
  rewrite (entered_ids_no_init l2 Hno). simpl. lia.
Qed.

(** A registration with a vetoing enter action and a poll: the second
    invocation receives the id of the first. *)
Lemma enter_ids_increase_witness :
  Forall tame_action Sample.veto_run ∧
  log (run Sample.veto_run (initial Sample.tree)).2 =
    [] ++ EvInit 1 1 (mkTag 0 ".x") RetFalse ::
    [] ++ EvInit 1 2 (mkTag 0 ".x") RetFalse :: [] ∧
  tag_id (mkTag 0 ".x") = length (entered_ids [EvInit 1 1 (mkTag 0 ".x") RetFalse]).
Proof.
  assert (Forall tame_action Sample.veto_run) as Hl.
  { repeat constructor; intros ?? s; exists (document s); by destruct s. }
  split_and!; [done|by vm_compute|].
  apply (proj1 (enter_ids_increase Sample.tree Sample.veto_run Hl)
    [EvInit 1 1 (mkTag 0 ".x") RetFalse] [] 1 2 (mkTag 0 ".x") RetFalse).
  by vm_compute.
Defined.

(** ** Exit eligibility in a poll *)

Section ExitEligibility.
Variables (be : Behavior) (n : Node) (j0 : nat) (s : Store).
Hypothesis Hq : quiet be.
Hypothesis Hlive : live (key be) n j0 s.

(** The exit pass leaves an element alone that is not eligible. *)
Lemma exit_pass_keeps_ineligible :
  ¬ exit_eligible be (query (document s) (selector be)) (document s) n →
  let s' := each_loaded (key be)
    (fun element i => visitExit be element i (query (document s) (selector be))) s in
  document s' = document s ∧
  live (key be) n j0 s' ∧
  exit_calls (key be) n (log s') = exit_calls (key be) n (log s).
Proof.
  intros Hne. pose proof (quiet_tame _ Hq) as Ht.
  apply (each_loaded_inv (λ s', document s' = document s ∧
    live (key be) n j0 s' ∧
    exit_calls (key be) n (log s') = exit_calls (key be) n (log s))); [|done].
  intros j s' (Hd & Hl & Hc).
  destruct (decide (loaded_at (key be) j s' = Some n)) as [Hx|Hx].
  - rewrite Hx, visitExit_skip by (by rewrite Hd). done.
  - assert (j ≠ j0) as Hj.
    { intros ->. apply Hx. unfold loaded_at. by rewrite Hl. }
    split_and!.
    + by rewrite document_visitExit.
    + by apply visitExit_keeps_slot.
    + by rewrite exit_calls_visitExit_other.
Qed.

(** The exit pass runs exit processing, once, on an element that is
    eligible and holds one slot. *)
Lemma exit_pass_drops_eligible :
  (∀ j, live (key be) n j s → j = j0) →
  exit_eligible be (query (document s) (selector be)) (document s) n →
  let s' := each_loaded (key be)
    (fun element i => visitExit be element i (query (document s) (selector be))) s in
  document s' = document s ∧
  (Some n ∉ loaded_of (key be) s') ∧
  exit_calls (key be) n (log s') =
    exit_calls (key be) n (log s) + (if exit be is Some _ then 1 else 0).
Proof.
  intros Hone Helig. pose proof (quiet_tame _ Hq) as Ht.
  set (L := query (document s) (selector be)).
  set (c := exit_calls (key be) n (log s)).
  set (P := λ j s', document s' = document s ∧
    ((j ≤ j0 ∧ live (key be) n j0 s' ∧
      (∀ j', live (key be) n j' s' → j' = j0) ∧
      exit_calls (key be) n (log s') = c) ∨
     (j0 < j ∧ (Some n ∉ loaded_of (key be) s') ∧
      exit_calls (key be) n (log s') = c + (if exit be is Some _ then 1 else 0)))).
  assert (∀ j s', P j s' → P (S j) (visitExit be (loaded_at (key be) j s') j L s'))
    as Hstep.
  { intros j s' [Hd [(Hj & Hl & Hu & Hc)|(Hj & Hl & Hc)]];
      (split; [by rewrite document_visitExit|]).
    - destruct (decide (j = j0)) as [->|Hne].
      + right. replace (loaded_at (key be) j0 s') with (Some n)
          by (unfold loaded_at; by rewrite Hl).
        rewrite visitExit_run by (by rewrite Hd).
        split_and!; [lia| |].
        * rewrite loaded_of_doExit, decide_True by done.
          intros [j' Hj']%list_elem_of_lookup.
          apply array_set_live in Hj' as [Hij Hj']. by apply Hu in Hj'.
        * destruct (log_doExit be n (Some j0) s' Ht) as [s1 ->].
          destruct (exit be); [|rewrite app_nil_r; lia].
          rewrite exit_calls_snoc. simpl.
          rewrite bool_decide_eq_true_2 by done. lia.
      + left. assert (loaded_at (key be) j s' ≠ Some n) as Hx.
        { unfold loaded_at. intros Hx. apply Hne, Hu. unfold live.
          destruct (loaded_of (key be) s' !! j) as [[?|]|]; simpl in Hx; congruence. }
        split_and!.
        * lia.
        * by apply visitExit_keeps_slot.
        * intros j' Hj'. apply Hu. by eapply visitExit_only_shrinks.
        * by rewrite exit_calls_visitExit_other.
    - right. assert (loaded_at (key be) j s' ≠ Some n) as Hx.
      { unfold loaded_at. intros Hx. apply Hl.
        destruct (loaded_of (key be) s' !! j) as [[?|]|] eqn:E; simpl in Hx;
          try congruence.
        eapply list_elem_of_lookup_2. by rewrite E, Hx. }
      split_and!.
      + lia.
      + by apply visitExit_absent.
      + by rewrite exit_calls_visitExit_other. }
  assert (P (0 + length (loaded_of (key be) s))
            (each_loaded_loop (key be) (fun element i => visitExit be element i L)
               0 (length (loaded_of (key be) s)) s)) as [Hd Hend].
  { apply (each_loaded_loop_inv_at P).
    - intros j s' _. apply Hstep.
    - split; [done|]. left. split_and!; [lia|done|done|done]. }
  simpl. unfold each_loaded. fold L. split; [done|].
  destruct Hend as [(Hj & _)|(_ & ? & ?)]; [|done].
  apply lookup_lt_Some in Hlive. lia.
Qed.

(** The enter pass calls no exit action and takes nothing out of
    [loaded]. *)
Lemma enter_pass_exit_calls (l : list Node) s' :
  exit_calls (key be) n (log (eachOf l (fun el => visitEnter be el) s')) =
  exit_calls (key be) n (log s').
Proof.
  apply (each_inv (λ s'', exit_calls (key be) n (log s'') =
    exit_calls (key be) n (log s'))); [|done].
  intros x j s'' _ <-. apply exit_calls_visitEnter. by apply quiet_tame.
Qed.

Lemma enter_pass_absent (l : list Node) s' :
  n ∉ l → Some n ∉ loaded_of (key be) s' →
  Some n ∉ loaded_of (key be) (eachOf l (fun el => visitEnter be el) s').
Proof.
  intros Hn Hs'.
  apply (each_inv (λ s'', Some n ∉ loaded_of (key be) s'')); [|done].
  intros x j s'' Hx Hn'.
  destruct (loaded_of_visitEnter_tame be x s'' (quiet_tame _ Hq)) as [-> | ->];
    [done|].
  rewrite elem_of_app, list_elem_of_singleton. intros [?|[= <-]]; done.
Qed.
End ExitEligibility.

(** C4: in a poll of a behavior, for an element [n] that holds one slot of
    [loaded]: exit processing runs for [n] (its slot becomes a tombstone,
    [n] is no longer in the list, and the exit action, when there is one,
    is invoked once on [n]) if and only if [n] is eligible: under
    [detectMutate], [n] is absent from the list queried at the start of
    the poll; without it, the parent links of [n] do not lead to the root
    element.  Otherwise [n] keeps its slot and the exit action is not
    invoked on it.  So an element that is still attached but is no longer
    in the queried list is exited under [detectMutate] and only then. *)
Theorem poll_exit_eligibility be n j0 s :
  quiet be →
  live (key be) n j0 s →
  (∀ j, live (key be) n j s → j = j0) →
  let L := query (document s) (selector be) in
  let s' := poll_closure be s in
  (exit_eligible be L (document s) n ↔ Some n ∉ loaded_of (key be) s') ∧
  (exit_eligible be L (document s) n →
     exit_calls (key be) n (log s') =
       exit_calls (key be) n (log s) + (if exit be is Some _ then 1 else 0)) ∧
  (¬ exit_eligible be L (document s) n →
     live (key be) n j0 s' ∧
     exit_calls (key be) n (log s') = exit_calls (key be) n (log s)) ∧
  (reaches_root (document s) n → n ∉ L →
     (Some n ∉ loaded_of (key be) s') ↔ detectMutate be = true).
Proof.
  intros Hq Hlive Hone L s'.
  assert (exit_eligible be L (document s) n →
          (Some n ∉ loaded_of (key be) s') ∧
          exit_calls (key be) n (log s') =
            exit_calls (key be) n (log s) + (if exit be is Some _ then 1 else 0)) as Hyes.
  { intros Helig.
    destruct (exit_pass_drops_eligible be n j0 s Hq Hlive Hone Helig)
      as (_ & Hn & Hc).
    subst s'. unfold poll_closure. split.
    - apply enter_pass_absent; [done| |done].
      by apply eligible_not_in_query in Helig.
    - by rewrite enter_pass_exit_calls. }
  assert (¬ exit_eligible be L (document s) n →
          live (key be) n j0 s' ∧
          exit_calls (key be) n (log s') = exit_calls (key be) n (log s)) as Hno.
  { intros Hne.
    destruct (exit_pass_keeps_ineligible be n j0 s Hq Hlive Hne) as (_ & Hl & Hc).
    subst s'. unfold poll_closure. split.
    - unfold eachOf, each. by apply enter_pass_live.
    - by rewrite enter_pass_exit_calls. }
  assert (exit_eligible be L (document s) n ↔ Some n ∉ loaded_of (key be) s') as Hiff.
  { split; [intros H; by apply Hyes|].
    intros Hn.
    assert (¬ ¬ exit_eligible be L (document s) n) as Hnn.
    { intros Hne. destruct (Hno Hne) as [Hl _]. destruct Hn.
      by eapply list_elem_of_lookup_2. }
    unfold exit_eligible in *. destruct (detectMutate be).
    - destruct (decide (n ∈ L)); [|done]. destruct Hnn. intros H. by apply H.
    - intros Hr. apply Hnn. intros H. by apply H. }
  split_and!; [done|intros H; by apply Hyes|done|].
  intros Hr HL. rewrite <- Hiff. unfold exit_eligible.
  destruct (detectMutate be); split; done.
Qed.

(** Elements [1] and [2] are entered under [detectMutate], then the class
    is taken off [1] while it stays in the tree: the next poll exits [1]. *)
Lemma poll_exit_eligibility_witness :
  let s := set_document Sample.tree_1_unclassed
             (poll_closure Sample.be_x_mutate Sample.store0) in
  live 1 1 0 s ∧
  reaches_root (document s) 1 ∧
  loaded_of 1 (poll_closure Sample.be_x_mutate s) = [None; Some 2] ∧
  Some 1 ∉ loaded_of 1 (poll_closure Sample.be_x_mutate s).
Proof.
  intros s.
  assert (quiet Sample.be_x_mutate) as Hq.
  { split; [by intros ???|]. by intros f [= <-] ???. }
  assert (live 1 1 0 s) as Hlive by reflexivity.
  assert (∀ j, live 1 1 j s → j = 0) as Hone.
  { intros j. vm_compute. destruct j as [|[|[|j]]]; simpl; congruence. }
  assert (reaches_root (document s) 1) as Hr by (by exists 1).
  assert (1 ∉ query (document s) (selector Sample.be_x_mutate)) as HL.
  { vm_compute. apply not_elem_of_cons. split; [done|apply not_elem_of_nil]. }
  split_and!; [done|done|by vm_compute|].
  by apply (proj2 (proj2 (proj2 (poll_exit_eligibility Sample.be_x_mutate 1 0 s
    Hq Hlive Hone))) Hr HL).
Defined.

(** ** The registry over a run *)

Lemma registry_exact_initial b : registry_exact (mkRegistry [] [] ∅ b).
Proof.
  split; simpl; [done| |constructor|].
  - intros sel. by rewrite lookup_empty.
  - intros be H. by apply elem_of_nil in H.
Qed.

(** Nothing is registered under an inherited name. *)
Lemma exact_inherited_absent R sel :
  registry_exact R → is_Some (Object_prototype !! sel) → selectors R !! sel = None.
Proof.
  intros HR [p Hp]. rewrite (ex_selectors R HR), (ex_handlers R HR).
  replace (List.filter _ (List.filter _ (behaviors R))) with (@nil Behavior); [done|].
  symmetry. induction (behaviors R) as [|b bs IH]; simpl; [done|].
  unfold registrable at 1. case_bool_decide as Hb; simpl; [|done].
  rewrite bool_decide_eq_false_2; [done|]. intros <-. congruence.
Qed.

Lemma registry_exact_onmount c R s :
  registry_exact R → registry_exact (onmount c R s).1.1.
Proof.
  intros HR. destruct c as [| |sel i third fourth]; [done..|].
  destruct (onmount_behaviors sel i third fourth R s)
    as (be' & _ & _ & Hk & Hi & Hsel & _).
  destruct (onmount_register sel i third fourth R s) as (be & Hbe & ->).
  assert (key be = S (bid R) ∧ be_id be = bid R ∧ selector be = sel)
    as (Hkey & Hid & Hs) by (by subst be).
  clear Hbe be' Hk Hi Hsel. cbn [fst snd].
  destruct HR as [Hh Hsels Hsorted Hkeys].
  assert (StronglySorted lt (key <$> behaviors R ++ [be])) as Hsorted'.
  { rewrite fmap_app. simpl. apply StronglySorted_snoc; [done|].
    apply Forall_forall. intros k (b & -> & Hb)%list_elem_of_fmap.
    apply Hkeys in Hb. lia. }
  assert (∀ b, b ∈ behaviors R ++ [be] →
            key b = S (be_id b) ∧ key b ≤ S (bid R)) as Hkeys'.
  { intros b [Hin|Hin]%elem_of_app.
    - apply Hkeys in Hin. lia.
    - apply list_elem_of_singleton in Hin. subst b. lia. }
  destruct (register_cases sel be
    (mkRegistry (behaviors R ++ [be]) (handlers R) (selectors R) (S (bid R))))
    as [(-> & Hnone & [p Hp])|(-> & Hok)]; simpl in *.
  - split; simpl; [|done..].
    rewrite List.filter_app, <- Hh. simpl. unfold registrable.
    rewrite Hs, bool_decide_eq_false_2 by congruence. by rewrite app_nil_r.
  - assert (registrable sel = true) as Hreg.
    { apply bool_decide_eq_true. destruct Hok as [[fs Hfs]|Hok]; [|done].
      destruct (Object_prototype !! sel) as [p|] eqn:Hp; [|done].
      rewrite (exact_inherited_absent R sel) in Hfs; [done| |by eexists].
      by split. }
    split; simpl; [| |done..].
    + rewrite List.filter_app, <- Hh. simpl. by rewrite Hs, Hreg.
    + intros sel'. rewrite List.filter_app. simpl.
      rewrite lookup_insert, Hs. case_decide as Heq.
      * subst sel'. rewrite bool_decide_eq_true_2 by done.
        rewrite Hsels.
        by destruct (List.filter _ (handlers R)).
      * rewrite bool_decide_eq_false_2 by done. by rewrite app_nil_r.
Qed.

Lemma registry_exact_run l w :
  registry_exact w.1 → registry_exact (run l w).1.
Proof.
  revert w. induction l as [|a l IH]; intros w Hw; simpl; [done|].
  apply IH. destruct w as [R s]. destruct a as [c| | |ms|d]; simpl; try done.
  - by apply registry_exact_onmount.
  - apply registry_exact_initial.
Qed.

(** X2: whatever is registered, polled, observed, torn down or reset, and
    whatever the callbacks do to the store, the registry stays in step.
    [handlers] lists the poll closures of the behaviors whose selector
    names no property that [selectors] inherits, in registration order: a
    registration under an inherited name raises after the behavior was
    pushed to [behaviors], so that behavior is never polled.  The behavior
    keys grow strictly along [behaviors] (no two behaviors share a key,
    also across [reset]), the key is built from the number after the one in
    the id, and [selectors] holds for each selector string the poll
    closures registered under it, in order.  Polling an inherited name
    leaves the store as it is, and raises when the name is that of a
    function with a parameter. *)
Theorem registry_of_run l d :
  let R := (run l (initial d)).1 in
  handlers R = List.filter (fun be => registrable (selector be)) (behaviors R) ∧
  StronglySorted lt (key <$> behaviors R) ∧
  (∀ be, be ∈ behaviors R → key be = S (be_id be) ∧ key be ≤ bid R) ∧
  (∀ sel, selectors R !! sel =
          match List.filter (fun be => bool_decide (selector be = sel)) (handlers R) with
          | [] => None
          | fs => Some fs
          end) ∧
  (∀ sel p s, Object_prototype !! sel = Some p →
     poll R (Some sel) s =
       (s, match p with IFunction (S _) => TypeError | _ => Normal end)).
Proof.
  intros R.
  assert (registry_exact R) as HR.
  { apply registry_exact_run, registry_exact_initial. }
  split_and!; [apply HR..|].
  intros sel p s Hp. unfold poll, selectors_at.
  rewrite decide_False by (by intros ->).
  rewrite (exact_inherited_absent R sel HR) by (by eexists).
  rewrite Hp. simpl. by destruct p as [[|n]|].
Qed.

(** ** An enter action that polls *)

(** C2, at an enter action that polls its own selector once.
    [onmount ('.x', enter_repoll)] is registered and [onmount ()] runs on
    the tree in which [1] and [2] match.  The visit of [1] finds no tag and
    calls the enter action; the poll made from inside finds [1] still
    without a tag, since the tag is written after the action returns, and
    enters [1] and [2]; back in the outer visit [1] is tagged and pushed
    once more.  The enter action was invoked twice on [1], [1] holds two
    slots of [loaded], and a second [onmount ()] changes none of it. *)
Theorem reentrant_enter_enters_twice :
  let R := Sample.reg_repoll in
  let s1 := (onmount CallAll R Sample.store0).1.2 in
  let s2 := (onmount CallAll R s1).1.2 in
  behaviors R = [mkBehavior 0 Sample.enter_repoll None ".x" 1 false] ∧
  behaviors Sample.reg_x_noexit = [mkBehavior 0 Sample.enter None ".x" 1 false] ∧
  query Sample.tree ".x" = [1; 2] ∧
  log s1 = [EvInit 1 1 (mkTag 0 ".x") RetOther;
            EvInit 1 2 (mkTag 1 ".x") RetOther;
            EvInit 1 1 (mkTag 0 ".x") RetOther] ∧
  loaded_of 1 s1 = [Some 1; Some 2; Some 1] ∧
  init_calls 1 1 (log s1) = 2 ∧
  document s2 = document Sample.store0 ∧
  init_calls 1 1 (log s2) = 2.
Proof. vm_compute. repeat split. Qed.

(** ** Nodes that are not elements *)

(** C10, at a batch that reports a text node before the element.  The
    behavior of [onmount ('.x', enter, leave)] is registered, element [1]
    matches and was never entered.  On the record with the removed nodes
    [text, 1] the callback raises at the text node, which has no method
    [matches]: the exit action is not invoked on [1].  On the record with
    the removed node [1] alone it is. *)
Theorem observer_raises_on_text_node :
  let R := Sample.reg_x in
  let r := observer_callback R
             [mkMutation [] [OtherNode; ElementNode 1]] Sample.store0 in
  let r' := observer_callback R [mkMutation [] [ElementNode 1]] Sample.store0 in
  matches Sample.tree 1 ".x" = true ∧
  prop 1 1 Sample.store0 = None ∧
  r.2 = TypeError ∧
  log r.1 = [] ∧
  r'.2 = Normal ∧
  log r'.1 = [EvExit 1 1 None RetOther].
Proof. vm_compute. repeat split. Qed.
